(** * bare-git-client: tree mutation, three-way merge and reference updates

    A shallow embedding of the TypeScript sources
    ([schemas/index.ts], [utils/tree-walker.ts], [utils/concurrency.ts],
    [utils/ref-resolver.ts], [operations/add-many-files.ts],
    [operations/remove-many-files.ts], [operations/merge-branches.ts],
    [operations/list-files.ts]) over an
    explicit model of the object store they talk to, and the properties the
    specification states about them; then the operations beside them
    ([operations/add-file.ts] and [operations/remove-file.ts] in both their
    versions, [operations/add-placeholder.ts],
    [operations/remove-directory.ts], [operations/read-file.ts],
    [operations/get-file-details.ts], [operations/create-branch.ts],
    [operations/remove-branch.ts], [utils/binary-detection.ts]) and what
    the code shows of them. *)

From Stdlib Require Import OrderedTypeEx Sorted.
From stdpp Require Import base option list gmap strings pretty sorting.
From Stdlib Require Import Ascii ZArith Lia.

Local Open Scope string_scope.
Local Open Scope list_scope.

(** ** Data model *)

(** An OID names an object of the store.  The sources hold it in a
    [string]; [string | null] becomes [option OID]. *)
Definition OID := nat.

Inductive EntryType := blob | tree | commit.

#[global] Instance EntryType_eq_dec : EqDecision EntryType.
Proof. solve_decision. Defined.

Module TreeEntry.
Record t := mk { mode : string; path : string; oid : OID; type : EntryType }.
End TreeEntry.

#[global] Instance TreeEntry_eq_dec : EqDecision TreeEntry.t.
Proof. solve_decision. Defined.

Record Author := {
  name : string;
  email : string;
  timestamp : option Z;
  timezoneOffset : option Z }.

#[global] Instance Author_eq_dec : EqDecision Author.
Proof. solve_decision. Defined.

Record BuiltAuthor := {
  b_name : string;
  b_email : string;
  b_timestamp : Z;
  b_timezoneOffset : Z }.

#[global] Instance BuiltAuthor_eq_dec : EqDecision BuiltAuthor.
Proof. solve_decision. Defined.

Module Commit.
Record t := mk {
  message : string;
  tree : OID;
  parent : list OID;
  author : BuiltAuthor;
  committer : BuiltAuthor }.
End Commit.

#[global] Instance Commit_eq_dec : EqDecision Commit.t.
Proof. solve_decision. Defined.

Inductive GitObject :=
  | BlobObject (content : string)
  | TreeObject (entries : list TreeEntry.t)
  | CommitObject (c : Commit.t).

#[global] Instance GitObject_eq_dec : EqDecision GitObject.
Proof. solve_decision. Defined.

(** The repository: an append-only object table and the mutable
    reference namespace. *)
Record Store := {
  objects : list GitObject;
  refs : gmap string OID }.

(** ** Errors ([errors/BareGitClientError.ts]) *)

Inductive ErrorCode :=
  | NOT_FOUND | CONCURRENCY_ERROR | MERGE_CONFLICT | GIT_CLI_NOT_FOUND
  | ALREADY_EXISTS | INVALID_PATH | BINARY_FILE | INVALID_REFERENCE
  | INVALID_INPUT | OPERATION_FAILED.

(** The [context] record an error carries. *)
Inductive Context :=
  | ctx_resource (resource : string)
  | ctx_ref (ref : string)
  | ctx_conflicts (conflicts : list string)
  | ctx_path (p : string)
  | ctx_field (field : string)
  | ctx_operation (operation : string)
  | ctx_resource_name (resource name : string).

(** What a [catch] can see: the client's own error class, an exception
    of the git library, or a schema rejection.  [OutOfFuel] belongs to
    the model only: a recursion over the object graph ran out of its
    step budget; no [catch] handles it. *)
Inductive Error :=
  | BareGitClientError (code : ErrorCode) (context : Context)
  | GitError (code : string)
  | ZodError
  | OutOfFuel.

Definition notFound (resource : string) : Error :=
  BareGitClientError NOT_FOUND (ctx_resource resource).
Definition concurrencyError (ref : string) : Error :=
  BareGitClientError CONCURRENCY_ERROR (ctx_ref ref).
Definition mergeConflict (conflicts : list string) : Error :=
  BareGitClientError MERGE_CONFLICT (ctx_conflicts conflicts).
Definition alreadyExists (resource name : string) : Error :=
  BareGitClientError ALREADY_EXISTS (ctx_resource_name resource name).
Definition invalidPath (p : string) : Error :=
  BareGitClientError INVALID_PATH (ctx_path p).
Definition invalidInput (field : string) : Error :=
  BareGitClientError INVALID_INPUT (ctx_field field).
Definition operationFailed (operation : string) : Error :=
  BareGitClientError OPERATION_FAILED (ctx_operation operation).

(** ** The monad of store operations

    A thrown exception keeps the store as it was when it was thrown:
    objects written before the [throw] stay written. *)

Inductive Result (A : Type) :=
  | Ok (a : A)
  | Err (e : Error).
Arguments Ok {A} a.
Arguments Err {A} e.

Definition M (A : Type) : Type := Store -> Result A * Store.

Definition ret {A} (a : A) : M A := fun s => (Ok a, s).
Definition throw {A} (e : Error) : M A := fun s => (Err e, s).
Definition bind {A B} (m : M A) (f : A -> M B) : M B :=
  fun s => match m s with
           | (Ok a, s') => f a s'
           | (Err e, s') => (Err e, s')
           end.

(** [try m catch h] *)
Definition try_catch {A} (m : M A) (h : Error -> M A) : M A :=
  fun s => match m s with
           | (Ok a, s') => (Ok a, s')
           | (Err OutOfFuel, s') => (Err OutOfFuel, s')
           | (Err e, s') => h e s'
           end.

#[global] Instance M_ret : MRet M := @ret.
#[global] Instance M_bind : MBind M := fun A B f m => bind m f.
#[global] Instance M_fmap : FMap M := fun A B f m => bind m (fun a => ret (f a)).

(** The [catch] block every operation ends with: the client's errors pass,
    anything else becomes [OPERATION_FAILED]. *)
Definition wrapErrors {A} (operation : string) (m : M A) : M A :=
  try_catch m (fun e =>
    match e with
    | BareGitClientError _ _ => throw e
    | _ => throw (operationFailed operation)
    end).

(** ** The object store

    Modelled from the spec: the object store (the isomorphic-git library
    and the repository on disk) is an external collaborator whose code is
    not part of the repository.  Section 6 of the specification gives its
    contract: writes are content-addressed and idempotent, a tree is a
    set of entries kept in name order, a reference maps a name to an OID.
    Here an OID is the position of the object in the table, an object that
    is already stored is found again instead of stored twice, and
    [writeTree] puts the entries in name order before it stores them. *)

Definition writeObject (o : GitObject) : M OID := fun s =>
  match list_find (fun x => x = o) (objects s) with
  | Some (i, _) => (Ok i, s)
  | None => (Ok (length (objects s)),
             {| objects := (objects s ++ [o])%list; refs := refs s |})
  end.

Definition readObject (id : OID) (s : Store) : option GitObject :=
  objects s !! id.

(** Name order of tree entries (stable insertion sort). *)
Fixpoint insertEntry (e : TreeEntry.t) (l : list TreeEntry.t) : list TreeEntry.t :=
  match l with
  | [] => [e]
  | x :: l' =>
      if String.leb (TreeEntry.path e) (TreeEntry.path x) then e :: x :: l'
      else x :: insertEntry e l'
  end.

Definition sortEntries (l : list TreeEntry.t) : list TreeEntry.t :=
  foldr insertEntry [] l.

Definition writeBlob (content : string) : M OID :=
  writeObject (BlobObject content).

Definition readBlob (id : OID) : M string := fun s =>
  match readObject id s with
  | Some (BlobObject c) => (Ok c, s)
  | Some _ => (Err (GitError "ObjectTypeError"), s)
  | None => (Err (GitError "NotFoundError"), s)
  end.

Definition writeTree (entries : list TreeEntry.t) : M OID :=
  writeObject (TreeObject (sortEntries entries)).

Definition readTree (id : OID) : M (list TreeEntry.t) := fun s =>
  match readObject id s with
  | Some (TreeObject es) => (Ok es, s)
  | Some _ => (Err (GitError "ObjectTypeError"), s)
  | None => (Err (GitError "NotFoundError"), s)
  end.

Definition writeCommit (c : Commit.t) : M OID :=
  writeObject (CommitObject c).

Definition readCommit (id : OID) : M Commit.t := fun s =>
  match readObject id s with
  | Some (CommitObject c) => (Ok c, s)
  | Some _ => (Err (GitError "ObjectTypeError"), s)
  | None => (Err (GitError "NotFoundError"), s)
  end.

Definition resolveRef (ref : string) : M OID := fun s =>
  match refs s !! ref with
  | Some id => (Ok id, s)
  | None => (Err (GitError "NotFoundError"), s)
  end.

Definition writeRef (ref : string) (value : OID) (force : bool) : M unit := fun s =>
  match refs s !! ref with
  | Some _ =>
      if force then (Ok tt, {| objects := objects s; refs := <[ref := value]> (refs s) |})
      else (Err (GitError "AlreadyExistsError"), s)
  | None => (Ok tt, {| objects := objects s; refs := <[ref := value]> (refs s) |})
  end.

Definition deleteRef (ref : string) : M unit := fun s =>
  (Ok tt, {| objects := objects s; refs := delete ref (refs s) |}).

(** ** Strings: the path expressions of the sources *)

(** [s.replace(/^\/+/, '')] *)
Fixpoint stripLeadingSlashes (s : string) : string :=
  match s with
  | String c r => if Ascii.eqb c "/"%char then stripLeadingSlashes r else s
  | EmptyString => EmptyString
  end.

(** [s.replace(/\/+$/, '')] *)
Fixpoint stripTrailingSlashes (s : string) : string :=
  match s with
  | EmptyString => EmptyString
  | String c r =>
      match stripTrailingSlashes r with
      | EmptyString => if Ascii.eqb c "/"%char then EmptyString else String c EmptyString
      | r' => String c r'
      end
  end.

(** [s.replace(/^\/+|\/+$/g, '')] *)
Definition stripSlashes (s : string) : string :=
  stripTrailingSlashes (stripLeadingSlashes s).

(** [s.split(sep)] for a one-character separator. *)
Fixpoint split (sep : ascii) (s : string) : list string :=
  match s with
  | EmptyString => [EmptyString]
  | String c r =>
      if Ascii.eqb c sep then EmptyString :: split sep r
      else match split sep r with
           | h :: t => String c h :: t
           | [] => [String c EmptyString]
           end
  end.

(** [l.filter(Boolean)] on strings: the empty string is the only falsy one. *)
Definition filterBoolean (l : list string) : list string :=
  filter (fun x => x <> EmptyString) l.

(** [p.replace(/^\/+|\/+$/g, '').split('/').filter(Boolean)]: the expression
    every operation and [resolvePath] use to cut a path into its parts. *)
Definition pathPartsOf (p : string) : list string :=
  filterBoolean (split "/"%char (stripSlashes p)).

(** [s.trim()].  A string of the model is a string of bytes, text in
    UTF-8; the white space and the line terminators that [trim] removes are
    the code points U+0009 to U+000D, U+0020, U+00A0, U+1680, U+2000 to
    U+200A, U+2028, U+2029, U+202F, U+205F, U+3000 and U+FEFF. *)
Definition whiteSpace : list string :=
  ((fun c => String c "") <$> ["009"; "010"; "011"; "012"; "013"; " "]%char)
  ++ [String "194" (String "160" ""); String "225" (String "154" (String "128" ""))]
  ++ ((fun c => String "226" (String "128" (String c "")))
        <$> ["128"; "129"; "130"; "131"; "132"; "133"; "134"; "135"; "136"; "137"; "138";
             "168"; "169"; "175"]%char)
  ++ [String "226" (String "129" (String "159" ""));
      String "227" (String "128" (String "128" ""));
      String "239" (String "187" (String "191" ""))].

(** The rest of [s] after [w], when [s] starts with [w]. *)
Fixpoint stripPrefix (w s : string) : option string :=
  match w, s with
  | EmptyString, _ => Some s
  | String a w', String b s' => if Ascii.eqb a b then stripPrefix w' s' else None
  | String _ _, EmptyString => None
  end.

(** The rest of [s] after the character of [ws] it starts with. *)
Definition dropWhiteSpace (ws : list string) (s : string) : option string :=
  head (omap (fun w => stripPrefix w s) ws).

(** Characters of [ws] are dropped from the front as long as there is one;
    each turn drops a byte at least, so the length of [s] bounds the turns. *)
Fixpoint trim_loop (ws : list string) (fuel : nat) (s : string) : string :=
  match fuel with
  | 0 => s
  | S fuel' =>
      match dropWhiteSpace ws s with
      | Some r => trim_loop ws fuel' r
      | None => s
      end
  end.

Definition trimStart (s : string) : string :=
  trim_loop whiteSpace (String.length s) s.

Definition trimEnd (s : string) : string :=
  String.rev (trim_loop (String.rev <$> whiteSpace) (String.length s) (String.rev s)).

Definition trim (s : string) : string := trimEnd (trimStart s).

(** [s.replace(/\/+/g, '/')] *)
Fixpoint collapseSlashes (s : string) : string :=
  match s with
  | EmptyString => EmptyString
  | String c r =>
      let r' := collapseSlashes r in
      if Ascii.eqb c "/"%char then
        match r' with
        | String c' _ => if Ascii.eqb c' "/"%char then r' else String c r'
        | EmptyString => String c r'
        end
      else String c r'
  end.

(** ** [utils/ref-resolver.ts] *)

Definition startsWith (s pre : string) : bool := String.prefix pre s.

Definition normalizeRef (ref : string) : string :=
  if decide (ref = "HEAD") then ref
  else if startsWith ref "refs/" then ref
  else ("refs/heads/" ++ ref)%string.

(** [s.slice(start)] for a [start] that is not negative. *)
Fixpoint slice (start : nat) (s : string) : string :=
  match start, s with
  | 0, _ => s
  | S n, String _ r => slice n r
  | S _, EmptyString => EmptyString
  end.

Definition getBranchName (ref : string) : string :=
  if startsWith ref "refs/heads/" then slice (String.length "refs/heads/") ref
  else ref.

(** ** [utils/binary-detection.ts] *)

(** [buffer.slice(0, n)] *)
Fixpoint sliceTo (n : N) (buffer : string) : string :=
  match buffer with
  | EmptyString => EmptyString
  | String c r => if (n =? 0)%N then EmptyString else String c (sliceTo (N.pred n) r)
  end.

(** The [for] loop: it returns at the first byte that is zero. *)
Fixpoint hasZeroByte (chunk : string) : bool :=
  match chunk with
  | EmptyString => false
  | String c r => if Ascii.eqb c "000"%char then true else hasZeroByte r
  end.

Definition isBinaryBuffer (buffer : string) : bool :=
  let chunk := sliceTo 8000 buffer in
  hasZeroByte chunk.

(** ** [utils/concurrency.ts] *)

Definition compareAndSwap (ref : string) (expectedSha : option OID) (newSha : OID) : M unit :=
  wrapErrors "compareAndSwap" (
    currentSha ← try_catch (Some <$> resolveRef ref) (fun _ => mret None);
    (if decide (currentSha <> expectedSha)
     then throw (concurrencyError ref)
     else mret tt);;
    writeRef ref newSha true).

(** ** [utils/tree-walker.ts] *)

(** [entries.filter(e => e.type !== 'commit')], the [map] copies the fields. *)
Definition filterTreeEntries (entries : list TreeEntry.t) : list TreeEntry.t :=
  filter (fun e => TreeEntry.type e <> commit) entries.

(** [entries.find(e => e.path === part)] *)
Definition findEntry (part : string) (entries : list TreeEntry.t) : option TreeEntry.t :=
  head (filter (fun e => TreeEntry.path e = part) entries).

(** [entries.filter(e => e.path !== part)] *)
Definition dropEntry (part : string) (entries : list TreeEntry.t) : list TreeEntry.t :=
  filter (fun e => TreeEntry.path e <> part) entries.

Module Resolved.
Record t := mk { sha : OID; mode : string; type : EntryType }.
End Resolved.

(** The [for] loop of [resolvePath]; [cur] holds [currentSha], [mode], [type]. *)
Fixpoint resolvePath_loop (targetPath : string) (parts : list string)
    (cur : Resolved.t) : M Resolved.t :=
  match parts with
  | [] => mret cur
  | part :: rest =>
      if decide (Resolved.type cur <> tree) then throw (invalidPath targetPath)
      else
        result ← readTree (Resolved.sha cur);
        let entries := filterTreeEntries result in
        match findEntry part entries with
        | None => throw (notFound "Path")
        | Some entry =>
            resolvePath_loop targetPath rest
              (Resolved.mk (TreeEntry.oid entry) (TreeEntry.mode entry) (TreeEntry.type entry))
        end
  end.

Definition resolvePath (rootTreeSha : OID) (targetPath : string) : M Resolved.t :=
  let parts := pathPartsOf targetPath in
  match parts with
  | [] => mret (Resolved.mk rootTreeSha "040000" tree)
  | _ => resolvePath_loop targetPath parts (Resolved.mk rootTreeSha "040000" tree)
  end.

(** [const [currentPart, ...remainingParts] = pathParts].  Every caller
    rejects an empty part list before the call; with one, [currentPart] is
    undefined and the source hands the library an entry without a name,
    which the library refuses. *)
Fixpoint upsertFileInTree (parentTreeSha : option OID) (pathParts : list string)
    (fileBlobSha : OID) : M OID :=
  match pathParts with
  | [] =>
      entries ← match parentTreeSha with
                | Some t => result ← readTree t; mret (filterTreeEntries result)
                | None => mret []
                end;
      throw (GitError "TypeError")
  | currentPart :: remainingParts =>
      entries ← match parentTreeSha with
                | Some t => result ← readTree t; mret (filterTreeEntries result)
                | None => mret []
                end;
      let entries := dropEntry currentPart entries in
      match remainingParts with
      | [] =>
          writeTree (entries ++ [TreeEntry.mk "100644" currentPart fileBlobSha blob])%list
      | _ :: _ =>
          existingEntry ← match parentTreeSha with
                          | Some t => result ← readTree t; mret (findEntry currentPart result)
                          | None => mret None
                          end;
          let existingSubTreeSha := TreeEntry.oid <$> existingEntry in
          newSubTreeSha ← upsertFileInTree existingSubTreeSha remainingParts fileBlobSha;
          writeTree (entries ++ [TreeEntry.mk "040000" currentPart newSubTreeSha tree])%list
      end
  end.

Fixpoint removeFileFromTree (parentTreeSha : option OID) (pathParts : list string)
    : M (option OID) :=
  match parentTreeSha with
  | None => throw (notFound "File")
  | Some parentTree =>
      match pathParts with
      | [] =>
          (* [currentPart] is undefined: no entry has that name *)
          result ← readTree parentTree;
          throw (notFound "File")
      | currentPart :: remainingParts =>
          result ← readTree parentTree;
          let entries := filterTreeEntries result in
          entries ← match remainingParts with
                    | [] =>
                        if decide (findEntry currentPart entries = None)
                        then throw (notFound "File")
                        else mret (dropEntry currentPart entries)
                    | _ :: _ =>
                        match findEntry currentPart entries with
                        | None => throw (notFound "Path")
                        | Some existingEntry =>
                            if decide (TreeEntry.type existingEntry <> tree)
                            then throw (notFound "Path")
                            else
                              newSubTreeSha ← removeFileFromTree
                                                (Some (TreeEntry.oid existingEntry))
                                                remainingParts;
                              let entries := dropEntry currentPart entries in
                              match newSubTreeSha with
                              | Some sub =>
                                  mret (entries ++ [TreeEntry.mk "040000" currentPart sub tree])%list
                              | None => mret entries
                              end
                        end
                    end;
          match entries with
          | [] => mret None
          | _ :: _ => Some <$> writeTree entries
          end
      end
  end.

(** A JavaScript [Map] from names to entries, in insertion order: setting
    a key that is present replaces its value where it stands. *)
Definition EntryMap := list (string * TreeEntry.t).

Fixpoint mapSet (k : string) (v : TreeEntry.t) (m : EntryMap) : EntryMap :=
  match m with
  | [] => [(k, v)]
  | (k', v') :: m' =>
      if decide (k' = k) then (k, v) :: m' else (k', v') :: mapSet k v m'
  end.

Definition newMap (pairs : list (string * TreeEntry.t)) : EntryMap :=
  fold_left (fun m kv => mapSet kv.1 kv.2 m) pairs [].

Definition mapGet (k : string) (m : EntryMap) : option TreeEntry.t :=
  snd <$> head (filter (fun kv => kv.1 = k) m).

Definition mapKeys (m : EntryMap) : list string := m.*1.

(** A JavaScript [Set] of names, in insertion order. *)
Definition newSet (l : list string) : list string :=
  fold_left (fun acc x => if decide (x ∈ acc) then acc else (acc ++ [x])%list) l [].

Definition readTreeEntries (treeSha : option OID) : M EntryMap :=
  match treeSha with
  | None => mret []
  | Some t =>
      result ← readTree t;
      let entries := filterTreeEntries result in
      mret (newMap (map (fun e => (TreeEntry.path e, e)) entries))
  end.

(** ** Operations *)

(** [for (const x of l) { acc = await body(acc, x) }] *)
Fixpoint forEach {A S : Type} (l : list A) (body : S -> A -> M S) (acc : S) : M S :=
  match l with
  | [] => mret acc
  | x :: l' => acc' ← body acc x; forEach l' body acc'
  end.

(** *** [utils/tree-walker.ts]: counting and removing directories *)

(** The recursion follows the object graph, so it is bounded by [fuel]. *)
Fixpoint countFilesInTree (fuel : nat) (treeSha : OID) : M nat :=
  match fuel with
  | 0 => throw OutOfFuel
  | S fuel' =>
      result ← readTree treeSha;
      let entries := filterTreeEntries result in
      forEach entries (fun count entry =>
          if decide (TreeEntry.type entry = blob) then mret (count + 1)
          else if decide (TreeEntry.type entry = tree) then
            n ← countFilesInTree fuel' (TreeEntry.oid entry);
            mret (count + n)
          else mret count)
        0
  end.

Fixpoint removeDirectoryFromTree (parentTreeSha : option OID) (pathParts : list string)
    : M (option OID) :=
  match parentTreeSha with
  | None => throw (notFound "Directory")
  | Some parentTree =>
      match pathParts with
      | [] =>
          (* [currentPart] is undefined: no entry has that name *)
          result ← readTree parentTree;
          throw (notFound "Directory")
      | currentPart :: remainingParts =>
          result ← readTree parentTree;
          let entries := filterTreeEntries result in
          entries ← match remainingParts with
                    | [] =>
                        if decide (findEntry currentPart entries = None)
                        then throw (notFound "Directory")
                        else mret (dropEntry currentPart entries)
                    | _ :: _ =>
                        match findEntry currentPart entries with
                        | None => throw (notFound "Path")
                        | Some existingEntry =>
                            if decide (TreeEntry.type existingEntry <> tree)
                            then throw (notFound "Path")
                            else
                              newSubTreeSha ← removeDirectoryFromTree
                                                (Some (TreeEntry.oid existingEntry))
                                                remainingParts;
                              let entries := dropEntry currentPart entries in
                              match newSubTreeSha with
                              | Some sub =>
                                  mret (entries ++ [TreeEntry.mk "040000" currentPart sub tree])%list
                              | None => mret entries
                              end
                        end
                    end;
          match entries with
          | [] => mret None
          | _ :: _ => Some <$> writeTree entries
          end
      end
  end.

(** The client object; [now] is the clock reading
    [Math.floor(Date.now() / 1000)] of the call. *)
Record Client := {
  repoPath : string;
  userName : string;
  userEmail : string;
  now : Z }.

(** [utils/author-builder.ts] *)
Definition buildAuthor (client : Client) (a : Author) : BuiltAuthor :=
  {| b_name := name a;
     b_email := email a;
     b_timestamp := default (now client) (timestamp a);
     b_timezoneOffset := default 0%Z (timezoneOffset a) |}.

(** [validated.author ?? { name: client.userName, email: client.userEmail }] *)
Definition authorOrClient (client : Client) (a : option Author) : Author :=
  default {| name := userName client; email := userEmail client;
             timestamp := None; timezoneOffset := None |} a.

Module FileInput.
Record t := mk { filePath : string; content : string }.
End FileInput.

Module AddManyFilesInput.
Record t := mk {
  ref : string;
  files : list FileInput.t;
  commitMessage : option string;
  author : option Author }.
End AddManyFilesInput.

Module AddManyFilesResult.
Record t := mk {
  commitSha : OID;
  treeSha : OID;
  blobShas : list (string * OID) }.
End AddManyFilesResult.

Module AddFileInput.
Record t := mk {
  ref : string;
  filePath : string;
  content : string;
  commitMessage : option string;
  author : option Author }.
End AddFileInput.

Module AddFileResult.
Record t := mk { commitSha : OID; treeSha : OID; blobSha : OID }.
End AddFileResult.

Module RemoveManyFilesInput.
Record t := mk {
  ref : string;
  filePaths : list string;
  commitMessage : option string;
  author : option Author }.
End RemoveManyFilesInput.

Module RemoveManyFilesResult.
Record t := mk {
  commitSha : OID;
  treeSha : option OID;
  filesRemoved : nat }.
End RemoveManyFilesResult.

Module RemoveFileInput.
Record t := mk {
  ref : string;
  filePath : string;
  commitMessage : option string;
  author : option Author }.
End RemoveFileInput.

Module RemoveFileResult.
Record t := mk { commitSha : OID; treeSha : option OID }.
End RemoveFileResult.

Module MergeBranchesInput.
Record t := mk {
  sourceBranch : string;
  destinationBranch : string;
  resolutions : option (gmap string string);
  commitMessage : option string;
  author : option Author }.
End MergeBranchesInput.

Module MergeBranchesResult.
Record t := mk {
  commitSha : OID;
  treeSha : OID;
  conflicts : option (list string) }.
End MergeBranchesResult.

Module AddPlaceholderInput.
Record t := mk {
  ref : string;
  directoryPath : string;
  placeholderFileName : string;
  commitMessage : option string;
  author : option Author }.
End AddPlaceholderInput.

Module ListFilesInput.
Record t := mk { ref : string; folderPath : string }.
End ListFilesInput.

Module RemoveDirectoryInput.
Record t := mk {
  ref : string;
  directoryPath : string;
  commitMessage : option string;
  author : option Author }.
End RemoveDirectoryInput.

Module RemoveDirectoryResult.
Record t := mk {
  commitSha : OID;
  treeSha : option OID;
  filesRemoved : nat }.
End RemoveDirectoryResult.

Inductive Encoding := utf8 | buffer | auto.

(** The [content] of a file that was read: [Buffer.from(blob)], the bytes,
    or [Buffer.from(blob).toString('utf8')], the text the bytes encode,
    which is held here by these bytes. *)
Inductive Content :=
  | asBuffer (bytes : string)
  | asString (bytes : string).

(** A field with a default is absent ([None]) or given. *)
Module ReadFileInput.
Record t := mk { ref : option string; filePath : string; encoding : option Encoding }.
End ReadFileInput.

Module ReadFileResult.
Record t := mk { content : Content; mode : string; oid : OID }.
End ReadFileResult.

Module GetFileDetailsInput.
Record t := mk { ref : option string; filePath : string }.
End GetFileDetailsInput.

Module GetFileDetailsResult.
Record t := mk { mode : string; oid : OID; type : EntryType }.
End GetFileDetailsResult.

Module CreateBranchInput.
Record t := mk { branchName : string; sourceBranch : option string; force : option bool }.
End CreateBranchInput.

Module CreateBranchResult.
Record t := mk { branchName : string; commitSha : OID }.
End CreateBranchResult.

Module RemoveBranchInput.
Record t := mk { branchName : string }.
End RemoveBranchInput.

Module RemoveBranchResult.
Record t := mk { branchName : string; commitSha : OID }.
End RemoveBranchResult.

(** *** [schemas/index.ts]: what [parse] rejects *)

Definition parse {A} (valid : bool) (input : A) : M A :=
  if valid then mret input else throw ZodError.

(** [z.string().min(1)] *)
Definition min1 (s : string) : bool := bool_decide (s <> "").

(** [z.string().email()]: the format the schema library checks, without
    regard to case.  There is one at-sign.  Before it stand letters,
    digits, underscores, quotes, plus signs, hyphens and dots, at least one
    of them, the first not a dot and the last neither a dot nor a quote.
    After it stand labels of letters, digits and hyphens, each begun by a
    letter or a digit and closed by a dot, at least one of them, and then
    two letters or more.  No two dots stand in a row. *)
Definition isDigit (c : ascii) : bool :=
  let n := nat_of_ascii c in Nat.leb 48 n && Nat.leb n 57.

Definition isLetter (c : ascii) : bool :=
  let n := nat_of_ascii c in
  (Nat.leb 65 n && Nat.leb n 90) || (Nat.leb 97 n && Nat.leb n 122).

Definition oneOf (cs : string) (c : ascii) : bool :=
  existsb (Ascii.eqb c) (String.list_ascii_of_string cs).

Fixpoint twoDots (s : string) : bool :=
  match s with
  | String c r =>
      match r with
      | String c' _ => (Ascii.eqb c "." && Ascii.eqb c' ".") || twoDots r
      | EmptyString => false
      end
  | EmptyString => false
  end.

Definition emailLocalPart (l : string) : bool :=
  let cs := String.list_ascii_of_string l in
  forallb (fun c => isLetter c || isDigit c || oneOf "_'+-." c) cs
  && match last cs with
     | Some c => isLetter c || isDigit c || oneOf "_+-" c
     | None => false
     end
  && negb (String.prefix "." l).

Definition emailLabel (l : string) : bool :=
  match l with
  | String c r =>
      (isLetter c || isDigit c)
      && forallb (fun c => isLetter c || isDigit c || oneOf "-" c)
           (String.list_ascii_of_string r)
  | EmptyString => false
  end.

Definition emailDomain (d : string) : bool :=
  let labels := split "." d in
  match last labels with
  | Some top =>
      Nat.leb 2 (String.length top)
      && forallb isLetter (String.list_ascii_of_string top)
      && Nat.leb 2 (length labels)
      && forallb emailLabel (take (length labels - 1) labels)
  | None => false
  end.

Definition isEmail (e : string) : bool :=
  match split "@" e with
  | [l; d] => negb (twoDots e) && emailLocalPart l && emailDomain d
  | _ => false
  end.

(** [AuthorSchema]: a name of at least one character and an e-mail
    address; the time stamp and the offset are integers by their type. *)
Definition AuthorSchema (a : Author) : bool :=
  min1 (name a) && isEmail (email a).

(** [AuthorSchema.optional()] *)
Definition optionalAuthor (a : option Author) : bool :=
  from_option AuthorSchema true a.

Definition AddFileInputSchema (i : AddFileInput.t) : bool :=
  min1 (AddFileInput.ref i) && min1 (AddFileInput.filePath i)
  && optionalAuthor (AddFileInput.author i).

Definition RemoveFileInputSchema (i : RemoveFileInput.t) : bool :=
  min1 (RemoveFileInput.ref i) && min1 (RemoveFileInput.filePath i)
  && optionalAuthor (RemoveFileInput.author i).

Definition MergeBranchesInputSchema (i : MergeBranchesInput.t) : bool :=
  min1 (MergeBranchesInput.sourceBranch i) && min1 (MergeBranchesInput.destinationBranch i)
  && optionalAuthor (MergeBranchesInput.author i).

Definition ListFilesInputSchema (i : ListFilesInput.t) : bool :=
  min1 (ListFilesInput.ref i).

(** Modelled from the spec: [AddManyFilesInputSchema] and
    [RemoveManyFilesInputSchema] are imported from [schemas/index.ts] but
    their declarations are missing from it.  The specification leaves
    input validation out of scope; they are taken to ask what the schemas
    of the one-file operations ask (a reference and paths of at least one
    character, and of an author that is given what [AuthorSchema] asks)
    and, as the wrapper [addFile] notes, at least one file. *)
Definition AddManyFilesInputSchema (i : AddManyFilesInput.t) : bool :=
  min1 (AddManyFilesInput.ref i)
  && bool_decide (AddManyFilesInput.files i <> [])
  && forallb (fun f => min1 (FileInput.filePath f)) (AddManyFilesInput.files i)
  && optionalAuthor (AddManyFilesInput.author i).

(** Modelled from the spec: [AddPlaceholderInputSchema] is imported from
    [schemas/index.ts] but its declaration is missing from it; it is taken
    to ask for a reference and a file name of at least one character (the
    file name defaults to [.gitkeep]), and of an author that is given what
    [AuthorSchema] asks. *)
Definition AddPlaceholderInputSchema (i : AddPlaceholderInput.t) : bool :=
  min1 (AddPlaceholderInput.ref i) && min1 (AddPlaceholderInput.placeholderFileName i)
  && optionalAuthor (AddPlaceholderInput.author i).

Definition RemoveManyFilesInputSchema (i : RemoveManyFilesInput.t) : bool :=
  min1 (RemoveManyFilesInput.ref i)
  && bool_decide (RemoveManyFilesInput.filePaths i <> [])
  && forallb min1 (RemoveManyFilesInput.filePaths i)
  && optionalAuthor (RemoveManyFilesInput.author i).

(** [ReferenceSchema.default('HEAD')]: an absent reference is accepted. *)
Definition ReadFileInputSchema (i : ReadFileInput.t) : bool :=
  from_option min1 true (ReadFileInput.ref i) && min1 (ReadFileInput.filePath i).

Definition CreateBranchInputSchema (i : CreateBranchInput.t) : bool :=
  min1 (CreateBranchInput.branchName i)
  && from_option min1 true (CreateBranchInput.sourceBranch i).

Definition RemoveBranchInputSchema (i : RemoveBranchInput.t) : bool :=
  min1 (RemoveBranchInput.branchName i).

(** Modelled from the spec: [GetFileDetailsInputSchema] and
    [RemoveDirectoryInputSchema] are imported from [schemas/index.ts] but
    their declarations are missing from it.  The first is taken to ask what
    [ReadFileInputSchema] asks of the reference and the path, the second to
    ask for a reference of at least one character and of an author that
    is given what [AuthorSchema] asks, as the schemas of the other
    committing operations do; the directory path is checked by the
    operation itself. *)
Definition GetFileDetailsInputSchema (i : GetFileDetailsInput.t) : bool :=
  from_option min1 true (GetFileDetailsInput.ref i) && min1 (GetFileDetailsInput.filePath i).

Definition RemoveDirectoryInputSchema (i : RemoveDirectoryInput.t) : bool :=
  min1 (RemoveDirectoryInput.ref i) && optionalAuthor (RemoveDirectoryInput.author i).

(** [l.map(f)] with a callback that may throw: the first throw ends
    the map. *)
Fixpoint arrayMap {A B : Type} (f : A -> M B) (l : list A) : M (list B) :=
  match l with
  | [] => mret []
  | x :: l' => y ← f x; ys ← arrayMap f l'; mret (y :: ys)
  end.

(** [await Promise.all(l.map(f))] with an [async] callback: every
    callback is started and runs to its end, whatever becomes of the
    others, so what a callback writes is written also when another one
    fails.  The callbacks are taken in input order, and of those that fail
    the first in this order gives the failure of the whole. *)
Fixpoint mapAwait {A B : Type} (f : A -> M B) (l : list A) : M (list B) :=
  match l with
  | [] => mret []
  | x :: l' => fun s =>
      let (r, s1) := f x s in
      let (rs, s2) := mapAwait f l' s1 in
      (match r, rs with
       | Ok y, Ok ys => Ok (y :: ys)
       | Ok _, Err e => Err e
       | Err e, _ => Err e
       end, s2)
  end.

Module ProcessedFile.
Record t := mk { filePath : string; blobSha : OID; pathParts : list string }.
End ProcessedFile.

Module MergeResult.
Record t := mk { treeSha : option OID; conflicts : list string }.
End MergeResult.

(** [arr.sort(cmp)]: a stable sort by a comparator that answers a negative
    number, zero or a positive number. *)
Fixpoint insertBy {A : Type} (cmp : A -> A -> Z) (x : A) (l : list A) : list A :=
  match l with
  | [] => [x]
  | y :: l' => if (cmp x y <=? 0)%Z then x :: y :: l' else y :: insertBy cmp x l'
  end.

Definition sortBy {A : Type} (cmp : A -> A -> Z) (l : list A) : list A :=
  foldr (insertBy cmp) [] l.

(** The callback of [validated.files.map] in [addManyFiles]: the blob is
    written, then the path is cut into its parts and checked. *)
Definition fileProcessing (file : FileInput.t) : M ProcessedFile.t :=
  blobSha ← writeBlob (FileInput.content file);
  let pathParts := pathPartsOf (FileInput.filePath file) in
  if decide (pathParts = []) then throw (invalidPath (FileInput.filePath file))
  else mret (ProcessedFile.mk (FileInput.filePath file) blobSha pathParts).

(** The [for] loop of [addManyFiles]: the files are upserted one after the
    other, each into the tree the one before it returned. *)
Definition addManyFiles_loop (processedFiles : list ProcessedFile.t)
    (rootTreeSha : option OID) : M (option OID) :=
  forEach processedFiles (fun currentTreeSha file =>
      Some <$> upsertFileInTree currentTreeSha
                 (ProcessedFile.pathParts file) (ProcessedFile.blobSha file))
    rootTreeSha.

(** The validation of the directory path with which [addPlaceholder] and
    [removeDirectory] begin; it answers the normalized path. *)
Definition validateDirectoryPath (directoryPath : string) : M string :=
  let dirPath := trim directoryPath in
  if decide (dirPath = "") then throw (invalidPath directoryPath)
  else if decide (dirPath = "." \/ dirPath = "..") then throw (invalidPath directoryPath)
  else
    let dirPath := collapseSlashes dirPath in
    let dirPath := stripSlashes dirPath in
    if decide (dirPath = "") then throw (invalidPath directoryPath)
    else
      forEach (split "/"%char dirPath) (fun _ segment =>
          if decide (segment = "") then throw (invalidPath directoryPath)
          else if decide (segment = ".") then throw (invalidPath directoryPath)
          else if decide (segment = "..") then throw (invalidPath directoryPath)
          else mret tt) tt;;
      mret dirPath.

Section Operations.

(** What the other writers of the repository do while an operation is
    suspended between the write of its commit and the update of the
    reference.  [id] is an operation that runs alone. *)
Variable concurrent : Store -> Store.

(** The library's merge-base search, a function of the commit graph. *)
Variable findMergeBase : Store -> OID -> OID -> list OID.

(** [String.prototype.localeCompare], which depends on the locale of
    the host. *)
Variable localeCompare : string -> string -> Z.

Definition suspended : M unit := fun s => (Ok tt, concurrent s).

(** *** [operations/add-many-files.ts] *)
Definition addManyFiles (client : Client) (input : AddManyFilesInput.t)
    : M AddManyFilesResult.t :=
  validated ← parse (AddManyFilesInputSchema input) input;
  let ref := normalizeRef (AddManyFilesInput.ref validated) in
  wrapErrors "addManyFiles" (
    parentSha ← try_catch (Some <$> resolveRef ref) (fun _ => mret None);
    rootTreeSha ← match parentSha with
                  | Some p => c ← readCommit p; mret (Some (Commit.tree c))
                  | None => mret None
                  end;
    processedFiles ← mapAwait fileProcessing (AddManyFilesInput.files validated);
    currentTreeSha ← addManyFiles_loop processedFiles rootTreeSha;
    let author := buildAuthor client
                    (authorOrClient client (AddManyFilesInput.author validated)) in
    let n := length (AddManyFilesInput.files validated) in
    let commitMessage :=
      default ("Add " ++ pretty n ++ " file" ++ (if decide (n = 1) then "" else "s"))%string
              (AddManyFilesInput.commitMessage validated) in
    match currentTreeSha with
    | None => throw (GitError "InternalError")
    | Some newTree =>
        commitSha ← writeCommit
          (Commit.mk commitMessage newTree
             (match parentSha with Some p => [p] | None => [] end) author author);
        suspended;;
        compareAndSwap ref parentSha commitSha;;
        mret (AddManyFilesResult.mk commitSha newTree
                (map (fun file => (ProcessedFile.filePath file, ProcessedFile.blobSha file))
                     processedFiles))
    end).

(** *** [operations/add-file.ts] *)
Definition addFile (client : Client) (input : AddFileInput.t) : M AddFileResult.t :=
  validated ← parse (AddFileInputSchema input) input;
  result ← addManyFiles client
    (AddManyFilesInput.mk (AddFileInput.ref validated)
       [FileInput.mk (AddFileInput.filePath validated) (AddFileInput.content validated)]
       (AddFileInput.commitMessage validated) (AddFileInput.author validated));
  match AddManyFilesResult.blobShas result with
  | (_, blobSha) :: _ =>
      mret (AddFileResult.mk (AddManyFilesResult.commitSha result)
              (AddManyFilesResult.treeSha result) blobSha)
  | [] => throw (GitError "TypeError")
  end.

(** *** [operations/add-placeholder.ts] *)

Definition PLACEHOLDER_CONTENT : string :=
  "# Placeholder file to preserve directory structure" ++ String "010"%char
  ("# Safe to delete once other files exist in this directory" ++ String "010"%char "").

Definition addPlaceholder (client : Client) (input : AddPlaceholderInput.t)
    : M AddFileResult.t :=
  validated ← parse (AddPlaceholderInputSchema input) input;
  dirPath ← validateDirectoryPath (AddPlaceholderInput.directoryPath validated);
  let filePath := (dirPath ++ "/" ++ AddPlaceholderInput.placeholderFileName validated)%string in
  let commitMessage :=
    default ("Add " ++ AddPlaceholderInput.placeholderFileName validated ++ " to " ++ dirPath)%string
            (AddPlaceholderInput.commitMessage validated) in
  addFile client
    (AddFileInput.mk (AddPlaceholderInput.ref validated) filePath PLACEHOLDER_CONTENT
       (Some commitMessage) (AddPlaceholderInput.author validated)).

(** *** [operations/remove-many-files.ts] *)
Definition removeManyFiles (client : Client) (input : RemoveManyFilesInput.t)
    : M RemoveManyFilesResult.t :=
  validated ← parse (RemoveManyFilesInputSchema input) input;
  let ref := normalizeRef (RemoveManyFilesInput.ref validated) in
  wrapErrors "removeManyFiles" (
    (if decide (NoDup (RemoveManyFilesInput.filePaths validated)) then mret tt
     else throw (invalidInput "filePaths"));;
    parentSha ← resolveRef ref;
    commit ← readCommit parentSha;
    let rootTreeSha := Commit.tree commit in
    preparedPaths ← arrayMap (fun filePath =>
        let pathParts := pathPartsOf filePath in
        if decide (pathParts = []) then throw (invalidPath filePath)
        else mret (filePath, pathParts))
      (RemoveManyFilesInput.filePaths validated);
    currentTreeSha ← forEach preparedPaths (fun currentTreeSha file =>
        match currentTreeSha with
        | None => throw (operationFailed "removeManyFiles")
        | Some t => removeFileFromTree (Some t) file.2
        end)
      (Some rootTreeSha);
    let author := buildAuthor client
                    (authorOrClient client (RemoveManyFilesInput.author validated)) in
    let n := length (RemoveManyFilesInput.filePaths validated) in
    let commitMessage :=
      default ("Remove " ++ pretty n ++ " file" ++ (if decide (n = 1) then "" else "s"))%string
              (RemoveManyFilesInput.commitMessage validated) in
    finalTreeSha ← match currentTreeSha with
                   | Some t => mret t
                   | None => writeTree []
                   end;
    commitSha ← writeCommit (Commit.mk commitMessage finalTreeSha [parentSha] author author);
    suspended;;
    compareAndSwap ref (Some parentSha) commitSha;;
    mret (RemoveManyFilesResult.mk commitSha currentTreeSha n)).

(** *** [operations/remove-file.ts] *)
Definition removeFile (client : Client) (input : RemoveFileInput.t) : M RemoveFileResult.t :=
  validated ← parse (RemoveFileInputSchema input) input;
  result ← removeManyFiles client
    (RemoveManyFilesInput.mk (RemoveFileInput.ref validated)
       [RemoveFileInput.filePath validated]
       (RemoveFileInput.commitMessage validated) (RemoveFileInput.author validated));
  mret (RemoveFileResult.mk (RemoveManyFilesResult.commitSha result)
          (RemoveManyFilesResult.treeSha result)).

(** *** [operations/merge-branches.ts] *)

(** [resolutions[p]].  The resolutions are a plain object, so a name
    that is not a key of its own is looked up in [Object.prototype]: there
    it finds a function (under [__proto__] the prototype itself), which is
    truthy, and which [Buffer.from] refuses with a [TypeError]. *)
Definition objectPrototype : list string :=
  ["constructor"; "__defineGetter__"; "__defineSetter__"; "hasOwnProperty";
   "__lookupGetter__"; "__lookupSetter__"; "isPrototypeOf"; "propertyIsEnumerable";
   "toString"; "valueOf"; "__proto__"; "toLocaleString"].

Inductive Property :=
  | ownProperty (text : string)
  | inheritedProperty
  | noProperty.

Definition getProperty (resolutions : gmap string string) (p : string) : Property :=
  match resolutions !! p with
  | Some text => ownProperty text
  | None => if decide (p ∈ objectPrototype) then inheritedProperty else noProperty
  end.

(** One turn of the loop over [allPaths]; the accumulator holds
    [newEntries] and [conflicts]. *)
Definition mergeEntry (recurse : option OID -> option OID -> option OID -> M MergeResult.t)
    (baseEntries ourEntries theirEntries : EntryMap) (resolutions : gmap string string)
    (acc : list TreeEntry.t * list string) (p : string)
    : M (list TreeEntry.t * list string) :=
  let '(newEntries, conflicts) := acc in
  let base := mapGet p baseEntries in
  let ours := mapGet p ourEntries in
  let theirs := mapGet p theirEntries in
  let baseSha := TreeEntry.oid <$> base in
  let ourSha := TreeEntry.oid <$> ours in
  let theirSha := TreeEntry.oid <$> theirs in
  let isDir := bool_decide (TreeEntry.type <$> ours = Some tree)
               || bool_decide (TreeEntry.type <$> theirs = Some tree) in
  if isDir then
    result ← recurse baseSha ourSha theirSha;
    let newEntries :=
      match MergeResult.treeSha result with
      | Some t => (newEntries ++ [TreeEntry.mk "040000" p t tree])%list
      | None => newEntries
      end in
    mret (newEntries, (conflicts ++ MergeResult.conflicts result)%list)
  else if decide (ourSha = theirSha) then
    mret ((newEntries ++ option_list ours)%list, conflicts)
  else if decide (ourSha = baseSha /\ theirSha <> baseSha) then
    mret ((newEntries ++ option_list theirs)%list, conflicts)
  else if decide (ourSha <> baseSha /\ theirSha = baseSha) then
    mret ((newEntries ++ option_list ours)%list, conflicts)
  else
    match getProperty resolutions p with
    | ownProperty text =>
        if decide (text = "") then mret (newEntries, (conflicts ++ [p])%list)
        else
          resolvedSha ← writeBlob text;
          mret ((newEntries ++ [TreeEntry.mk "100644" p resolvedSha blob])%list, conflicts)
    | inheritedProperty => throw (GitError "TypeError")
    | noProperty => mret (newEntries, (conflicts ++ [p])%list)
    end.

(** The recursion follows the object graph, so it is bounded by [fuel]. *)
Fixpoint mergeTrees (fuel : nat) (baseTreeSha ourTreeSha theirTreeSha : option OID)
    (resolutions : gmap string string) : M MergeResult.t :=
  match fuel with
  | 0 => throw OutOfFuel
  | S fuel' =>
      baseEntries ← readTreeEntries baseTreeSha;
      ourEntries ← readTreeEntries ourTreeSha;
      theirEntries ← readTreeEntries theirTreeSha;
      let allPaths := newSet (mapKeys baseEntries ++ mapKeys ourEntries
                              ++ mapKeys theirEntries)%list in
      acc ← forEach allPaths
              (mergeEntry (fun b o t => mergeTrees fuel' b o t resolutions)
                 baseEntries ourEntries theirEntries resolutions)
              ([], []);
      let '(newEntries, conflicts) := acc in
      if decide (conflicts <> [] /\ resolutions = ∅) then
        mret (MergeResult.mk None conflicts)
      else if decide (newEntries = []) then
        mret (MergeResult.mk None conflicts)
      else
        treeSha ← writeTree newEntries;
        mret (MergeResult.mk (Some treeSha) conflicts)
  end.

Definition mergeBranches (fuel : nat) (client : Client) (input : MergeBranchesInput.t)
    : M MergeBranchesResult.t :=
  validated ← parse (MergeBranchesInputSchema input) input;
  wrapErrors "mergeBranches" (
    let sourceRef := normalizeRef (MergeBranchesInput.sourceBranch validated) in
    let destRef := normalizeRef (MergeBranchesInput.destinationBranch validated) in
    sourceSha ← resolveRef sourceRef;
    destSha ← resolveRef destRef;
    mergeBases ← (fun s => (Ok (findMergeBase s destSha sourceSha), s));
    match mergeBases with
    | [] => throw (operationFailed "mergeBranches")
    | baseSha :: _ =>
        baseCommit ← readCommit baseSha;
        sourceCommit ← readCommit sourceSha;
        destCommit ← readCommit destSha;
        result ← mergeTrees fuel (Some (Commit.tree baseCommit))
                   (Some (Commit.tree destCommit)) (Some (Commit.tree sourceCommit))
                   (default ∅ (MergeBranchesInput.resolutions validated));
        if decide (MergeResult.conflicts result <> []
                   /\ MergeBranchesInput.resolutions validated = None)
        then throw (mergeConflict (MergeResult.conflicts result))
        else
          match MergeResult.treeSha result with
          | None => throw (operationFailed "mergeBranches")
          | Some mergedTree =>
              let author := buildAuthor client
                  (authorOrClient client (MergeBranchesInput.author validated)) in
              let commitMessage :=
                default ("Merge branch '" ++ MergeBranchesInput.sourceBranch validated
                         ++ "' into '" ++ MergeBranchesInput.destinationBranch validated
                         ++ "'")%string
                        (MergeBranchesInput.commitMessage validated) in
              mergeCommitSha ← writeCommit
                (Commit.mk commitMessage mergedTree [destSha; sourceSha] author author);
              suspended;;
              writeRef destRef mergeCommitSha true;;
              mret (MergeBranchesResult.mk mergeCommitSha mergedTree
                      (match MergeResult.conflicts result with
                       | [] => None
                       | cs => Some cs
                       end))
          end
    end).

(** *** [operations/list-files.ts] *)

(** The comparator handed to [sort]. *)
Definition compareEntries (a b : TreeEntry.t) : Z :=
  if decide (TreeEntry.type a <> TreeEntry.type b) then
    if decide (TreeEntry.type a = tree) then (-1)%Z else 1%Z
  else localeCompare (TreeEntry.path a) (TreeEntry.path b).

Definition listFiles (input : ListFilesInput.t) : M (list TreeEntry.t) :=
  validated ← parse (ListFilesInputSchema input) input;
  let input := validated in
  wrapErrors "listFiles" (
    commitSha ← resolveRef (ListFilesInput.ref input);
    commit ← readCommit commitSha;
    let rootTreeSha := Commit.tree commit in
    targetTreeSha ←
      (if decide (ListFilesInput.folderPath input <> "") then
         target ← resolvePath rootTreeSha (ListFilesInput.folderPath input);
         if decide (Resolved.type target <> tree)
         then throw (invalidPath (ListFilesInput.folderPath input))
         else mret (Resolved.sha target)
       else mret rootTreeSha);
    result ← readTree targetTreeSha;
    mret (sortBy compareEntries (filterTreeEntries result))).

(** *** [operations/remove-directory.ts] *)
Definition removeDirectory (fuel : nat) (client : Client) (input : RemoveDirectoryInput.t)
    : M RemoveDirectoryResult.t :=
  validated ← parse (RemoveDirectoryInputSchema input) input;
  let ref := normalizeRef (RemoveDirectoryInput.ref validated) in
  wrapErrors "removeDirectory" (
    dirPath ← validateDirectoryPath (RemoveDirectoryInput.directoryPath validated);
    parentSha ← resolveRef ref;
    commit ← readCommit parentSha;
    let rootTreeSha := Commit.tree commit in
    target ← resolvePath rootTreeSha dirPath;
    (if decide (Resolved.type target <> tree) then throw (invalidPath dirPath)
     else mret tt);;
    filesRemoved ← countFilesInTree fuel (Resolved.sha target);
    let pathParts := filterBoolean (split "/"%char dirPath) in
    newTreeSha ← removeDirectoryFromTree (Some rootTreeSha) pathParts;
    let author := buildAuthor client
                    (authorOrClient client (RemoveDirectoryInput.author validated)) in
    let commitMessage :=
      default ("Remove directory " ++ dirPath)%string
              (RemoveDirectoryInput.commitMessage validated) in
    finalTreeSha ← match newTreeSha with
                   | Some t => mret t
                   | None => writeTree []
                   end;
    commitSha ← writeCommit (Commit.mk commitMessage finalTreeSha [parentSha] author author);
    suspended;;
    compareAndSwap ref (Some parentSha) commitSha;;
    mret (RemoveDirectoryResult.mk commitSha newTreeSha filesRemoved)).

(** *** [operations/read-file.ts] *)
Definition readFile (input : ReadFileInput.t) : M ReadFileResult.t :=
  validated ← parse (ReadFileInputSchema input) input;
  let ref := default "HEAD" (ReadFileInput.ref validated) in
  let encoding := default auto (ReadFileInput.encoding validated) in
  wrapErrors "readFile" (
    commitSha ← resolveRef ref;
    commit ← readCommit commitSha;
    let rootTreeSha := Commit.tree commit in
    target ← resolvePath rootTreeSha (ReadFileInput.filePath validated);
    (if decide (Resolved.type target <> blob)
     then throw (invalidPath (ReadFileInput.filePath validated))
     else mret tt);;
    blob ← readBlob (Resolved.sha target);
    let content :=
      match encoding with
      | buffer => asBuffer blob
      | utf8 => asString blob
      | auto => if isBinaryBuffer blob then asBuffer blob else asString blob
      end in
    mret (ReadFileResult.mk content (Resolved.mode target) (Resolved.sha target))).

(** *** [operations/get-file-details.ts] *)
Definition getFileDetails (input : GetFileDetailsInput.t) : M GetFileDetailsResult.t :=
  validated ← parse (GetFileDetailsInputSchema input) input;
  let ref := default "HEAD" (GetFileDetailsInput.ref validated) in
  wrapErrors "getFileDetails" (
    commitSha ← resolveRef ref;
    commit ← readCommit commitSha;
    let rootTreeSha := Commit.tree commit in
    target ← resolvePath rootTreeSha (GetFileDetailsInput.filePath validated);
    mret (GetFileDetailsResult.mk (Resolved.mode target) (Resolved.sha target)
            (Resolved.type target))).

(** *** [operations/create-branch.ts] *)
Definition createBranch (input : CreateBranchInput.t) : M CreateBranchResult.t :=
  validated ← parse (CreateBranchInputSchema input) input;
  let force := default false (CreateBranchInput.force validated) in
  wrapErrors "createBranch" (
    let sourceRef :=
      match CreateBranchInput.sourceBranch validated with
      | Some b => if decide (b = "") then "HEAD" else normalizeRef b
      | None => "HEAD"
      end in
    sourceSha ← try_catch (resolveRef sourceRef)
                  (fun _ => throw (notFound "Source branch"));
    let newRef := normalizeRef (CreateBranchInput.branchName validated) in
    try_catch
      (writeRef newRef sourceSha force;;
       mret (CreateBranchResult.mk (CreateBranchInput.branchName validated) sourceSha))
      (fun error =>
         match error with
         | GitError code =>
             if decide (code = "AlreadyExistsError")
             then throw (alreadyExists "Branch" (CreateBranchInput.branchName validated))
             else throw error
         | _ => throw error
         end)).

(** *** [operations/remove-branch.ts] *)
Definition removeBranch (input : RemoveBranchInput.t) : M RemoveBranchResult.t :=
  validated ← parse (RemoveBranchInputSchema input) input;
  wrapErrors "removeBranch" (
    let ref := normalizeRef (RemoveBranchInput.branchName validated) in
    commitSha ← try_catch (resolveRef ref) (fun _ => throw (notFound "Branch"));
    deleteRef ref;;
    mret (RemoveBranchResult.mk (RemoveBranchInput.branchName validated) commitSha)).

End Operations.

(** *** The one-file operations before they became wrappers

    [operations/add-file.ts] and [operations/remove-file.ts] as they
    were written first, each with the whole sequence of its own. *)
Module Standalone.
Section Operations.

Variable concurrent : Store -> Store.

Definition addFile (client : Client) (input : AddFileInput.t) : M AddFileResult.t :=
  validated ← parse (AddFileInputSchema input) input;
  let ref := normalizeRef (AddFileInput.ref validated) in
  wrapErrors "addFile" (
    parentSha ← try_catch (Some <$> resolveRef ref) (fun _ => mret None);
    rootTreeSha ← match parentSha with
                  | Some p => c ← readCommit p; mret (Some (Commit.tree c))
                  | None => mret None
                  end;
    blobSha ← writeBlob (AddFileInput.content validated);
    let pathParts := pathPartsOf (AddFileInput.filePath validated) in
    (if decide (pathParts = []) then throw (invalidPath (AddFileInput.filePath validated))
     else mret tt);;
    newTreeSha ← upsertFileInTree rootTreeSha pathParts blobSha;
    let author := buildAuthor client
                    (authorOrClient client (AddFileInput.author validated)) in
    let commitMessage :=
      default ("Add " ++ AddFileInput.filePath validated)%string
              (AddFileInput.commitMessage validated) in
    commitSha ← writeCommit
      (Commit.mk commitMessage newTreeSha
         (match parentSha with Some p => [p] | None => [] end) author author);
    suspended concurrent;;
    compareAndSwap ref parentSha commitSha;;
    mret (AddFileResult.mk commitSha newTreeSha blobSha)).

Definition removeFile (client : Client) (input : RemoveFileInput.t) : M RemoveFileResult.t :=
  validated ← parse (RemoveFileInputSchema input) input;
  let ref := normalizeRef (RemoveFileInput.ref validated) in
  wrapErrors "removeFile" (
    parentSha ← resolveRef ref;
    commit ← readCommit parentSha;
    let rootTreeSha := Commit.tree commit in
    let pathParts := pathPartsOf (RemoveFileInput.filePath validated) in
    (if decide (pathParts = []) then throw (invalidPath (RemoveFileInput.filePath validated))
     else mret tt);;
    newTreeSha ← removeFileFromTree (Some rootTreeSha) pathParts;
    let author := buildAuthor client
                    (authorOrClient client (RemoveFileInput.author validated)) in
    let commitMessage :=
      default ("Remove " ++ RemoveFileInput.filePath validated)%string
              (RemoveFileInput.commitMessage validated) in
    finalTreeSha ← match newTreeSha with
                   | Some t => mret t
                   | None => writeTree []
                   end;
    commitSha ← writeCommit (Commit.mk commitMessage finalTreeSha [parentSha] author author);
    suspended concurrent;;
    compareAndSwap ref (Some parentSha) commitSha;;
    mret (RemoveFileResult.mk commitSha newTreeSha)).

End Operations.
End Standalone.

(** ** Predicates of the specification *)

(** [grows s s']: [s'] holds every object of [s] under the same OID, and
    the same references. *)
Definition grows (s s' : Store) : Prop :=
  objects s `prefix_of` objects s' /\ refs s' = refs s.

(** The store after [ref] has been pointed at [value]. *)
Definition setRef (ref : string) (value : OID) (s : Store) : Store :=
  {| objects := objects s; refs := <[ref := value]> (refs s) |}.

(** A path the tree engine can write to: the part list is not empty, the
    trees on the way are stored, and a part before the last one is either
    missing from its tree or a directory. *)
Fixpoint validPath (s : Store) (root : option OID) (parts : list string) : bool :=
  match parts with
  | [] => false
  | x :: rest =>
      match root with
      | None => true
      | Some r =>
          match readObject r s with
          | Some (TreeObject raw) =>
              match rest with
              | [] => true
              | _ :: _ =>
                  match findEntry x raw with
                  | None => true
                  | Some e =>
                      bool_decide (TreeEntry.type e = tree)
                      && validPath s (Some (TreeEntry.oid e)) rest
                  end
              end
          | _ => false
          end
      end
  end.

(** [adds P s s']: [s'] is [s] with more objects, each of them in [P], and
    the same references. *)
Definition adds (P : GitObject -> Prop) (s s' : Store) : Prop :=
  refs s' = refs s /\ exists l, objects s' = objects s ++ l /\ Forall P l.

(** A program whose every run, failed or not, relates the store it
    started from to the store it leaves behind. *)
Definition respects (R : relation Store) {A} (m : M A) : Prop :=
  forall s r s', m s = (r, s') -> R s s'.

(** A program that only adds objects to the store. *)
Definition growing {A} (m : M A) : Prop := respects grows m.

(** The invariant of the data model on stored trees: the names of the
    entries of one tree are pairwise different. *)
Definition uniqueNames (s : Store) : bool :=
  forallb (fun o => match o with
                    | TreeObject es => bool_decide (NoDup (TreeEntry.path <$> es))
                    | _ => true
                    end) (objects s).


(** The tree at [root] holds nothing but the path: every entry of it
    bears the first part of the path, and when the path goes on, the
    directory of this name holds nothing but the rest of the path.
    (Submodule entries do not count: the engine does not see them.) *)
Fixpoint holdsOnly (s : Store) (root : OID) (parts : list string) : bool :=
  match parts with
  | [] => false
  | x :: rest =>
      match readObject root s with
      | Some (TreeObject raw) =>
          forallb (fun e => bool_decide (TreeEntry.type e = commit \/ TreeEntry.path e = x)) raw
          && match rest with
             | [] => true
             | _ :: _ =>
                 match head (filter (fun e => TreeEntry.type e <> commit
                                              /\ TreeEntry.path e = x) raw) with
                 | Some ex => holdsOnly s (TreeEntry.oid ex) rest
                 | None => false
                 end
             end
      | _ => false
      end
  end.

(** The same in the terms of the engine, for the proofs: what its filter
    leaves of a tree on the way is empty. *)
Fixpoint soleChain (s : Store) (root : OID) (parts : list string) : bool :=
  match parts with
  | [] => false
  | x :: rest =>
      match readObject root s with
      | Some (TreeObject raw) =>
          bool_decide (dropEntry x (filterTreeEntries raw) = [])
          && match rest with
             | [] => true
             | _ :: _ =>
                 match findEntry x (filterTreeEntries raw) with
                 | Some ex => soleChain s (TreeEntry.oid ex) rest
                 | None => false
                 end
             end
      | _ => false
      end
  end.

(** The objects [removeFileFromTree] may add: anything but the empty tree. *)
Definition notEmptyTree (o : GitObject) : Prop := o <> TreeObject [].

(** A program whose failures all lie in [E]. *)
Definition throwsOnly (E : Error -> Prop) {A} (m : M A) : Prop :=
  forall s e s', m s = (Err e, s') -> E e.

(** The failures of the library: none of them is an error of the client. *)
Definition libraryError (e : Error) : Prop := exists code, e = GitError code.


(** The order of a listing: a directory stands before a file, and two
    entries of one kind stand in the order of [localeCompare]. *)
Definition listedBefore (localeCompare : string -> string -> Z) (a b : TreeEntry.t) : Prop :=
  (TreeEntry.type a = tree /\ TreeEntry.type b = blob)
  \/ (TreeEntry.type a = TreeEntry.type b
      /\ (localeCompare (TreeEntry.path a) (TreeEntry.path b) <= 0)%Z).

(** The lexicographic order of two strings by their code units, as a
    comparator. *)
Definition codeUnitCompare (a b : string) : Z :=
  match String.compare a b with
  | Lt => (-1)%Z
  | Eq => 0%Z
  | Gt => 1%Z
  end.

(** A model of [localeCompare] for the examples: the collation a host
    uses when the locale does not tailor it (the root collation of the
    Unicode CLDR), on names of printable ASCII characters.  Names are
    compared by the primary weights of their characters first: the space,
    then the punctuation and the symbols in the order of [collationOrder],
    then the digits, then the letters, a capital letter with the weight of
    the small one.  Names that are the same so far are compared by case, the
    small letter first.  Control characters are ignored. *)
Definition collationOrder : list ascii :=
  String.list_ascii_of_string " _-,;:!?.'" ++ ["034"%char]
  ++ String.list_ascii_of_string
       "()[]{}@*/\&#%`^+<=>|~$0123456789abcdefghijklmnopqrstuvwxyz".

Definition isUpperCase (c : ascii) : bool :=
  let n := nat_of_ascii c in Nat.leb 65 n && Nat.leb n 90.

Definition toLowerCase (c : ascii) : ascii :=
  if isUpperCase c then ascii_of_nat (nat_of_ascii c + 32) else c.

Definition primaryWeight (c : ascii) : option ascii :=
  match list_find (fun x => x = toLowerCase c) collationOrder with
  | Some (i, _) => Some (ascii_of_nat (S i))
  | None =>
      let n := nat_of_ascii c in
      if Nat.ltb n 32 || Nat.eqb n 127 then None else Some c
  end.

Definition caseWeight (c : ascii) : ascii :=
  if isUpperCase c then "002"%char else "001"%char.

(** The sort key of a name: its primary weights, a separator below every
    weight, and its case weights. *)
Definition sortKey (name : string) : string :=
  let cs := String.list_ascii_of_string name in
  String.string_of_list_ascii
    (omap primaryWeight cs ++ ["000"%char] ++ (caseWeight <$> cs)).

Definition rootCollation (a b : string) : Z :=
  codeUnitCompare (sortKey a) (sortKey b).

(** The objects the merge engine may add: blobs and trees, no commit. *)
Definition notCommit (o : GitObject) : Prop :=
  match o with CommitObject _ => False | _ => True end.

(** The entries of a tree that may be absent. *)
Definition entriesOf (s : Store) (t : option OID) : option (list TreeEntry.t) :=
  match t with
  | None => Some []
  | Some id =>
      match readObject id s with
      | Some (TreeObject es) => Some es
      | _ => None
      end
  end.

(** [fastForwardable d s base theirs]: the snapshots [base] and [theirs]
    are well formed down to depth [d] and a merge of [theirs] into a side
    that still equals [base] has nothing to decide.  Both trees are stored,
    have unique names and no submodule entry; the tree of [theirs] is in
    name order and, unless [theirs] is absent, not empty; a directory of
    [theirs] has the directory mode and, where [base] has the name too, it
    is a directory there, and the two are fast-forwardable in turn; a file
    of [theirs] is a file in [base] where [base] has the name, with the same
    mode when it has the same content; a directory that only [base] has is
    fast-forwardable to the absent tree. *)
Fixpoint fastForwardable (d : nat) (s : Store) (base theirs : option OID) : bool :=
  match d with
  | 0 => false
  | S d' =>
      match entriesOf s base, entriesOf s theirs with
      | Some bes, Some tes =>
          bool_decide (NoDup (TreeEntry.path <$> bes))
          && bool_decide (NoDup (TreeEntry.path <$> tes))
          && bool_decide (sortEntries tes = tes)
          && bool_decide (theirs = None \/ tes <> [])
          && forallb (fun e => bool_decide (TreeEntry.type e <> commit)) (bes ++ tes)
          && forallb (fun te =>
               match TreeEntry.type te with
               | tree =>
                   bool_decide (TreeEntry.mode te = "040000")
                   && match findEntry (TreeEntry.path te) bes with
                      | None => fastForwardable d' s None (Some (TreeEntry.oid te))
                      | Some be =>
                          bool_decide (TreeEntry.type be = tree)
                          && fastForwardable d' s (Some (TreeEntry.oid be))
                               (Some (TreeEntry.oid te))
                      end
               | _ =>
                   match findEntry (TreeEntry.path te) bes with
                   | None => true
                   | Some be =>
                       bool_decide (TreeEntry.type be = blob)
                       && bool_decide (TreeEntry.oid be = TreeEntry.oid te -> be = te)
                   end
               end) tes
          && forallb (fun be =>
               match findEntry (TreeEntry.path be) tes with
               | Some _ => true
               | None =>
                   match TreeEntry.type be with
                   | tree => fastForwardable d' s (Some (TreeEntry.oid be)) None
                   | _ => true
                   end
               end) bes
      | _, _ => false
      end
  end.

(** [a] stands before [b] in a stored tree. *)
Definition nameLe (a b : TreeEntry.t) : Prop :=
  String.leb (TreeEntry.path a) (TreeEntry.path b) = true.

(** The entries of [theirs] under the names [ps], in the order of [ps]. *)
Fixpoint takeTheirs (tes : list TreeEntry.t) (ps : list string) : list TreeEntry.t :=
  match ps with
  | [] => []
  | p :: ps' => option_list (findEntry p tes) ++ takeTheirs tes ps'
  end.

(** A name an entry of a tree can have: not empty, and without a slash. *)
Definition properName (part : string) : Prop :=
  part <> "" /\ "/"%char ∉ String.list_ascii_of_string part.

(** The error [removeDirectoryFromTree] throws where [removeFileFromTree]
    throws [e]: the missing resource is called a directory, not a file. *)
Definition asDirectoryError (e : Error) : Error :=
  match e with
  | BareGitClientError NOT_FOUND (ctx_resource resource) =>
      if decide (resource = "File") then notFound "Directory" else e
  | _ => e
  end.

(** The sum of the counts [f] gives the members of [l], when it gives
    one for each. *)
Fixpoint totalOf {A} (f : A -> option nat) (l : list A) : option nat :=
  match l with
  | [] => Some 0
  | x :: l' =>
      match f x, totalOf f l' with
      | Some k, Some n => Some (k + n)
      | _, _ => None
      end
  end.

(** What an entry adds to the number of files of its tree: a file is
    one, a directory is what [count] says of its tree. *)
Definition entryCount (count : OID -> option nat) (e : TreeEntry.t) : option nat :=
  match TreeEntry.type e with
  | blob => Some 1
  | tree => count (TreeEntry.oid e)
  | commit => Some 0
  end.

(** The number of files under the tree [t] of the store [s], for a tree
    that is stored whole and less than [d] levels deep. *)
Fixpoint fileCount (d : nat) (s : Store) (t : OID) : option nat :=
  match d with
  | 0 => None
  | S d' =>
      match readObject t s with
      | Some (TreeObject raw) => totalOf (entryCount (fileCount d' s)) (filterTreeEntries raw)
      | _ => None
      end
  end.

(** The number of files under what a path resolved to. *)
Definition resolvedCount (d : nat) (s : Store) (e : Resolved.t) : option nat :=
  match Resolved.type e with
  | blob => Some 1
  | tree => fileCount d s (Resolved.sha e)
  | commit => Some 0
  end.

(** An error of the client with one of the [codes]. *)
Definition hasCodeIn (codes : list ErrorCode) (e : Error) : Prop :=
  exists code ctx, e = BareGitClientError code ctx /\ code ∈ codes.

(** What an operation may fail with: the error of the schema, or an
    error of the client with one of the [codes]. *)
Definition failsWith (codes : list ErrorCode) (e : Error) : Prop :=
  e = ZodError \/ hasCodeIn codes e.

(** A program that, when it fails, has done no more than add objects:
    every reference is where it was. *)
Definition failsGrowing {A} (m : M A) : Prop :=
  forall s e s', m s = (Err e, s') -> grows s s'.

(** The error an operation of the name [to] throws where the operation
    of the name [from], which runs the same steps, throws [e]: a failure of
    the library is reported under the name of the operation that caught it. *)
Definition renameOperation (from to : string) (e : Error) : Error :=
  match e with
  | BareGitClientError OPERATION_FAILED (ctx_operation operation) =>
      if decide (operation = from) then operationFailed to else e
  | _ => e
  end.

(** *** The conflicts of a three-way merge

    What follows tells, from the three snapshots alone, on which names
    the two sides are in conflict. *)

(** Both sides changed what the base has under a name, and not to the
    same content. *)
Definition inConflict (base ours theirs : option TreeEntry.t) : Prop :=
  TreeEntry.oid <$> ours <> TreeEntry.oid <$> base
  /\ TreeEntry.oid <$> theirs <> TreeEntry.oid <$> base
  /\ TreeEntry.oid <$> ours <> TreeEntry.oid <$> theirs.

Definition isDirectory (e : option TreeEntry.t) : bool :=
  bool_decide (TreeEntry.type <$> e = Some tree).

(** The conflicts under the name [p] of three directories: those of the
    three subdirectories where a side has a directory there, for which
    [sub] stands, and else the name itself if it is in conflict. *)
Definition conflictsAt (sub : option OID -> option OID -> option OID -> list string)
    (bes oes tes : list TreeEntry.t) (p : string) : list string :=
  let base := findEntry p bes in
  let ours := findEntry p oes in
  let theirs := findEntry p tes in
  if isDirectory ours || isDirectory theirs then
    sub (TreeEntry.oid <$> base) (TreeEntry.oid <$> ours) (TreeEntry.oid <$> theirs)
  else if decide (inConflict base ours theirs) then [p]
  else [].

(** The names in conflict anywhere in the three snapshots, down to depth
    [d]: each is the name of the entry in its own directory, not a path
    from the root. *)
Fixpoint conflictNames (d : nat) (s : Store) (base ours theirs : option OID)
    : list string :=
  match d with
  | 0 => []
  | S d' =>
      let bes := default [] (entriesOf s base) in
      let oes := default [] (entriesOf s ours) in
      let tes := default [] (entriesOf s theirs) in
      remove_dups (TreeEntry.path <$> (bes ++ oes ++ tes)%list)
        ≫= conflictsAt (conflictNames d' s) bes oes tes
  end.

(** What [mergeable] asks under the name [p]: where a side has a directory
    there, the three subtrees are mergeable in turn, for which [sub]
    stands; and a name in conflict is none of the members of
    [Object.prototype]. *)
Definition mergeableAt (sub : option OID -> option OID -> option OID -> bool)
    (bes oes tes : list TreeEntry.t) (p : string) : bool :=
  let base := findEntry p bes in
  let ours := findEntry p oes in
  let theirs := findEntry p tes in
  if isDirectory ours || isDirectory theirs then
    sub (TreeEntry.oid <$> base) (TreeEntry.oid <$> ours) (TreeEntry.oid <$> theirs)
  else bool_decide (inConflict base ours theirs -> p ∉ objectPrototype).

(** [mergeable d s base ours theirs]: the three snapshots are well formed
    down to depth [d].  Each tree is stored, with unique names and no
    submodule entry; where a side has a directory under a name, what the
    other two have under that name is a stored tree or nothing, and the
    three are mergeable in turn; and no name in conflict is a member of
    [Object.prototype]. *)
Fixpoint mergeable (d : nat) (s : Store) (base ours theirs : option OID) : bool :=
  match d with
  | 0 => false
  | S d' =>
      match entriesOf s base, entriesOf s ours, entriesOf s theirs with
      | Some bes, Some oes, Some tes =>
          bool_decide (NoDup (TreeEntry.path <$> bes))
          && bool_decide (NoDup (TreeEntry.path <$> oes))
          && bool_decide (NoDup (TreeEntry.path <$> tes))
          && forallb (fun e => bool_decide (TreeEntry.type e <> commit))
               (bes ++ oes ++ tes)
          && forallb (mergeableAt (mergeable d' s) bes oes tes)
               (TreeEntry.path <$> (bes ++ oes ++ tes)%list)
      | _, _, _ => false
      end
  end.

(** ** Example repositories *)

Definition exampleClient : Client :=
  {| repoPath := "/srv/notes.git"; userName := "Ada"; userEmail := "ada@example.org";
     now := 1700000000%Z |}.

Definition ada : BuiltAuthor :=
  {| b_name := "Ada"; b_email := "ada@example.org";
     b_timestamp := 1700000000%Z; b_timezoneOffset := 0%Z |}.

Definition emptyStore : Store := {| objects := []; refs := ∅ |}.

(** [README.md] and [src/a.txt] on [main]. *)
Definition smallRepo : Store :=
  {| objects :=
       [ BlobObject "hello";
         BlobObject "x";
         TreeObject [TreeEntry.mk "100644" "a.txt" 1 blob];
         TreeObject [TreeEntry.mk "100644" "README.md" 0 blob;
                     TreeEntry.mk "040000" "src" 2 tree];
         CommitObject (Commit.mk "Initial commit" 3 [] ada ada) ];
     refs := {[ "refs/heads/main" := 4 ]} |}.

(** A directory whose names differ in case and in punctuation, stored
    in the order of their bytes as a tree is. *)
Definition namesRepo : Store :=
  {| objects :=
       [ BlobObject "text";
         TreeObject [TreeEntry.mk "100644" "c.txt" 0 blob];
         TreeObject [TreeEntry.mk "100644" "B.txt" 0 blob;
                     TreeEntry.mk "040000" "Src" 1 tree;
                     TreeEntry.mk "100644" "a-b" 0 blob;
                     TreeEntry.mk "100644" "a.txt" 0 blob;
                     TreeEntry.mk "100644" "a_b" 0 blob;
                     TreeEntry.mk "040000" "lib" 1 tree];
         CommitObject (Commit.mk "Initial commit" 2 [] ada ada) ];
     refs := {[ "refs/heads/main" := 3 ]} |}.

(** [main] and [feature] both changed [f.txt] of their common parent. *)
Definition conflictRepo : Store :=
  {| objects :=
       [ BlobObject "base"; BlobObject "ours"; BlobObject "theirs";
         TreeObject [TreeEntry.mk "100644" "f.txt" 0 blob];
         TreeObject [TreeEntry.mk "100644" "f.txt" 1 blob];
         TreeObject [TreeEntry.mk "100644" "f.txt" 2 blob];
         CommitObject (Commit.mk "base" 3 [] ada ada);
         CommitObject (Commit.mk "ours" 4 [6] ada ada);
         CommitObject (Commit.mk "theirs" 5 [6] ada ada) ];
     refs := {[ "refs/heads/main" := 7; "refs/heads/feature" := 8 ]} |}.

(** [main] and [feature] both changed [f.txt] and [src/a.txt] of their
    common parent, each in its own way; [src/b.txt] is as it was. *)
Definition nestedConflictRepo : Store :=
  {| objects :=
       [ BlobObject "base f"; BlobObject "our f"; BlobObject "their f";
         BlobObject "base a"; BlobObject "our a"; BlobObject "their a";
         BlobObject "b";
         TreeObject [TreeEntry.mk "100644" "a.txt" 3 blob;
                     TreeEntry.mk "100644" "b.txt" 6 blob];
         TreeObject [TreeEntry.mk "100644" "a.txt" 4 blob;
                     TreeEntry.mk "100644" "b.txt" 6 blob];
         TreeObject [TreeEntry.mk "100644" "a.txt" 5 blob;
                     TreeEntry.mk "100644" "b.txt" 6 blob];
         TreeObject [TreeEntry.mk "100644" "f.txt" 0 blob;
                     TreeEntry.mk "040000" "src" 7 tree];
         TreeObject [TreeEntry.mk "100644" "f.txt" 1 blob;
                     TreeEntry.mk "040000" "src" 8 tree];
         TreeObject [TreeEntry.mk "100644" "f.txt" 2 blob;
                     TreeEntry.mk "040000" "src" 9 tree];
         CommitObject (Commit.mk "base" 10 [] ada ada);
         CommitObject (Commit.mk "ours" 11 [13] ada ada);
         CommitObject (Commit.mk "theirs" 12 [13] ada ada) ];
     refs := {[ "refs/heads/main" := 14; "refs/heads/feature" := 15 ]} |}.

(** As [conflictRepo], the file being named [constructor]. *)
Definition prototypeRepo : Store :=
  {| objects :=
       [ BlobObject "base"; BlobObject "ours"; BlobObject "theirs";
         TreeObject [TreeEntry.mk "100644" "constructor" 0 blob];
         TreeObject [TreeEntry.mk "100644" "constructor" 1 blob];
         TreeObject [TreeEntry.mk "100644" "constructor" 2 blob];
         CommitObject (Commit.mk "base" 3 [] ada ada);
         CommitObject (Commit.mk "ours" 4 [6] ada ada);
         CommitObject (Commit.mk "theirs" 5 [6] ada ada) ];
     refs := {[ "refs/heads/main" := 7; "refs/heads/feature" := 8 ]} |}.

(** [main] added [g.txt], [feature] added [h.txt]; another writer has
    stored a commit on top of [main] (object 11) and is about to point
    [main] at it. *)
Definition busyRepo : Store :=
  {| objects :=
       [ BlobObject "f"; BlobObject "g"; BlobObject "h";
         TreeObject [TreeEntry.mk "100644" "f.txt" 0 blob];
         TreeObject [TreeEntry.mk "100644" "f.txt" 0 blob;
                     TreeEntry.mk "100644" "g.txt" 1 blob];
         TreeObject [TreeEntry.mk "100644" "f.txt" 0 blob;
                     TreeEntry.mk "100644" "h.txt" 2 blob];
         CommitObject (Commit.mk "base" 3 [] ada ada);
         CommitObject (Commit.mk "add g" 4 [6] ada ada);
         CommitObject (Commit.mk "add h" 5 [6] ada ada);
         BlobObject "k";
         TreeObject [TreeEntry.mk "100644" "f.txt" 0 blob;
                     TreeEntry.mk "100644" "g.txt" 1 blob;
                     TreeEntry.mk "100644" "k.txt" 9 blob];
         CommitObject (Commit.mk "add k" 10 [7] ada ada) ];
     refs := {[ "refs/heads/main" := 7; "refs/heads/feature" := 8 ]} |}.

(** The other writer of [busyRepo]: it moves [main] to its commit. *)
Definition otherWriter : Store -> Store := setRef "refs/heads/main" 11.

(** Object 3 is the tree of the base and of our side; object 6, the tree
    of their side, changed [f.txt], added [n.txt] and added [d/y.txt]. *)
Definition forwardRepo : Store :=
  {| objects :=
       [ BlobObject "one"; BlobObject "two"; BlobObject "x";
         TreeObject [TreeEntry.mk "040000" "d" 4 tree;
                     TreeEntry.mk "100644" "f.txt" 0 blob];
         TreeObject [TreeEntry.mk "100644" "x.txt" 2 blob];
         TreeObject [TreeEntry.mk "100644" "x.txt" 2 blob;
                     TreeEntry.mk "100644" "y.txt" 1 blob];
         TreeObject [TreeEntry.mk "040000" "d" 5 tree;
                     TreeEntry.mk "100644" "f.txt" 1 blob;
                     TreeEntry.mk "100644" "n.txt" 2 blob] ];
     refs := ∅ |}.

(** Object 1 is the tree of the base and of our side; their side removed
    the only file, its tree is the empty tree, object 2. *)
Definition emptiedRepo : Store :=
  {| objects :=
       [ BlobObject "a";
         TreeObject [TreeEntry.mk "100644" "a.txt" 0 blob];
         TreeObject [] ];
     refs := ∅ |}.

(** A merge-base search for the examples: the first ancestor of [a], in
    the order parents are listed, that is an ancestor of [b] too. *)
Fixpoint ancestors (fuel : nat) (s : Store) (id : OID) : list OID :=
  match fuel with
  | 0 => []
  | S fuel' =>
      id :: match readObject id s with
            | Some (CommitObject c) => flat_map (ancestors fuel' s) (Commit.parent c)
            | _ => []
            end
  end.

Definition firstCommonAncestor (s : Store) (a b : OID) : list OID :=
  let n := length (objects s) in
  match filter (fun x => x ∈ ancestors n s b) (ancestors n s a) with
  | x :: _ => [x]
  | [] => []
  end.

(** * Properties *)

(** ** Running a program of the monad *)

Lemma bind_unfold {A B} (m : M A) (f : A -> M B) s :
  (m ≫= f) s = match m s with
               | (Ok a, s') => f a s'
               | (Err e, s') => (Err e, s')
               end.
Proof. reflexivity. Qed.

Lemma bind_Ok {A B} (m : M A) (f : A -> M B) s a s' :
  m s = (Ok a, s') -> (m ≫= f) s = f a s'.
Proof. intros H. rewrite bind_unfold, H. reflexivity. Qed.

Lemma bind_Err {A B} (m : M A) (f : A -> M B) s e s' :
  m s = (Err e, s') -> (m ≫= f) s = (Err e, s').
Proof. intros H. rewrite bind_unfold, H. reflexivity. Qed.

Lemma bind_mret {A B} (a : A) (f : A -> M B) s : (mret a ≫= f) s = f a s.
Proof. reflexivity. Qed.

Lemma bind_assoc {A B C} (m : M A) (f : A -> M B) (g : B -> M C) s :
  ((m ≫= f) ≫= g) s = (m ≫= fun a => f a ≫= g) s.
Proof. rewrite !bind_unfold. by destruct (m s) as [[a|e] s1]. Qed.

(** Re-associate the binds and run the leading [mret]s. *)
Ltac mnorm := repeat (rewrite bind_assoc || rewrite bind_mret).

Lemma bind_inv_Ok {A B} (m : M A) (f : A -> M B) s b s2 :
  (m ≫= f) s = (Ok b, s2) ->
  exists a s1, m s = (Ok a, s1) /\ f a s1 = (Ok b, s2).
Proof.
  rewrite bind_unfold. destruct (m s) as [[a|e] s1]; [eauto | discriminate].
Qed.

Lemma fmap_unfold {A B} (g : A -> B) (m : M A) s :
  (g <$> m) s = match m s with
                | (Ok a, s') => (Ok (g a), s')
                | (Err e, s') => (Err e, s')
                end.
Proof. reflexivity. Qed.

Lemma mret_unfold {A} (a : A) s : (mret a : M A) s = (Ok a, s).
Proof. reflexivity. Qed.

(** ** The store only grows *)

#[global] Instance grows_refl : Reflexive grows.
Proof. intros s. split; reflexivity. Qed.

#[global] Instance grows_trans : Transitive grows.
Proof. intros s1 s2 s3 [H1 R1] [H2 R2]. split; [by etrans | congruence]. Qed.

Lemma grows_readObject s s' id o :
  grows s s' -> readObject id s = Some o -> readObject id s' = Some o.
Proof.
  intros [Hp _] H. unfold readObject in *. by eapply prefix_lookup_Some.
Qed.

Lemma writeObject_spec o s :
  exists id s', writeObject o s = (Ok id, s') /\ grows s s'
                /\ readObject id s' = Some o.
Proof.
  unfold writeObject, readObject.
  destruct (list_find _ (objects s)) as [[i x]|] eqn:E.
  - apply list_find_Some in E as (Hi & -> & _).
    exists i, s. split_and!; [done | reflexivity | done].
  - eexists _, _. split_and!; [done | | ].
    + split; [by apply prefix_app_r | done].
    + simpl. rewrite lookup_app_r by lia. by rewrite Nat.sub_diag.
Qed.

(** An object that is stored is found again: the store is not touched. *)
Lemma writeObject_present o s id :
  NoDup (objects s) -> readObject id s = Some o -> writeObject o s = (Ok id, s).
Proof.
  intros Hnd Hid. unfold writeObject, readObject in *.
  destruct (list_find _ (objects s)) as [[i x]|] eqn:E.
  - apply list_find_Some in E as (Hi & -> & _).
    by rewrite (NoDup_lookup _ _ _ _ Hnd Hi Hid).
  - apply list_find_None in E. rewrite Forall_forall in E.
    exfalso. eapply E; [by eapply list_elem_of_lookup_2 | done].
Qed.

Lemma readTree_Ok id s es s' :
  readTree id s = (Ok es, s') <-> readObject id s = Some (TreeObject es) /\ s' = s.
Proof.
  unfold readTree. destruct (readObject id s) as [[]|]; split;
    try (intros [= <- <-]; done); try (intros [[=] _]; done).
  intros [[= <-] ->]. done.
Qed.

Lemma readTree_object id s es :
  readObject id s = Some (TreeObject es) -> readTree id s = (Ok es, s).
Proof. intros H. by apply readTree_Ok. Qed.

Lemma readTree_state id s r s' : readTree id s = (r, s') -> s' = s.
Proof. unfold readTree. destruct (readObject id s) as [[]|]; congruence. Qed.

Lemma writeTree_spec entries s :
  exists id s', writeTree entries s = (Ok id, s') /\ grows s s'
                /\ readObject id s' = Some (TreeObject (sortEntries entries)).
Proof. apply writeObject_spec. Qed.

(** ** The concurrency controller *)

Lemma writeRef_force ref value s : writeRef ref value true s = (Ok tt, setRef ref value s).
Proof. unfold writeRef, setRef. by destruct (refs s !! ref). Qed.

Lemma compareAndSwap_eval ref expectedSha newSha s :
  compareAndSwap ref expectedSha newSha s =
    if decide (refs s !! ref = expectedSha)
    then (Ok tt, setRef ref newSha s)
    else (Err (concurrencyError ref), s).
Proof.
  unfold compareAndSwap, wrapErrors, try_catch.
  rewrite !bind_unfold, fmap_unfold. unfold resolveRef.
  destruct (refs s !! ref) as [cur|] eqn:E; simpl.
  - destruct (decide (Some cur <> expectedSha)), (decide (Some cur = expectedSha));
      try done; simpl.
    rewrite bind_unfold. simpl. by rewrite writeRef_force.
  - destruct (decide (None <> expectedSha)), (decide (None = expectedSha));
      try done; simpl.
    rewrite bind_unfold. simpl. by rewrite writeRef_force.
Qed.

(** C2: [compareAndSwap ref expectedSha newSha] fails with the concurrency
    error exactly when the current OID of the reference (absent read as
    null) differs from [expectedSha], and then the store, the reference
    included, is as before; when they are equal the call succeeds and the
    reference holds [newSha]. *)
Theorem compareAndSwap_spec ref expectedSha newSha s :
  ((compareAndSwap ref expectedSha newSha s).1 = Err (concurrencyError ref)
     <-> refs s !! ref <> expectedSha)
  /\ (refs s !! ref <> expectedSha ->
        compareAndSwap ref expectedSha newSha s = (Err (concurrencyError ref), s))
  /\ (refs s !! ref = expectedSha ->
        exists s', compareAndSwap ref expectedSha newSha s = (Ok tt, s')
                   /\ refs s' !! ref = Some newSha
                   /\ (forall r, r <> ref -> refs s' !! r = refs s !! r)
                   /\ objects s' = objects s).
Proof.
  rewrite compareAndSwap_eval. split_and!.
  - case_decide; simpl; split; intros; try done.
  - intros. by rewrite decide_False.
  - intros. rewrite decide_True by done. eexists. split_and!; try done.
    + simpl. apply lookup_insert_eq.
    + intros r Hr. simpl. by apply lookup_insert_ne.
Qed.

(** ** Name order of a tree *)

Lemma leb_refl (a : string) : String.leb a a = true.
Proof.
  unfold String.leb. pose proof (String.compare_antisym a a) as H.
  destruct (String.compare a a); done.
Qed.

Lemma filter_path_insertEntry p e l :
  filter (fun x => TreeEntry.path x = p) (insertEntry e l) =
  filter (fun x => TreeEntry.path x = p) (e :: l).
Proof.
  induction l as [|x l IH]; [done|]. simpl.
  destruct (String.leb (TreeEntry.path e) (TreeEntry.path x)) eqn:Hle; [done|].
  assert (TreeEntry.path e <> TreeEntry.path x) as Hne.
  { intros Heq. rewrite Heq, leb_refl in Hle. done. }
  rewrite (filter_cons _ x), IH, !filter_cons.
  repeat case_decide; congruence.
Qed.

(** The sort is stable: the entries of one name keep their order. *)
Lemma filter_path_sortEntries p l :
  filter (fun x => TreeEntry.path x = p) (sortEntries l) =
  filter (fun x => TreeEntry.path x = p) l.
Proof.
  induction l as [|x l IH]; [done|]. simpl.
  rewrite filter_path_insertEntry, !filter_cons, IH. done.
Qed.

Lemma insertEntry_Permutation e l : insertEntry e l ≡ₚ e :: l.
Proof.
  induction l as [|x l IH]; [done|]. simpl.
  destruct (String.leb _ _); [done|]. rewrite IH. apply Permutation_swap.
Qed.

Lemma sortEntries_Permutation l : sortEntries l ≡ₚ l.
Proof.
  induction l as [|x l IH]; [done|]. simpl.
  by rewrite insertEntry_Permutation, IH.
Qed.

Lemma filter_comm {A} (P Q : A -> Prop) `{!forall x, Decision (P x)}
    `{!forall x, Decision (Q x)} (l : list A) :
  filter P (filter Q l) = filter Q (filter P l).
Proof.
  induction l as [|x l IH]; [done|].
  rewrite !(filter_cons _ x). repeat case_decide; rewrite ?filter_cons;
    repeat case_decide; try done; by rewrite IH.
Qed.

Lemma findEntry_filterTreeEntries p l :
  findEntry p (filterTreeEntries l) =
  head (filterTreeEntries (filter (fun x => TreeEntry.path x = p) l)).
Proof. unfold findEntry, filterTreeEntries. by rewrite filter_comm. Qed.

(** What the code finds under a name in a tree it reads back is what it
    found in the list it wrote. *)
Lemma findEntry_sorted p l :
  findEntry p (filterTreeEntries (sortEntries l)) = findEntry p (filterTreeEntries l).
Proof. by rewrite !findEntry_filterTreeEntries, filter_path_sortEntries. Qed.

Lemma filterTreeEntries_app l1 l2 :
  filterTreeEntries (l1 ++ l2) = filterTreeEntries l1 ++ filterTreeEntries l2.
Proof. apply filter_app. Qed.

Lemma filterTreeEntries_idemp l :
  filterTreeEntries (filterTreeEntries l) = filterTreeEntries l.
Proof.
  unfold filterTreeEntries. rewrite list_filter_filter.
  apply list_filter_iff. intros; tauto.
Qed.

Lemma filter_path_dropEntry_eq p l :
  filter (fun x => TreeEntry.path x = p) (dropEntry p l) = [].
Proof.
  unfold dropEntry. rewrite list_filter_filter.
  induction l as [|x l IH]; [done|]. rewrite filter_cons.
  case_decide; [tauto | done].
Qed.

Lemma filter_path_dropEntry_ne p q l :
  p <> q ->
  filter (fun x => TreeEntry.path x = q) (dropEntry p l) =
  filter (fun x => TreeEntry.path x = q) l.
Proof.
  intros Hne. unfold dropEntry. rewrite list_filter_filter.
  apply list_filter_iff. by intuition congruence.
Qed.

(** The entry written under [p] is the one found under [p]. *)
Lemma findEntry_written p l e :
  TreeEntry.path e = p -> TreeEntry.type e <> commit ->
  findEntry p (filterTreeEntries (sortEntries (dropEntry p l ++ [e]))) = Some e.
Proof.
  intros Hp Ht. rewrite findEntry_sorted, findEntry_filterTreeEntries.
  rewrite filter_app, filter_path_dropEntry_eq. simpl.
  rewrite filter_cons, decide_True by done. simpl.
  unfold filterTreeEntries. rewrite filter_cons, decide_True by done. done.
Qed.

(** The entries of the other names are found as before. *)
Lemma findEntry_other p q l e :
  TreeEntry.path e = p -> p <> q ->
  findEntry q (filterTreeEntries (sortEntries (dropEntry p (filterTreeEntries l) ++ [e]))) =
  findEntry q (filterTreeEntries l).
Proof.
  intros Hp Hne. rewrite findEntry_sorted, !findEntry_filterTreeEntries.
  rewrite filter_app, filter_path_dropEntry_ne by done. simpl.
  rewrite filter_cons, decide_False by congruence. simpl. rewrite app_nil_r.
  rewrite <- !findEntry_filterTreeEntries. by rewrite filterTreeEntries_idemp.
Qed.

(** ** Programs that only add objects *)

#[global] Instance adds_refl P : Reflexive (adds P).
Proof. intros s. split; [done|]. exists []. by rewrite app_nil_r. Qed.

#[global] Instance adds_trans P : Transitive (adds P).
Proof.
  intros s1 s2 s3 [R1 (l1 & E1 & F1)] [R2 (l2 & E2 & F2)]. split; [congruence|].
  exists (l1 ++ l2). rewrite E2, E1, <- app_assoc. split; [done | by apply Forall_app].
Qed.

Lemma adds_grows P s s' : adds P s s' -> grows s s'.
Proof. intros [R (l & E & _)]. split; [|done]. rewrite E. by apply prefix_app_r. Qed.

(** An object of the grown store is an old one or one of the added. *)
Lemma adds_readObject P s s' id o :
  adds P s s' -> readObject id s' = Some o -> readObject id s = Some o \/ P o.
Proof.
  intros [_ (l & E & F)]. unfold readObject. rewrite E. intros H.
  apply lookup_app_Some in H as [H | [_ H]]; [by left | right].
  rewrite Forall_forall in F. apply F. by eapply list_elem_of_lookup_2.
Qed.

Lemma writeObject_adds (P : GitObject -> Prop) o s r s' :
  P o -> writeObject o s = (r, s') -> adds P s s'.
Proof.
  intros HP. unfold writeObject.
  destruct (list_find _ (objects s)) as [[i x]|]; intros [= <- <-]; [reflexivity|].
  split; [done|]. exists [o]. split; [done | by apply Forall_singleton].
Qed.

Section Respects.
Context (R : relation Store) `{!Reflexive R} `{!Transitive R}.

Lemma respects_ret {A} (a : A) : respects R (mret a : M A).
Proof. intros s r s' [= <- <-]. reflexivity. Qed.

Lemma respects_throw {A} e : respects R (throw e : M A).
Proof. intros s r s' [= <- <-]. reflexivity. Qed.

Lemma respects_bind {A B} (m : M A) (f : A -> M B) :
  respects R m -> (forall a, respects R (f a)) -> respects R (m ≫= f).
Proof.
  intros Hm Hf s r s'. rewrite bind_unfold.
  destruct (m s) as [[a|e] s1] eqn:E; intros H.
  - etrans; [by eapply Hm | by eapply Hf].
  - injection H as <- <-. by eapply Hm.
Qed.

Lemma respects_fmap {A B} (g : A -> B) (m : M A) :
  respects R m -> respects R (g <$> m).
Proof.
  intros Hm s r s'. rewrite fmap_unfold.
  destruct (m s) as [[a|e] s1] eqn:E; intros [= <- <-]; by eapply Hm.
Qed.

Lemma respects_readTree id : respects R (readTree id).
Proof. intros s r s' H. apply readTree_state in H as ->. reflexivity. Qed.

Lemma respects_readCommit id : respects R (readCommit id).
Proof.
  intros s r s'. unfold readCommit.
  destruct (readObject id s) as [[]|]; intros [= <- <-]; reflexivity.
Qed.

Lemma respects_resolveRef ref : respects R (resolveRef ref).
Proof.
  intros s r s'. unfold resolveRef.
  destruct (refs s !! ref); intros [= <- <-]; reflexivity.
Qed.

Lemma respects_try_catch {A} (m : M A) h :
  respects R m -> (forall e, respects R (h e)) -> respects R (try_catch m h).
Proof.
  intros Hm Hh s r s'. unfold try_catch.
  destruct (m s) as [[a|e] s1] eqn:E.
  - intros [= <- <-]. by eapply Hm.
  - destruct e; try (intros H; etrans; [by eapply Hm | by eapply Hh]).
    intros [= <- <-]. by eapply Hm.
Qed.

Lemma respects_wrapErrors {A} op (m : M A) : respects R m -> respects R (wrapErrors op m).
Proof.
  intros Hm. apply respects_try_catch; [done|]. intros []; apply respects_throw.
Qed.

Lemma respects_forEach {A S} (l : list A) (body : S -> A -> M S) acc :
  (forall a x, respects R (body a x)) -> respects R (forEach l body acc).
Proof.
  intros Hb. revert acc. induction l as [|x l IH]; intros acc; simpl.
  - apply respects_ret.
  - apply respects_bind; [apply Hb | intros; apply IH].
Qed.

Lemma respects_arrayMap {A B} (f : A -> M B) (l : list A) :
  (forall x, respects R (f x)) -> respects R (arrayMap f l).
Proof.
  intros Hf. induction l as [|x l IH]; simpl.
  - apply respects_ret.
  - apply respects_bind; [apply Hf | intros].
    apply respects_bind; [apply IH | intros; apply respects_ret].
Qed.

Lemma respects_mapAwait {A B} (f : A -> M B) (l : list A) :
  (forall x, respects R (f x)) -> respects R (mapAwait f l).
Proof.
  intros Hf. induction l as [|x l IH]; simpl.
  - apply respects_ret.
  - intros s r s'. destruct (f x s) as [r1 s1] eqn:E1.
    destruct (mapAwait f l s1) as [rs s2] eqn:E2. intros [= _ <-].
    etrans; [by eapply Hf | by eapply IH].
Qed.

Lemma respects_readTreeEntries t : respects R (readTreeEntries t).
Proof.
  destruct t; [|apply respects_ret].
  apply respects_bind; [apply respects_readTree | intros; apply respects_ret].
Qed.

(** The tree engine writes trees only, and [removeFileFromTree] no
    empty one. *)
Lemma respects_upsertFileInTree root parts blobSha :
  (forall es, respects R (writeTree es)) ->
  respects R (upsertFileInTree root parts blobSha).
Proof.
  intros Hw. revert root. induction parts as [|x rest IH]; intros root; simpl.
  - apply respects_bind; [|intros; apply respects_throw].
    destruct root; [|apply respects_ret].
    apply respects_bind; [apply respects_readTree | intros; apply respects_ret].
  - apply respects_bind.
    { destruct root; [|apply respects_ret].
      apply respects_bind; [apply respects_readTree | intros; apply respects_ret]. }
    intros entries. destruct rest as [|y rest']; [apply Hw|].
    apply respects_bind.
    { destruct root; [|apply respects_ret].
      apply respects_bind; [apply respects_readTree | intros; apply respects_ret]. }
    intros existing. apply respects_bind; [apply IH | intros; apply Hw].
Qed.

Lemma respects_removeFileFromTree root parts :
  (forall es, es <> [] -> respects R (writeTree es)) ->
  respects R (removeFileFromTree root parts).
Proof.
  intros Hw. revert root.
  induction parts as [|x rest IH]; intros [root|]; simpl; try apply respects_throw.
  { apply respects_bind; [apply respects_readTree | intros; apply respects_throw]. }
  apply respects_bind; [apply respects_readTree | intros raw].
  apply respects_bind.
  - destruct rest as [|y rest'].
    + case_decide; [apply respects_throw | apply respects_ret].
    + destruct (findEntry x (filterTreeEntries raw)); [|apply respects_throw].
      case_decide; [apply respects_throw|].
      apply respects_bind; [apply IH | intros [sub|]; apply respects_ret].
  - intros [|e es]; [apply respects_ret|]. by apply respects_fmap, Hw.
Qed.

End Respects.

Lemma growing_writeObject o : growing (writeObject o).
Proof.
  intros s r s' H. destruct (writeObject_spec o s) as (id & s1 & E & G & _).
  rewrite E in H. by injection H as <- <-.
Qed.

Lemma growing_upsertFileInTree root parts blobSha :
  growing (upsertFileInTree root parts blobSha).
Proof.
  apply respects_upsertFileInTree; try apply _. intros es. apply growing_writeObject.
Qed.

Lemma growing_removeFileFromTree root parts :
  growing (removeFileFromTree root parts).
Proof.
  apply respects_removeFileFromTree; try apply _. intros es _. apply growing_writeObject.
Qed.

(** ** Upsert, then resolve *)

Lemma validPath_grows s s' root parts :
  grows s s' -> validPath s root parts = true -> validPath s' root parts = true.
Proof.
  intros G. revert root. induction parts as [|x rest IH]; intros root; simpl; [done|].
  destruct root as [r|]; [|done].
  destruct (readObject r s) as [[| raw |]|] eqn:E; try done.
  rewrite (grows_readObject _ _ _ _ G E).
  destruct rest as [|y rest']; [done|].
  destruct (findEntry x raw) as [e|]; [|done].
  rewrite !andb_true_iff. intros [? ?]. split; [done | by apply IH].
Qed.

Lemma resolvePath_loop_cons tp part rest cur s raw entry :
  Resolved.type cur = tree ->
  readObject (Resolved.sha cur) s = Some (TreeObject raw) ->
  findEntry part (filterTreeEntries raw) = Some entry ->
  resolvePath_loop tp (part :: rest) cur s =
  resolvePath_loop tp rest
    (Resolved.mk (TreeEntry.oid entry) (TreeEntry.mode entry) (TreeEntry.type entry)) s.
Proof.
  intros Ht Hr Hf. simpl. rewrite decide_False by (by intros []).
  rewrite (bind_Ok _ _ _ _ _ (readTree_object _ _ _ Hr)). by rewrite Hf.
Qed.

(** On a valid path the upsert returns, and the tree it returns resolves
    the path to the blob, now and in every later state of the store. *)
Lemma upsertFileInTree_resolves parts : forall s root blobSha,
  validPath s root parts = true ->
  exists newRoot s',
    upsertFileInTree root parts blobSha s = (Ok newRoot, s')
    /\ forall tp s'', grows s' s'' ->
         resolvePath_loop tp parts (Resolved.mk newRoot "040000" tree) s'' =
         (Ok (Resolved.mk blobSha "100644" blob), s'').
Proof.
  induction parts as [|x rest IH]; intros s root blobSha Hv; [done|].
  simpl in Hv. simpl upsertFileInTree.
  (* the entries read at this level *)
  assert (exists es raw,
    (match root with
     | Some t => result ← readTree t; mret (filterTreeEntries result)
     | None => mret []
     end : M _) s = (Ok es, s)
    /\ (match root with
        | Some t => result ← readTree t; mret (findEntry x result)
        | None => mret None
        end : M _) s = (Ok (findEntry x raw), s)
    /\ match root with
       | Some r => readObject r s = Some (TreeObject raw)
       | None => raw = []
       end) as (es & raw & Hes & Hex & Hraw).
  { destruct root as [r|].
    - destruct (readObject r s) as [[| raw |]|] eqn:E; try done.
      exists (filterTreeEntries raw), raw.
      by rewrite !(bind_Ok _ _ _ _ _ (readTree_object _ _ _ E)).
    - by exists [], []. }
  rewrite (bind_Ok _ _ _ _ _ Hes). cbv zeta.
  destruct rest as [|y rest'].
  - destruct (writeTree_spec (dropEntry x es
                 ++ [TreeEntry.mk "100644" x blobSha blob]) s) as (id & s1 & E & G & R).
    exists id, s1. split; [done|]. intros tp s'' G'.
    apply (grows_readObject _ _ _ _ G') in R.
    pose proof (findEntry_written x es (TreeEntry.mk "100644" x blobSha blob)
                  eq_refl ltac:(done)) as Hf.
    by rewrite (resolvePath_loop_cons tp x [] (Resolved.mk id "040000" tree) s'' _ _
                  eq_refl R Hf).
  - rewrite (bind_Ok _ _ _ _ _ Hex). cbv zeta.
    assert (validPath s (TreeEntry.oid <$> findEntry x raw) (y :: rest') = true) as Hv'.
    { destruct root as [r|].
      - rewrite Hraw in Hv. destruct (findEntry x raw) as [e|]; [|done].
        by apply andb_true_iff in Hv as [_ ?].
      - subst raw. done. }
    destruct (IH s _ blobSha Hv') as (newSub & s1 & Esub & Hres).
    rewrite (bind_Ok _ _ _ _ _ Esub).
    destruct (writeTree_spec (dropEntry x es
                 ++ [TreeEntry.mk "040000" x newSub tree]) s1) as (id & s2 & E & G & R).
    exists id, s2. split; [done|]. intros tp s'' G'.
    apply (grows_readObject _ _ _ _ G') in R.
    pose proof (findEntry_written x es (TreeEntry.mk "040000" x newSub tree)
                  eq_refl ltac:(done)) as Hf.
    rewrite (resolvePath_loop_cons tp x _ (Resolved.mk id "040000" tree) s'' _ _
               eq_refl R Hf).
    apply Hres. by etrans.
Qed.

Lemma readBlob_object id s c :
  readObject id s = Some (BlobObject c) -> readBlob id s = (Ok c, s).
Proof. intros H. unfold readBlob. by rewrite H. Qed.

(** C5: for a path whose part list is valid for the tree (not empty; a part
    before the last one is missing from its tree or a directory) and any
    content, writing the content as a blob and upserting it at the path
    returns a tree in which [resolvePath] finds, at that path, an entry of
    kind blob whose OID is the OID of the blob, and the blob reads back
    as the content. *)
Theorem upsert_then_resolve (s : Store) (root : option OID) (p content : string) :
  validPath s root (pathPartsOf p) = true ->
  exists blobSha s1 newRoot s2,
    writeBlob content s = (Ok blobSha, s1)
    /\ upsertFileInTree root (pathPartsOf p) blobSha s1 = (Ok newRoot, s2)
    /\ resolvePath newRoot p s2 = (Ok (Resolved.mk blobSha "100644" blob), s2)
    /\ readBlob blobSha s2 = (Ok content, s2).
Proof.
  intros Hv.
  destruct (writeObject_spec (BlobObject content) s) as (blobSha & s1 & Eb & G1 & Rb).
  destruct (upsertFileInTree_resolves _ s1 root blobSha (validPath_grows _ _ _ _ G1 Hv))
    as (newRoot & s2 & Eu & Hres).
  exists blobSha, s1, newRoot, s2. split_and!; [done | done | |].
  - unfold resolvePath. destruct (pathPartsOf p) eqn:Ep; [done|].
    by apply Hres.
  - apply readBlob_object. eapply grows_readObject; [|exact Rb].
    by eapply growing_upsertFileInTree.
Qed.

(** ** Reading the steps of the tree engine back *)

Lemma writeTree_inv entries s id s' :
  writeTree entries s = (Ok id, s') ->
  grows s s' /\ readObject id s' = Some (TreeObject (sortEntries entries)).
Proof.
  intros H. destruct (writeTree_spec entries s) as (id' & s1 & E & G & R).
  rewrite E in H. by injection H as <- <-.
Qed.

Lemma resolvePath_loop_inv tp part rest cur s e s1 :
  resolvePath_loop tp (part :: rest) cur s = (Ok e, s1) ->
  Resolved.type cur = tree
  /\ exists raw entry,
       readObject (Resolved.sha cur) s = Some (TreeObject raw)
       /\ findEntry part (filterTreeEntries raw) = Some entry
       /\ resolvePath_loop tp rest
            (Resolved.mk (TreeEntry.oid entry) (TreeEntry.mode entry) (TreeEntry.type entry)) s
          = (Ok e, s1).
Proof.
  simpl. case_decide as Ht; [done|]. intros H.
  split; [by destruct (decide (Resolved.type cur = tree))|].
  apply bind_inv_Ok in H as (raw & s0 & Hr & H).
  apply readTree_Ok in Hr as [Hr ->].
  destruct (findEntry part (filterTreeEntries raw)) as [entry|] eqn:Hf; [|done].
  eauto.
Qed.

Lemma resolvePath_loop_state tp parts cur s r s1 :
  resolvePath_loop tp parts cur s = (r, s1) -> s1 = s.
Proof.
  revert cur. induction parts as [|part rest IH]; intros cur; simpl.
  - by intros [= _ <-].
  - case_decide; [by intros [= _ <-]|]. rewrite bind_unfold.
    destruct (readTree (Resolved.sha cur) s) as [[raw|err] s0] eqn:Hr;
      apply readTree_state in Hr as ->; [|by intros [= _ <-]].
    destruct (findEntry part (filterTreeEntries raw)); [apply IH | by intros [= _ <-]].
Qed.

(** What resolved resolves the same way once the store has grown. *)
Lemma resolvePath_loop_grows tp parts cur s e s1 s' :
  resolvePath_loop tp parts cur s = (Ok e, s1) -> grows s s' ->
  resolvePath_loop tp parts cur s' = (Ok e, s').
Proof.
  intros H G. revert cur H. induction parts as [|part rest IH]; intros cur H.
  - simpl in *. by injection H as <- _.
  - apply resolvePath_loop_inv in H as (Ht & raw & entry & Hr & Hf & H).
    rewrite (resolvePath_loop_cons _ _ _ _ _ _ _ Ht (grows_readObject _ _ _ _ G Hr) Hf).
    by apply IH.
Qed.

(** Past its first step the loop forgets the mode it started with. *)
Lemma resolvePath_loop_mode tp part rest sha m m' s :
  resolvePath_loop tp (part :: rest) (Resolved.mk sha m tree) s =
  resolvePath_loop tp (part :: rest) (Resolved.mk sha m' tree) s.
Proof. reflexivity. Qed.

Lemma upsertFileInTree_inv root x rest blobSha s newRoot s' :
  upsertFileInTree (Some root) (x :: rest) blobSha s = (Ok newRoot, s') ->
  exists raw,
    readObject root s = Some (TreeObject raw)
    /\ match rest with
       | [] =>
           writeTree (dropEntry x (filterTreeEntries raw)
                      ++ [TreeEntry.mk "100644" x blobSha blob]) s = (Ok newRoot, s')
       | _ :: _ =>
           exists newSub s1,
             upsertFileInTree (TreeEntry.oid <$> findEntry x raw) rest blobSha s
               = (Ok newSub, s1)
             /\ writeTree (dropEntry x (filterTreeEntries raw)
                           ++ [TreeEntry.mk "040000" x newSub tree]) s1 = (Ok newRoot, s')
       end.
Proof.
  simpl. intros H.
  apply bind_inv_Ok in H as (es & s0 & Hes & H).
  apply bind_inv_Ok in Hes as (raw & s0' & Hr & Hes).
  apply readTree_Ok in Hr as [Hr ->]. injection Hes as <- <-.
  exists raw. split; [done|]. destruct rest as [|y rest']; [done|].
  apply bind_inv_Ok in H as (ex & s0 & Hex & H).
  rewrite (bind_Ok _ _ _ _ _ (readTree_object _ _ _ Hr)) in Hex.
  injection Hex as <- <-.
  apply bind_inv_Ok in H as (newSub & s1 & Hsub & H). eauto.
Qed.

Lemma removeFileFromTree_inv root x rest s r s' :
  removeFileFromTree (Some root) (x :: rest) s = (Ok r, s') ->
  exists raw entries' s1,
    readObject root s = Some (TreeObject raw)
    /\ match rest with
       | [] =>
           findEntry x (filterTreeEntries raw) <> None
           /\ entries' = dropEntry x (filterTreeEntries raw) /\ s1 = s
       | _ :: _ =>
           exists ex sub,
             findEntry x (filterTreeEntries raw) = Some ex
             /\ TreeEntry.type ex = tree
             /\ removeFileFromTree (Some (TreeEntry.oid ex)) rest s = (Ok sub, s1)
             /\ entries' = dropEntry x (filterTreeEntries raw)
                           ++ match sub with
                              | Some o => [TreeEntry.mk "040000" x o tree]
                              | None => []
                              end
       end
    /\ match entries' with
       | [] => r = None /\ s' = s1
       | _ :: _ => exists id, r = Some id /\ writeTree entries' s1 = (Ok id, s')
       end.
Proof.
  simpl. intros H.
  apply bind_inv_Ok in H as (raw & s0 & Hr & H).
  apply readTree_Ok in Hr as [Hr ->].
  apply bind_inv_Ok in H as (entries' & s1 & He & H).
  exists raw, entries', s1. split; [done|]. split.
  - destruct rest as [|y rest'].
    + case_decide; [done|]. by injection He as <- <-.
    + destruct (findEntry x (filterTreeEntries raw)) as [ex|]; [|done].
      case_decide as Ht; [done|].
      apply bind_inv_Ok in He as (sub & s2 & Hsub & He).
      exists ex, sub. split_and!; [done | by destruct (decide (TreeEntry.type ex = tree)) | |].
      * destruct sub; injection He as <- <-; done.
      * destruct sub; injection He as <- <-; by rewrite ?app_nil_r.
  - destruct entries' as [|e0 es0]; [by injection H as <- <-|].
    rewrite fmap_unfold in H.
    destruct (writeTree (e0 :: es0) s1) as [[id|err] s2] eqn:Ew; [|done].
    injection H as <- <-. eauto.
Qed.

(** ** Entries off the path keep their OID *)

Lemma findEntry_frame p q l es' :
  Forall (fun e => TreeEntry.path e = p) es' -> p <> q ->
  findEntry q (filterTreeEntries (sortEntries (dropEntry p (filterTreeEntries l) ++ es'))) =
  findEntry q (filterTreeEntries l).
Proof.
  intros Hall Hne. rewrite findEntry_sorted, !findEntry_filterTreeEntries.
  rewrite filter_app, filter_path_dropEntry_ne by done.
  assert (filter (fun x => TreeEntry.path x = q) es' = []) as ->.
  { induction Hall as [|a l' Ha _ IH]; [done|].
    rewrite filter_cons, decide_False by congruence. done. }
  rewrite app_nil_r, <- !findEntry_filterTreeEntries.
  by rewrite filterTreeEntries_idemp.
Qed.

Lemma filter_none {A} (P : A -> Prop) `{!forall x, Decision (P x)} (l : list A) :
  Forall (fun x => ~ P x) l -> filter P l = [].
Proof.
  induction 1 as [|a l' Ha _ IH]; [done|]. by rewrite filter_cons, decide_False.
Qed.

Lemma uniqueNames_tree s id raw :
  uniqueNames s = true -> readObject id s = Some (TreeObject raw) ->
  NoDup (TreeEntry.path <$> raw).
Proof.
  unfold uniqueNames, readObject. rewrite forallb_forall. intros Hall Hr.
  apply list_elem_of_lookup_2, list_elem_of_In, Hall in Hr.
  by apply bool_decide_eq_true in Hr.
Qed.

Lemma filter_path_NoDup p raw a :
  NoDup (TreeEntry.path <$> raw) -> a ∈ raw -> TreeEntry.path a = p ->
  filter (fun x => TreeEntry.path x = p) raw = [a].
Proof.
  induction raw as [|b l IH]; intros Hnd Hin Hp; [by apply elem_of_nil in Hin|].
  rewrite fmap_cons in Hnd. apply NoDup_cons in Hnd as [Hb Hnd].
  rewrite filter_cons. apply elem_of_cons in Hin as [-> | Hin].
  - rewrite decide_True by done. f_equal.
    apply filter_none. rewrite Forall_forall. intros c Hc Hcp. apply Hb.
    rewrite Hp, <- Hcp. by apply list_elem_of_fmap_2.
  - rewrite decide_False; [by apply IH|]. intros Hbp. apply Hb.
    rewrite Hbp, <- Hp. by apply list_elem_of_fmap_2.
Qed.

(** With unique names the entry the filtered list gives under a name is
    the entry the unfiltered list gives. *)
Lemma findEntry_unfiltered p raw e :
  NoDup (TreeEntry.path <$> raw) ->
  findEntry p (filterTreeEntries raw) = Some e -> findEntry p raw = Some e.
Proof.
  intros Hnd Hf.
  assert (e ∈ raw /\ TreeEntry.path e = p) as [Hin Hp].
  { apply head_Some_elem_of in Hf. unfold filterTreeEntries in Hf.
    rewrite !list_elem_of_filter in Hf. tauto. }
  unfold findEntry. by rewrite (filter_path_NoDup p raw e Hnd Hin Hp).
Qed.

Lemma upsertFileInTree_frame common : forall s root m x p' y q' blobSha newRoot s' tp e,
  uniqueNames s = true -> x <> y ->
  resolvePath_loop tp (common ++ y :: q') (Resolved.mk root m tree) s = (Ok e, s) ->
  upsertFileInTree (Some root) (common ++ x :: p') blobSha s = (Ok newRoot, s') ->
  resolvePath_loop tp (common ++ y :: q') (Resolved.mk newRoot "040000" tree) s' = (Ok e, s').
Proof.
  induction common as [|c cs IH]; intros s root m x p' y q' blobSha newRoot s' tp e Hu Hxy Hres Hup;
    simpl app in *.
  - apply resolvePath_loop_inv in Hres as (_ & raw & entry & Hr & Hf & Hres).
    simpl in Hr.
    pose proof (growing_upsertFileInTree _ _ _ _ _ _ Hup) as G.
    apply upsertFileInTree_inv in Hup as (raw' & Hr' & Hup).
    rewrite Hr in Hr'. injection Hr' as <-.
    assert (exists es', Forall (fun e => TreeEntry.path e = x) es'
              /\ readObject newRoot s'
                 = Some (TreeObject (sortEntries (dropEntry x (filterTreeEntries raw) ++ es'))))
      as (es' & Hall & Hnew).
    { destruct p' as [|z p''].
      - apply writeTree_inv in Hup as [_ Hw]. eexists. split; [|exact Hw].
        by apply Forall_singleton.
      - destruct Hup as (newSub & s1 & _ & Hw). apply writeTree_inv in Hw as [_ Hw].
        eexists. split; [|exact Hw]. by apply Forall_singleton. }
    rewrite (resolvePath_loop_cons tp y q' (Resolved.mk newRoot "040000" tree) s' _ entry
               eq_refl Hnew); [by eapply resolvePath_loop_grows|].
    by rewrite findEntry_frame.
  - apply resolvePath_loop_inv in Hres as (_ & raw & entry & Hr & Hf & Hres).
    simpl in Hr.
    apply upsertFileInTree_inv in Hup as (raw' & Hr' & Hup).
    rewrite Hr in Hr'. injection Hr' as <-.
    destruct (cs ++ x :: p') as [|z rest] eqn:Erest; [by destruct cs|].
    destruct Hup as (newSub & s1 & Hsub & Hw). rewrite <- Erest in Hsub.
    rewrite (findEntry_unfiltered c raw entry (uniqueNames_tree _ _ _ Hu Hr) Hf) in Hsub.
    simpl in Hsub.
    assert (TreeEntry.type entry = tree) as Ht.
    { destruct cs; simpl app in Hres; apply resolvePath_loop_inv in Hres as [Ht _];
        exact Ht. }
    rewrite Ht in Hres.
    pose proof (IH s _ _ x p' y q' blobSha newSub s1 tp e Hu Hxy Hres Hsub) as Hnew.
    apply writeTree_inv in Hw as [G Hw].
    pose proof (findEntry_written c (filterTreeEntries raw)
                  (TreeEntry.mk "040000" c newSub tree) eq_refl ltac:(done)) as Hfw.
    rewrite (resolvePath_loop_cons tp c _ (Resolved.mk newRoot "040000" tree) s' _ _
               eq_refl Hw Hfw).
    by eapply resolvePath_loop_grows.
Qed.

Lemma removeFileFromTree_frame common : forall s root m x p' y q' r s' tp e,
  x <> y ->
  resolvePath_loop tp (common ++ y :: q') (Resolved.mk root m tree) s = (Ok e, s) ->
  removeFileFromTree (Some root) (common ++ x :: p') s = (Ok r, s') ->
  exists newRoot,
    r = Some newRoot
    /\ resolvePath_loop tp (common ++ y :: q') (Resolved.mk newRoot "040000" tree) s'
       = (Ok e, s').
Proof.
  induction common as [|c cs IH]; intros s root m x p' y q' r s' tp e Hxy Hres Hrm;
    simpl app in *.
  - apply resolvePath_loop_inv in Hres as (_ & raw & entry & Hr & Hf & Hres).
    simpl in Hr.
    pose proof (growing_removeFileFromTree _ _ _ _ _ Hrm) as G.
    apply removeFileFromTree_inv in Hrm as (raw' & entries' & s1 & Hr' & Hstep & Hend).
    rewrite Hr in Hr'. injection Hr' as <-.
    assert (exists es', Forall (fun e => TreeEntry.path e = x) es'
              /\ entries' = dropEntry x (filterTreeEntries raw) ++ es') as (es' & Hall & ->).
    { destruct p' as [|z p''].
      - destruct Hstep as (_ & -> & _). exists []. by rewrite app_nil_r.
      - destruct Hstep as (ex & sub & _ & _ & _ & ->). eexists. split; [|done].
        destruct sub; [by apply Forall_singleton | by apply Forall_nil]. }
    assert (entry ∈ dropEntry x (filterTreeEntries raw) ++ es') as Hin.
    { apply elem_of_app. left. apply head_Some_elem_of in Hf.
      unfold dropEntry. rewrite list_elem_of_filter in Hf |- *.
      destruct Hf as [Hp Hin]. split; [congruence | done]. }
    destruct (dropEntry x (filterTreeEntries raw) ++ es') as [|e0 es0] eqn:Ees;
      [by apply elem_of_nil in Hin|].
    destruct Hend as (newRoot & -> & Hw). exists newRoot. split; [done|].
    apply writeTree_inv in Hw as [_ Hw]. rewrite <- Ees in Hw.
    rewrite (resolvePath_loop_cons tp y q' (Resolved.mk newRoot "040000" tree) s' _ entry
               eq_refl Hw); [by eapply resolvePath_loop_grows|].
    by rewrite findEntry_frame.
  - apply resolvePath_loop_inv in Hres as (_ & raw & entry & Hr & Hf & Hres).
    simpl in Hr.
    apply removeFileFromTree_inv in Hrm as (raw' & entries' & s1 & Hr' & Hstep & Hend).
    rewrite Hr in Hr'. injection Hr' as <-.
    destruct (cs ++ x :: p') as [|z rest] eqn:Erest; [by destruct cs|].
    destruct Hstep as (ex & sub & Hfx & Htx & Hsub & ->).
    rewrite Hf in Hfx. injection Hfx as <-. rewrite <- Erest in Hsub.
    rewrite Htx in Hres.
    destruct (IH s _ _ x p' y q' sub s1 tp e Hxy Hres Hsub) as (newSub & -> & Hnew).
    destruct (dropEntry c (filterTreeEntries raw) ++ [TreeEntry.mk "040000" c newSub tree])
      as [|e0 es0] eqn:Ees; [by destruct (dropEntry c (filterTreeEntries raw))|].
    destruct Hend as (newRoot & -> & Hw). exists newRoot. split; [done|].
    apply writeTree_inv in Hw as [G Hw]. rewrite <- Ees in Hw.
    pose proof (findEntry_written c (filterTreeEntries raw)
                  (TreeEntry.mk "040000" c newSub tree) eq_refl ltac:(done)) as Hfw.
    rewrite (resolvePath_loop_cons tp c _ (Resolved.mk newRoot "040000" tree) s' _ _
               eq_refl Hw Hfw).
    by eapply resolvePath_loop_grows.
Qed.

(** C8: let the paths [p] and [q] part ways at some level: after a common
    prefix, [p] goes on with the name [x] and [q] with another name [y].
    Whatever [q] resolves to in a tree (an entry beside the path of [p], or
    anything below such an entry), it resolves to the same OID, mode and kind
    in the tree an upsert at [p] returns, and in the tree a removal at [p]
    returns, which is then not absent.  The store is taken with the
    invariant of the data model (unique names in a tree). *)
Theorem mutation_keeps_siblings (s : Store) (root : OID) (p q : string)
    (common p' q' : list string) (x y : string) (e : Resolved.t) :
  uniqueNames s = true ->
  pathPartsOf p = common ++ x :: p' ->
  pathPartsOf q = common ++ y :: q' ->
  x <> y ->
  resolvePath root q s = (Ok e, s) ->
  (forall blobSha newRoot s',
     upsertFileInTree (Some root) (pathPartsOf p) blobSha s = (Ok newRoot, s') ->
     resolvePath newRoot q s' = (Ok e, s'))
  /\ (forall r s',
        removeFileFromTree (Some root) (pathPartsOf p) s = (Ok r, s') ->
        exists newRoot, r = Some newRoot /\ resolvePath newRoot q s' = (Ok e, s')).
Proof.
  intros Hu Hp Hq Hxy Hres. unfold resolvePath in *. rewrite Hp, Hq in *.
  destruct (common ++ y :: q') as [|z zs] eqn:E; [by destruct common|].
  rewrite <- E in *. clear E. split.
  - intros blobSha newRoot s' Hup. by eapply upsertFileInTree_frame.
  - intros r s' Hrm. by eapply removeFileFromTree_frame.
Qed.

(** ** Removal prunes *)

Lemma sortEntries_nil_inv l : sortEntries l = [] -> l = [].
Proof.
  intros H. apply Permutation_nil_r. rewrite <- H. by rewrite sortEntries_Permutation.
Qed.

Lemma removeFileFromTree_None_iff parts : forall s root r s',
  removeFileFromTree (Some root) parts s = (Ok r, s') ->
  r = None <-> soleChain s root parts = true.
Proof.
  induction parts as [|x rest IH]; intros s root r s' H.
  { simpl in H. apply bind_inv_Ok in H as (? & ? & _ & H). done. }
  apply removeFileFromTree_inv in H as (raw & entries' & s1 & Hr & Hstep & Hend).
  simpl soleChain. rewrite Hr. rewrite andb_true_iff, bool_decide_eq_true.
  destruct rest as [|y rest'].
  - destruct Hstep as (_ & -> & _).
    destruct (dropEntry x (filterTreeEntries raw)) as [|e0 es0]; [tauto|].
    destruct Hend as (id & -> & _). by intuition congruence.
  - destruct Hstep as (ex & sub & Hf & Ht & Hsub & ->). rewrite Hf.
    apply IH in Hsub.
    destruct (dropEntry x (filterTreeEntries raw)) as [|e0 es0], sub as [o|];
      simpl in Hend.
    + destruct Hend as (id & -> & _). split; [done|]. intros [_ Hc].
      apply Hsub in Hc. done.
    + destruct Hend as [-> ->]. split; [|done]. intros _. split; [done|]. by apply Hsub.
    + destruct Hend as (id & -> & _). split; [done | by intros [? _]].
    + destruct Hend as (id & -> & _). split; [done | by intros [? _]].
Qed.

(** A path that resolves can be removed. *)
Lemma removeFileFromTree_total tp parts : forall s root m e,
  parts <> [] ->
  resolvePath_loop tp parts (Resolved.mk root m tree) s = (Ok e, s) ->
  exists r s', removeFileFromTree (Some root) parts s = (Ok r, s').
Proof.
  induction parts as [|x rest IH]; intros s root m e Hne Hres; [done|].
  apply resolvePath_loop_inv in Hres as (_ & raw & entry & Hr & Hf & Hres).
  simpl in Hr. simpl removeFileFromTree.
  rewrite (bind_Ok _ _ _ _ _ (readTree_object _ _ _ Hr)). cbv zeta.
  assert (forall (entries' : list TreeEntry.t) s1, exists r s',
            (match entries' with
             | [] => mret None
             | _ :: _ => Some <$> writeTree entries'
             end : M (option OID)) s1 = (Ok r, s')) as Hend.
  { intros [|e0 es0] s1; [by eexists _, _|].
    destruct (writeTree_spec (e0 :: es0) s1) as (id & s2 & E & _).
    exists (Some id), s2. by rewrite fmap_unfold, E. }
  destruct rest as [|y rest'].
  - rewrite bind_unfold. rewrite decide_False by (by rewrite Hf). simpl. apply Hend.
  - rewrite bind_unfold, Hf.
    assert (TreeEntry.type entry = tree) as Ht.
    { by apply resolvePath_loop_inv in Hres as [Ht _]. }
    rewrite decide_False by (by intros []). rewrite Ht in Hres.
    destruct (IH s _ _ e ltac:(done) Hres) as (sub & s1 & Hsub).
    rewrite (bind_Ok _ _ _ _ _ Hsub). destruct sub; simpl; apply Hend.
Qed.

Lemma removeFileFromTree_nonempty parts s root t s' :
  removeFileFromTree (Some root) parts s = (Ok (Some t), s') ->
  exists es, readObject t s' = Some (TreeObject es) /\ es <> [].
Proof.
  destruct parts as [|x rest]; intros H.
  { simpl in H. apply bind_inv_Ok in H as (? & ? & _ & H). done. }
  apply removeFileFromTree_inv in H as (raw & entries' & s1 & Hr & Hstep & Hend).
  destruct entries' as [|e0 es0]; [by destruct Hend|].
  destruct Hend as (id & [= <-] & Hw). apply writeTree_inv in Hw as [_ Hw].
  eexists. split; [exact Hw|]. intros Hnil. by apply sortEntries_nil_inv in Hnil.
Qed.

(** No run of the removal stores an empty tree. *)
Lemma removeFileFromTree_adds root parts :
  respects (adds notEmptyTree) (removeFileFromTree root parts).
Proof.
  apply respects_removeFileFromTree; try apply _.
  intros es Hne s r s' H. eapply writeObject_adds; [|exact H].
  intros [= Hnil]. by apply sortEntries_nil_inv in Hnil.
Qed.

Lemma resolvePath_loop_notFound_grows tp parts cur s s1 s' :
  resolvePath_loop tp parts cur s = (Err (notFound "Path"), s1) -> grows s s' ->
  resolvePath_loop tp parts cur s' = (Err (notFound "Path"), s').
Proof.
  intros H G. revert cur H. induction parts as [|part rest IH]; intros cur; simpl; [done|].
  case_decide; [done|]. rewrite !bind_unfold. unfold readTree.
  destruct (readObject (Resolved.sha cur) s) as [[| raw |]|] eqn:Hr; try done.
  rewrite (grows_readObject _ _ _ _ G Hr).
  destruct (findEntry part (filterTreeEntries raw)); [apply IH | done].
Qed.

Lemma findEntry_dropped p l es' :
  es' = [] ->
  findEntry p (filterTreeEntries (sortEntries (dropEntry p l ++ es'))) = None.
Proof.
  intros ->. rewrite app_nil_r, findEntry_sorted, findEntry_filterTreeEntries.
  by rewrite filter_path_dropEntry_eq.
Qed.

(** A directory on the path that held nothing but the path is gone from
    the tree the removal returns. *)
Lemma removeFileFromTree_drops tp pre : forall post s root m d t s',
  pre <> [] -> post <> [] ->
  resolvePath_loop tp pre (Resolved.mk root m tree) s = (Ok d, s) ->
  soleChain s (Resolved.sha d) post = true ->
  removeFileFromTree (Some root) (pre ++ post) s = (Ok (Some t), s') ->
  resolvePath_loop tp pre (Resolved.mk t "040000" tree) s' = (Err (notFound "Path"), s').
Proof.
  induction pre as [|c pre' IH]; intros post s root m d t s' Hpre Hpost Hres Hsole Hrm;
    [done|].
  apply resolvePath_loop_inv in Hres as (_ & raw & entry & Hr & Hf & Hres).
  simpl in Hr. simpl app in Hrm.
  apply removeFileFromTree_inv in Hrm as (raw' & entries' & s1 & Hr' & Hstep & Hend).
  rewrite Hr in Hr'. injection Hr' as <-.
  destruct (pre' ++ post) as [|z rest] eqn:Erest; [by destruct pre', post|].
  destruct Hstep as (ex & sub & Hfx & Htx & Hsub & ->).
  rewrite Hf in Hfx. injection Hfx as <-. rewrite <- Erest in Hsub.
  assert (forall es' s2,
    writeTree (dropEntry c (filterTreeEntries raw) ++ es') s2 = (Ok t, s') ->
    es' = [] ->
    resolvePath_loop tp (c :: pre') (Resolved.mk t "040000" tree) s'
      = (Err (notFound "Path"), s')) as Hgone.
  { intros es' s2 Hw Hes'. apply writeTree_inv in Hw as [_ Hw]. simpl.
    rewrite (bind_Ok _ _ _ _ _ (readTree_object _ _ _ Hw)).
    by rewrite findEntry_dropped. }
  destruct pre' as [|c' pre''].
  - (* the directory [c] itself held nothing but the path *)
    simpl in Hres. injection Hres as <-. simpl in Hsole, Hsub.
    apply (removeFileFromTree_None_iff _ _ _ _ _ Hsub) in Hsole as ->.
    destruct (dropEntry c (filterTreeEntries raw) ++ []) as [|e0 es0] eqn:Ees;
      [by destruct Hend|].
    destruct Hend as (id & [= <-] & Hw). rewrite <- Ees in Hw. by eapply Hgone.
  - rewrite Htx in Hres. destruct sub as [t1|].
    + pose proof (IH post s _ _ d t1 s1 ltac:(done) Hpost Hres Hsole Hsub) as Hsubres.
      destruct (dropEntry c (filterTreeEntries raw) ++ [TreeEntry.mk "040000" c t1 tree])
        as [|e0 es0] eqn:Ees; [by destruct (dropEntry c (filterTreeEntries raw))|].
      destruct Hend as (id & [= <-] & Hw). rewrite <- Ees in Hw.
      apply writeTree_inv in Hw as [G Hw].
      pose proof (findEntry_written c (filterTreeEntries raw)
                    (TreeEntry.mk "040000" c t1 tree) eq_refl ltac:(done)) as Hfw.
      rewrite (resolvePath_loop_cons tp c _ (Resolved.mk t "040000" tree) s' _ _
                 eq_refl Hw Hfw).
      by eapply resolvePath_loop_notFound_grows.
    + destruct (dropEntry c (filterTreeEntries raw) ++ []) as [|e0 es0] eqn:Ees;
        [by destruct Hend|].
      destruct Hend as (id & [= <-] & Hw). rewrite <- Ees in Hw. by eapply Hgone.
Qed.

Lemma readTree_cases id s :
  (exists raw, readTree id s = (Ok raw, s))
  \/ (exists code, readTree id s = (Err (GitError code), s)).
Proof. unfold readTree. destruct (readObject id s) as [[| |]|]; eauto. Qed.

(** What was removed is not found any more. *)
Lemma removeFileFromTree_unresolvable parts : forall s root t s' tp s'',
  removeFileFromTree (Some root) parts s = (Ok (Some t), s') ->
  grows s' s'' ->
  resolvePath_loop tp parts (Resolved.mk t "040000" tree) s'' = (Err (notFound "Path"), s'').
Proof.
  induction parts as [|x rest IH]; intros s root t s' tp s'' H G.
  { simpl in H. rewrite bind_unfold in H.
    by destruct (readTree_cases root s) as [[raw Hr] | [code Hr]]; rewrite Hr in H. }
  apply removeFileFromTree_inv in H as (raw & entries' & s1 & Hraw & Hcase & Hend).
  destruct entries' as [|e0 es0]; [by destruct Hend|].
  destruct Hend as (id & [= <-] & Hw). apply writeTree_inv in Hw as [Gw R].
  apply (grows_readObject _ _ _ _ G) in R.
  destruct rest as [|y rest'].
  - destruct Hcase as (_ & Heq & ->). rewrite Heq in R. simpl.
    rewrite (bind_Ok _ _ _ _ _ (readTree_object _ _ _ R)). cbv zeta.
    rewrite <- (app_nil_r (dropEntry x _)), findEntry_dropped by done. done.
  - destruct Hcase as (ex & sub & Hex & Hty & Hrec & Heq). rewrite Heq in R.
    change (resolvePath_loop tp (x :: y :: rest') (Resolved.mk t "040000" tree) s'')
      with ((result ← readTree t;
             match findEntry x (filterTreeEntries result) with
             | None => throw (notFound "Path")
             | Some entry =>
                 resolvePath_loop tp (y :: rest')
                   (Resolved.mk (TreeEntry.oid entry) (TreeEntry.mode entry)
                      (TreeEntry.type entry))
             end) s'').
    rewrite (bind_Ok _ _ _ _ _ (readTree_object _ _ _ R)).
    destruct sub as [newSub|].
    + rewrite (findEntry_written x (filterTreeEntries raw)
                 (TreeEntry.mk "040000" x newSub tree) eq_refl ltac:(done)).
      apply (IH s _ newSub s1 tp s'' Hrec). by etrans.
    + rewrite findEntry_dropped by done. done.
Qed.

(** The predicate of the specification is the engine's. *)
Lemma dropEntry_nil_iff x raw :
  dropEntry x (filterTreeEntries raw) = []
  <-> forallb (fun e => bool_decide (TreeEntry.type e = commit \/ TreeEntry.path e = x)) raw
      = true.
Proof.
  unfold dropEntry, filterTreeEntries. induction raw as [|e raw IH]; [done|].
  rewrite (filter_cons _ e). cbn [forallb]. rewrite andb_true_iff, bool_decide_eq_true, <- IH.
  destruct (decide (TreeEntry.type e <> commit)) as [Hc|Hc].
  - rewrite filter_cons. destruct (decide (TreeEntry.path e <> x)) as [Hx|Hx].
    + split; [done|]. intros [[?|?] _]; done.
    + apply dec_stable in Hx. split; [by auto|]. by intros [_ ?].
  - apply dec_stable in Hc. split; [by auto|]. by intros [_ ?].
Qed.

Lemma findEntry_visible x raw :
  findEntry x (filterTreeEntries raw)
  = head (filter (fun e => TreeEntry.type e <> commit /\ TreeEntry.path e = x) raw).
Proof.
  unfold findEntry, filterTreeEntries. f_equal. induction raw as [|e raw IH]; [done|].
  rewrite (filter_cons _ e), (filter_cons (fun e => _ /\ _) e).
  destruct (decide (TreeEntry.type e <> commit)) as [Hc|Hc].
  - rewrite filter_cons. destruct (decide (TreeEntry.path e = x)) as [Hx|Hx].
    + rewrite decide_True by done. by rewrite IH.
    + rewrite decide_False by (by intros [_ ?]). done.
  - rewrite decide_False by (by intros [? _]). done.
Qed.

Lemma holdsOnly_soleChain parts : forall s root,
  holdsOnly s root parts = soleChain s root parts.
Proof.
  induction parts as [|x rest IH]; intros s root; [done|]. simpl.
  destruct (readObject root s) as [[| raw |]|]; try done.
  rewrite <- findEntry_visible. f_equal.
  - pose proof (dropEntry_nil_iff x raw) as Hd.
    destruct (forallb _ raw); symmetry.
    + apply bool_decide_eq_true. by apply Hd.
    + apply bool_decide_eq_false. intros Hn. by apply Hd in Hn.
  - destruct rest; [done|]. destruct (findEntry x (filterTreeEntries raw)); [apply IH | done].
Qed.

Lemma soleChain_app pre : forall post s root m tp d,
  pre <> [] -> post <> [] ->
  resolvePath_loop tp pre (Resolved.mk root m tree) s = (Ok d, s) ->
  soleChain s root (pre ++ post) = true ->
  soleChain s (Resolved.sha d) post = true.
Proof.
  induction pre as [|c pre' IH]; intros post s root m tp d Hpre Hpost Hres Hsole; [done|].
  apply resolvePath_loop_inv in Hres as (_ & raw & entry & Hr & Hf & Hres).
  simpl in Hr. simpl in Hsole. rewrite Hr in Hsole.
  apply andb_true_iff in Hsole as [_ Hsole].
  destruct (pre' ++ post) as [|z rest] eqn:Erest; [by destruct pre', post|].
  rewrite Hf in Hsole. rewrite <- Erest in Hsole.
  destruct pre' as [|c' pre''].
  - simpl in Hres. injection Hres as <-. done.
  - assert (TreeEntry.type entry = tree) as Hty.
    { simpl in Hres. case_decide as Ht; [done|]. exact Ht. }
    rewrite Hty in Hres. by eapply IH.
Qed.

(** A directory on the path that holds more than the path stays, and is
    not empty. *)
Lemma removeFileFromTree_keeps tp pre : forall post s root m d t s',
  pre <> [] -> post <> [] ->
  resolvePath_loop tp pre (Resolved.mk root m tree) s = (Ok d, s) ->
  soleChain s (Resolved.sha d) post = false ->
  removeFileFromTree (Some root) (pre ++ post) s = (Ok (Some t), s') ->
  exists dir es,
    resolvePath_loop tp pre (Resolved.mk t "040000" tree) s'
      = (Ok (Resolved.mk dir "040000" tree), s')
    /\ readObject dir s' = Some (TreeObject es) /\ es <> [].
Proof.
  induction pre as [|c pre' IH]; intros post s root m d t s' Hpre Hpost Hres Hsole Hrm;
    [done|].
  apply resolvePath_loop_inv in Hres as (_ & raw & entry & Hr & Hf & Hres).
  simpl in Hr. simpl app in Hrm.
  apply removeFileFromTree_inv in Hrm as (raw' & entries' & s1 & Hr' & Hstep & Hend).
  rewrite Hr in Hr'. injection Hr' as <-.
  destruct (pre' ++ post) as [|z rest] eqn:Erest; [by destruct pre', post|].
  destruct Hstep as (ex & sub & Hfx & Htx & Hsub & ->).
  rewrite Hf in Hfx. injection Hfx as <-. rewrite <- Erest in Hsub.
  assert (exists t1, sub = Some t1) as [t1 ->].
  { destruct sub as [t1|]; [by eauto|]. exfalso.
    pose proof (proj1 (removeFileFromTree_None_iff _ _ _ _ _ Hsub) eq_refl) as Hall.
    destruct pre' as [|c' pre''].
    - simpl in Hres. injection Hres as <-. simpl in Hsole, Hall. congruence.
    - rewrite Htx in Hres.
      assert (c' :: pre'' <> []) as Hne by done.
      pose proof (soleChain_app _ _ _ _ _ _ _ Hne Hpost Hres Hall). congruence. }
  destruct (dropEntry c (filterTreeEntries raw) ++ [TreeEntry.mk "040000" c t1 tree])
    as [|e0 es0] eqn:Ees; [by destruct (dropEntry c (filterTreeEntries raw))|].
  destruct Hend as (id & [= <-] & Hw). rewrite <- Ees in Hw.
  apply writeTree_inv in Hw as [G Hw].
  pose proof (findEntry_written c (filterTreeEntries raw)
                (TreeEntry.mk "040000" c t1 tree) eq_refl ltac:(done)) as Hfw.
  rewrite (resolvePath_loop_cons tp c _ (Resolved.mk t "040000" tree) s' _ _
             eq_refl Hw Hfw). cbn [TreeEntry.oid TreeEntry.mode TreeEntry.type].
  destruct pre' as [|c' pre''].
  - destruct (removeFileFromTree_nonempty _ _ _ _ _ Hsub) as (es & Hes & Hne).
    exists t1, es. split_and!; [done | by eapply grows_readObject | done].
  - rewrite Htx in Hres.
    destruct (IH post s _ _ d t1 s1 ltac:(done) Hpost Hres Hsole Hsub)
      as (dir & es & Hdir & Hes & Hne).
    exists dir, es. split_and!; [| by eapply grows_readObject | done].
    by eapply resolvePath_loop_grows.
Qed.

(** ** Running the operations *)

Lemma wrapErrors_Ok {A} op (m : M A) s a s' :
  m s = (Ok a, s') -> wrapErrors op m s = (Ok a, s').
Proof. intros H. unfold wrapErrors, try_catch. by rewrite H. Qed.

Lemma try_resolveRef ref s :
  try_catch (Some <$> resolveRef ref) (fun _ => mret None) s = (Ok (refs s !! ref), s).
Proof.
  unfold try_catch. rewrite fmap_unfold. unfold resolveRef.
  by destruct (refs s !! ref).
Qed.

Lemma resolveRef_Ok ref s id : refs s !! ref = Some id -> resolveRef ref s = (Ok id, s).
Proof. intros H. unfold resolveRef. by rewrite H. Qed.

Lemma readCommit_object id s c :
  readObject id s = Some (CommitObject c) -> readCommit id s = (Ok c, s).
Proof. intros H. unfold readCommit. by rewrite H. Qed.

Lemma writeCommit_spec c s :
  exists id s', writeCommit c s = (Ok id, s') /\ grows s s'
                /\ readObject id s' = Some (CommitObject c).
Proof. apply writeObject_spec. Qed.

Lemma suspended_id s : suspended id s = (Ok tt, s).
Proof. reflexivity. Qed.

Lemma compareAndSwap_Ok ref expectedSha newSha s :
  refs s !! ref = expectedSha ->
  compareAndSwap ref expectedSha newSha s = (Ok tt, setRef ref newSha s).
Proof. intros H. by rewrite compareAndSwap_eval, decide_True. Qed.

Lemma min1_true s : s <> "" -> min1 s = true.
Proof. intros H. unfold min1. by apply bool_decide_eq_true. Qed.

(** One file removed by an operation that runs alone: the commit is built
    on the tree the engine returns, or on the empty tree when the engine
    returns none, and the reference moves to it. *)
Lemma removeFile_run client ref p cm au s parentSha c r s1 :
  ref <> "" -> p <> "" -> optionalAuthor au = true ->
  refs s !! normalizeRef ref = Some parentSha ->
  readObject parentSha s = Some (CommitObject c) ->
  pathPartsOf p <> [] ->
  removeFileFromTree (Some (Commit.tree c)) (pathPartsOf p) s = (Ok r, s1) ->
  exists finalTree s2 newCommit commitSha s3,
    match r with
    | Some t => finalTree = t /\ s2 = s1
    | None => writeTree [] s1 = (Ok finalTree, s2)
    end
    /\ Commit.tree newCommit = finalTree
    /\ Commit.parent newCommit = [parentSha]
    /\ writeCommit newCommit s2 = (Ok commitSha, s3)
    /\ removeFile id client (RemoveFileInput.mk ref p cm au) s
       = (Ok (RemoveFileResult.mk commitSha r), setRef (normalizeRef ref) commitSha s3).
Proof.
  intros Href Hp Hau Hrefs Hc Hparts Hrm.
  pose proof (growing_removeFileFromTree _ _ _ _ _ Hrm) as G1.
  assert (exists finalTree s2,
            (match r with
             | Some t => mret t
             | None => writeTree []
             end : M OID) s1 = (Ok finalTree, s2)
            /\ grows s1 s2
            /\ match r with
               | Some t => finalTree = t /\ s2 = s1
               | None => writeTree [] s1 = (Ok finalTree, s2)
               end) as (finalTree & s2 & Hfin & G2 & Hfin').
  { destruct r as [t|].
    - exists t, s1. split_and!; done.
    - destruct (writeTree_spec [] s1) as (id' & s2 & E & G & _). by exists id', s2. }
  set (author := buildAuthor client (authorOrClient client au)).
  set (msg := default ("Remove " ++ pretty (length [p]) ++ " file"
                       ++ (if decide (length [p] = 1) then "" else "s"))%string cm).
  destruct (writeCommit_spec (Commit.mk msg finalTree [parentSha] author author) s2)
    as (commitSha & s3 & Hwc & G3 & Hrc).
  exists finalTree, s2, (Commit.mk msg finalTree [parentSha] author author), commitSha, s3.
  split_and!; try done.
  unfold removeFile, parse, RemoveFileInputSchema.
  cbn [RemoveFileInput.ref RemoveFileInput.filePath RemoveFileInput.author].
  rewrite !min1_true, Hau by done. cbn [andb]. rewrite bind_unfold, mret_unfold.
  cbn [RemoveFileInput.ref RemoveFileInput.filePath RemoveFileInput.commitMessage
       RemoveFileInput.author].
  rewrite bind_unfold.
  unfold removeManyFiles, parse, RemoveManyFilesInputSchema.
  cbn [RemoveManyFilesInput.ref RemoveManyFilesInput.filePaths
       RemoveManyFilesInput.commitMessage RemoveManyFilesInput.author forallb].
  rewrite !min1_true, Hau by done. rewrite bool_decide_eq_true_2 by done. cbn [andb].
  rewrite (bind_unfold (mret _)), mret_unfold.
  cbn [RemoveManyFilesInput.ref RemoveManyFilesInput.filePaths
       RemoveManyFilesInput.commitMessage RemoveManyFilesInput.author].
  erewrite wrapErrors_Ok; cycle 1.
  { destruct (decide (NoDup [p])) as [_|Hn]; [|destruct Hn; apply NoDup_singleton].
    rewrite bind_unfold, mret_unfold.
    rewrite (bind_Ok _ _ _ _ _ (resolveRef_Ok _ _ _ Hrefs)).
    rewrite (bind_Ok _ _ _ _ _ (readCommit_object _ _ _ Hc)).
    cbn [arrayMap]. destruct (decide (pathPartsOf p = [])) as [|_]; [done|].
    mnorm. cbn [forEach snd].
    rewrite bind_assoc, (bind_Ok _ _ _ _ _ Hrm), bind_mret.
    rewrite (bind_Ok _ _ _ _ _ Hfin). fold author. fold msg.
    rewrite (bind_Ok _ _ _ _ _ Hwc), (bind_Ok _ _ _ _ _ (suspended_id _)).
    assert (refs s3 !! normalizeRef ref = Some parentSha) as Hrefs3.
    { destruct G3 as [_ ->], G2 as [_ ->], G1 as [_ ->]. done. }
    rewrite (bind_Ok _ _ _ _ _ (compareAndSwap_Ok _ _ commitSha _ Hrefs3)).
    reflexivity. }
  reflexivity.
Qed.

(** C6: removing what a path resolves to.  The engine returns; it
    returns absent exactly when the root held nothing but the path.
    Otherwise the tree it returns is stored and has entries, and the path
    does not resolve in it any more; a directory on the path that held
    nothing but the rest of the path does not resolve either, its entry is
    gone from its parent, while a directory on the path that held more is
    still there and is not empty.  No run stores an empty tree.  The
    committing caller, given an author the schema accepts and running
    alone, builds its commit on the returned tree, or, when the engine
    returned absent, on the empty tree object it writes for the purpose,
    and reports the engine's answer as [treeSha]. *)
Theorem removal_prunes_empty_directories (client : Client) (ref p : string)
    (cm : option string) (au : option Author) (s : Store) (parentSha : OID)
    (c : Commit.t) (e : Resolved.t) :
  ref <> "" ->
  optionalAuthor au = true ->
  pathPartsOf p <> [] ->
  refs s !! normalizeRef ref = Some parentSha ->
  readObject parentSha s = Some (CommitObject c) ->
  resolvePath (Commit.tree c) p s = (Ok e, s) ->
  exists r s1,
    removeFileFromTree (Some (Commit.tree c)) (pathPartsOf p) s = (Ok r, s1)
    /\ (r = None <-> holdsOnly s (Commit.tree c) (pathPartsOf p) = true)
    /\ (forall t, r = Some t ->
          (exists es, readObject t s1 = Some (TreeObject es) /\ es <> [])
          /\ resolvePath t p s1 = (Err (notFound "Path"), s1)
          /\ forall pre post d,
               pathPartsOf p = pre ++ post -> pre <> [] -> post <> [] ->
               resolvePath_loop p pre (Resolved.mk (Commit.tree c) "040000" tree) s
                 = (Ok d, s) ->
               if holdsOnly s (Resolved.sha d) post
               then resolvePath_loop p pre (Resolved.mk t "040000" tree) s1
                    = (Err (notFound "Path"), s1)
               else exists dir es,
                      resolvePath_loop p pre (Resolved.mk t "040000" tree) s1
                        = (Ok (Resolved.mk dir "040000" tree), s1)
                      /\ readObject dir s1 = Some (TreeObject es) /\ es <> [])
    /\ (forall i, readObject i s1 = Some (TreeObject []) ->
          readObject i s = Some (TreeObject []))
    /\ exists res s' newCommit,
         removeFile id client (RemoveFileInput.mk ref p cm au) s = (Ok res, s')
         /\ RemoveFileResult.treeSha res = r
         /\ refs s' !! normalizeRef ref = Some (RemoveFileResult.commitSha res)
         /\ readObject (RemoveFileResult.commitSha res) s' = Some (CommitObject newCommit)
         /\ Commit.parent newCommit = [parentSha]
         /\ match r with
            | Some t => Commit.tree newCommit = t
            | None => readObject (Commit.tree newCommit) s' = Some (TreeObject [])
            end.
Proof.
  intros Href Hau Hparts Hrefs Hc Hres.
  assert (p <> "") as Hp by (by intros ->).
  assert (resolvePath_loop p (pathPartsOf p) (Resolved.mk (Commit.tree c) "040000" tree) s
          = (Ok e, s)) as Hloop.
  { unfold resolvePath in Hres. by destruct (pathPartsOf p). }
  destruct (removeFileFromTree_total _ _ _ _ _ _ Hparts Hloop) as (r & s1 & Hrm).
  exists r, s1. split_and!; [done | | | |].
  - rewrite holdsOnly_soleChain. by eapply removeFileFromTree_None_iff.
  - intros t ->. split_and!.
    + by eapply removeFileFromTree_nonempty.
    + unfold resolvePath. destruct (pathPartsOf p) as [|x rest] eqn:Ep; [done|].
      by eapply removeFileFromTree_unresolvable.
    + intros pre post d Hsplit Hpre Hpost Hd. rewrite Hsplit in Hrm.
      rewrite holdsOnly_soleChain.
      destruct (soleChain s (Resolved.sha d) post) eqn:Hsole.
      * by eapply removeFileFromTree_drops.
      * by eapply removeFileFromTree_keeps.
  - intros i Hi.
    destruct (adds_readObject _ _ _ _ _ (removeFileFromTree_adds _ _ _ _ _ Hrm) Hi);
      [done | by exfalso].
  - destruct (removeFile_run client ref p cm au s parentSha c r s1
                Href Hp Hau Hrefs Hc Hparts Hrm)
      as (finalTree & s2 & newCommit & commitSha & s3 & Hfin & Htree & Hpar & Hwc & Hrun).
    eexists _, _, newCommit. split; [exact Hrun|].
    destruct (writeCommit_spec newCommit s2) as (id' & s3' & Hwc' & G3 & Hrc).
    rewrite Hwc in Hwc'. injection Hwc' as <- <-.
    split_and!; simpl; [done | apply lookup_insert_eq | done | done |].
    destruct r as [t|]; [by destruct Hfin as [-> _]; congruence|].
    apply writeTree_inv in Hfin as [_ Hfin]. rewrite Htree.
    change (readObject finalTree s3 = Some (TreeObject [])).
    by eapply grows_readObject.
Qed.

(** ** What an operation can throw *)

Section ThrowsOnly.
Context (E : Error -> Prop).

Lemma throwsOnly_ret {A} (a : A) : throwsOnly E (mret a : M A).
Proof. intros s e s' [=]. Qed.

Lemma throwsOnly_throw {A} e : E e -> throwsOnly E (throw e : M A).
Proof. by intros He s e' s' [= <- _]. Qed.

Lemma throwsOnly_bind {A B} (m : M A) (f : A -> M B) :
  throwsOnly E m -> (forall a, throwsOnly E (f a)) -> throwsOnly E (m ≫= f).
Proof.
  intros Hm Hf s e s'. rewrite bind_unfold.
  destruct (m s) as [[a|e0] s1] eqn:Em; intros H.
  - by eapply Hf.
  - injection H as <- <-. by eapply Hm.
Qed.

Lemma throwsOnly_fmap {A B} (g : A -> B) (m : M A) :
  throwsOnly E m -> throwsOnly E (g <$> m).
Proof.
  intros Hm s e s'. rewrite fmap_unfold.
  destruct (m s) as [[a|e0] s1] eqn:Em; intros [= <- <-]. by eapply Hm.
Qed.

Lemma throwsOnly_forEach {A S} (l : list A) (body : S -> A -> M S) acc :
  (forall a x, throwsOnly E (body a x)) -> throwsOnly E (forEach l body acc).
Proof.
  intros Hb. revert acc. induction l as [|x l IH]; intros acc; simpl.
  - apply throwsOnly_ret.
  - apply throwsOnly_bind; [apply Hb | intros; apply IH].
Qed.

Lemma throwsOnly_arrayMap {A B} (f : A -> M B) (l : list A) :
  (forall x, throwsOnly E (f x)) -> throwsOnly E (arrayMap f l).
Proof.
  intros Hf. induction l as [|x l IH]; simpl.
  - apply throwsOnly_ret.
  - apply throwsOnly_bind; [apply Hf | intros].
    apply throwsOnly_bind; [apply IH | intros; apply throwsOnly_ret].
Qed.

Lemma throwsOnly_mapAwait {A B} (f : A -> M B) (l : list A) :
  (forall x, throwsOnly E (f x)) -> throwsOnly E (mapAwait f l).
Proof.
  intros Hf. induction l as [|x l IH]; simpl.
  - apply throwsOnly_ret.
  - intros s e s'. destruct (f x s) as [r1 s1] eqn:E1.
    destruct (mapAwait f l s1) as [rs s2] eqn:E2. intros H.
    destruct r1 as [y|e1].
    + destruct rs as [ys|e2]; [done|]. injection H as <- <-. by eapply IH.
    + injection H as <- <-. by eapply Hf.
Qed.

(** When every callback succeeds, the callbacks have run one after the
    other. *)
Lemma mapAwait_Ok {A B} (f : A -> M B) (l : list A) s ys s' :
  mapAwait f l s = (Ok ys, s') <-> arrayMap f l s = (Ok ys, s').
Proof.
  revert s ys s'. induction l as [|x l IH]; intros s ys s'; simpl; [done|].
  rewrite bind_unfold. destruct (f x s) as [[y|e] s1].
  - rewrite bind_unfold. specialize (IH s1).
    destruct (mapAwait f l s1) as [[zs|e] s2], (arrayMap f l s1) as [[zs'|e'] s2'].
    + pose proof (proj1 (IH zs s2) eq_refl) as [= -> ->]. done.
    + by specialize (proj1 (IH zs s2) eq_refl).
    + by specialize (proj2 (IH zs' s2') eq_refl).
    + done.
  - by destruct (mapAwait f l s1) as [[]].
Qed.

Lemma throwsOnly_writeObject o : throwsOnly E (writeObject o).
Proof.
  intros s e s'. unfold writeObject. by destruct (list_find _ (objects s)) as [[]|].
Qed.

Lemma throwsOnly_weaken {A} (E' : Error -> Prop) (m : M A) :
  (forall e, E' e -> E e) -> throwsOnly E' m -> throwsOnly E m.
Proof. intros Hw Hm s e s' H. by eapply Hw, Hm. Qed.

End ThrowsOnly.

Lemma throwsOnly_readTree id : throwsOnly libraryError (readTree id).
Proof.
  intros s e s'. unfold readTree.
  destruct (readObject id s) as [[]|]; intros [= <- _]; by eexists.
Qed.

Lemma throwsOnly_readCommit id : throwsOnly libraryError (readCommit id).
Proof.
  intros s e s'. unfold readCommit.
  destruct (readObject id s) as [[]|]; intros [= <- _]; by eexists.
Qed.

(** The upsert fails only when the library does. *)
Lemma throwsOnly_upsertFileInTree root parts blobSha :
  throwsOnly libraryError (upsertFileInTree root parts blobSha).
Proof.
  revert root. induction parts as [|x rest IH]; intros root; simpl.
  - apply throwsOnly_bind; [|intros; apply throwsOnly_throw; by eexists].
    destruct root; [|apply throwsOnly_ret].
    apply throwsOnly_bind; [apply throwsOnly_readTree | intros; apply throwsOnly_ret].
  - apply throwsOnly_bind.
    { destruct root; [|apply throwsOnly_ret].
      apply throwsOnly_bind; [apply throwsOnly_readTree | intros; apply throwsOnly_ret]. }
    intros entries. destruct rest as [|y rest']; [apply throwsOnly_writeObject|].
    apply throwsOnly_bind.
    { destruct root; [|apply throwsOnly_ret].
      apply throwsOnly_bind; [apply throwsOnly_readTree | intros; apply throwsOnly_ret]. }
    intros existing. apply throwsOnly_bind; [apply IH | intros].
    apply throwsOnly_writeObject.
Qed.

Lemma wrapErrors_inv_Ok {A} op (m : M A) s a s' :
  wrapErrors op m s = (Ok a, s') -> m s = (Ok a, s').
Proof.
  unfold wrapErrors, try_catch. destruct (m s) as [[a0|e] s1]; [done|].
  by destruct e.
Qed.


(** ** Adding to a branch that does not exist *)




Lemma growing_fileProcessing file : growing (fileProcessing file).
Proof.
  unfold fileProcessing. apply respects_bind; try apply _; [apply growing_writeObject|].
  intros blobSha. cbv zeta.
  case_decide; [apply respects_throw | apply respects_ret]; apply _.
Qed.

Lemma growing_addManyFiles_loop processed root : growing (addManyFiles_loop processed root).
Proof.
  apply respects_forEach; try apply _. intros cur file.
  apply respects_fmap, growing_upsertFileInTree.
Qed.

(** What a successful [addManyFiles] did, whatever the other writers do
    meanwhile: it read the parent OID, built the tree over the parent's
    tree (over none when the reference did not resolve), wrote a commit with
    that parent, and then found the reference still at the parent OID and
    moved it to the commit. *)
Lemma addManyFiles_inv_Ok concurrent client input s res s' :
  addManyFiles concurrent client input s = (Ok res, s') ->
  let ref := normalizeRef (AddManyFilesInput.ref input) in
  let parentSha := refs s !! ref in
  exists rootTreeSha processed s1 s2 s3 c,
    match parentSha with
    | Some p => exists pc, readObject p s = Some (CommitObject pc)
                           /\ rootTreeSha = Some (Commit.tree pc)
    | None => rootTreeSha = None
    end
    /\ mapAwait fileProcessing (AddManyFilesInput.files input) s = (Ok processed, s1)
    /\ addManyFiles_loop processed rootTreeSha s1
       = (Ok (Some (AddManyFilesResult.treeSha res)), s2)
    /\ writeCommit c s2 = (Ok (AddManyFilesResult.commitSha res), s3)
    /\ Commit.parent c = match parentSha with Some p => [p] | None => [] end
    /\ Commit.tree c = AddManyFilesResult.treeSha res
    /\ refs (concurrent s3) !! ref = parentSha
    /\ s' = setRef ref (AddManyFilesResult.commitSha res) (concurrent s3).
Proof.
  unfold addManyFiles. intros H. cbv zeta.
  apply bind_inv_Ok in H as (validated & s0 & Hparse & H).
  assert (validated = input /\ s0 = s) as [-> ->].
  { unfold parse in Hparse. destruct (AddManyFilesInputSchema input); [|done].
    by injection Hparse as <- <-. }
  apply wrapErrors_inv_Ok in H.
  apply bind_inv_Ok in H as (parentSha & s0 & Hpar & H).
  rewrite try_resolveRef in Hpar. injection Hpar as <- <-.
  apply bind_inv_Ok in H as (rootTreeSha & s0 & Hroot & H).
  assert (s0 = s /\ match refs s !! normalizeRef (AddManyFilesInput.ref input) with
                    | Some p => exists pc, readObject p s = Some (CommitObject pc)
                                           /\ rootTreeSha = Some (Commit.tree pc)
                    | None => rootTreeSha = None
                    end) as [-> Hroot'].
  { destruct (refs s !! _) as [p|]; [|by injection Hroot as <- <-].
    apply bind_inv_Ok in Hroot as (pc & s0' & Hrc & Hroot). injection Hroot as <- <-.
    unfold readCommit in Hrc. destruct (readObject p s) as [[| |pc']|]; try done.
    injection Hrc as <- <-. eauto. }
  apply bind_inv_Ok in H as (processed & s1 & Hproc & H).
  apply bind_inv_Ok in H as (cur & s2 & Hloop & H).
  destruct cur as [newTree|]; [|done].
  apply bind_inv_Ok in H as (commitSha & s3 & Hwc & H).
  apply bind_inv_Ok in H as ([] & s4 & Hsus & H).
  injection Hsus as <-.
  apply bind_inv_Ok in H as ([] & s5 & Hcas & H).
  injection H as <- <-. simpl.
  rewrite compareAndSwap_eval in Hcas. case_decide as Hexp; [|done].
  injection Hcas as <-.
  eexists rootTreeSha, processed, s1, s2, s3, _. split_and!; try done.
Qed.


(** ** Listing a directory *)

Lemma insertBy_Permutation {A} (cmp : A -> A -> Z) x l : insertBy cmp x l ≡ₚ x :: l.
Proof.
  induction l as [|y l IH]; [done|]. simpl.
  destruct (cmp x y <=? 0)%Z; [done|]. rewrite IH. apply Permutation_swap.
Qed.

Lemma sortBy_Permutation {A} (cmp : A -> A -> Z) l : sortBy cmp l ≡ₚ l.
Proof.
  induction l as [|x l IH]; [done|]. simpl. by rewrite insertBy_Permutation, IH.
Qed.

Section SortBy.
Context {A : Type} (cmp : A -> A -> Z) (P : A -> Prop).
Hypothesis cmp_total : forall a b, P a -> P b -> (cmp a b <= 0)%Z \/ (cmp b a <= 0)%Z.
Hypothesis cmp_trans : forall a b c, P a -> P b -> P c ->
  (cmp a b <= 0)%Z -> (cmp b c <= 0)%Z -> (cmp a c <= 0)%Z.

Local Abbreviation le := (fun a b : A => (cmp a b <= 0)%Z).

Lemma insertBy_sorted x l :
  P x -> Forall P l -> StronglySorted le l -> StronglySorted le (insertBy cmp x l).
Proof.
  intros Hx Hl Hs. induction Hs as [|y l Hs IH Hy]; simpl.
  - repeat constructor.
  - apply Forall_cons in Hl as [Py Pl].
    destruct (Z.leb_spec (cmp x y) 0) as [Hle | Hgt].
    + constructor; [by constructor|]. constructor; [done|].
      rewrite Forall_forall in Hy, Pl |- *. intros z Hz.
      apply (cmp_trans x y z); [done | done | by apply Pl | done | by apply Hy].
    + constructor; [by apply IH|].
      rewrite insertBy_Permutation. constructor; [|done].
      destruct (cmp_total x y Hx Py); [lia | done].
Qed.

Lemma sortBy_sorted l : Forall P l -> StronglySorted le (sortBy cmp l).
Proof.
  induction 1 as [|x l Hx Hl IH]; simpl; [constructor|].
  apply insertBy_sorted; [done | | done].
  by rewrite sortBy_Permutation.
Qed.
End SortBy.

Section Listing.
Context (localeCompare : string -> string -> Z).
Hypothesis localeCompare_total :
  forall a b, (localeCompare a b <= 0)%Z \/ (localeCompare b a <= 0)%Z.
Hypothesis localeCompare_trans :
  forall a b c, (localeCompare a b <= 0)%Z -> (localeCompare b c <= 0)%Z ->
                (localeCompare a c <= 0)%Z.

Lemma compareEntries_listedBefore a b :
  TreeEntry.type a <> commit -> TreeEntry.type b <> commit ->
  (compareEntries localeCompare a b <= 0)%Z <-> listedBefore localeCompare a b.
Proof.
  unfold compareEntries, listedBefore. intros Ha Hb.
  destruct (TreeEntry.type a), (TreeEntry.type b); try done;
    repeat case_decide; try done; split; try lia; by intuition congruence.
Qed.

Lemma listing_sorted l :
  StronglySorted (listedBefore localeCompare)
    (sortBy (compareEntries localeCompare) (filterTreeEntries l)).
Proof.
  set (P := fun e : TreeEntry.t => TreeEntry.type e <> commit).
  assert (Forall P (filterTreeEntries l)) as HP.
  { rewrite Forall_forall. intros e He. unfold filterTreeEntries in He.
    by apply list_elem_of_filter in He as [? _]. }
  assert (Forall P (sortBy (compareEntries localeCompare) (filterTreeEntries l))) as HP'.
  { by rewrite sortBy_Permutation. }
  pose proof (sortBy_sorted (compareEntries localeCompare) P) as Hs.
  cbv zeta in Hs. specialize (Hs
    ltac:(intros a b Ha Hb; unfold compareEntries;
          destruct (TreeEntry.type a) eqn:Ea, (TreeEntry.type b) eqn:Eb; try done;
          repeat case_decide; try done; try (by left); try (by right);
          apply localeCompare_total)
    ltac:(intros a b c Ha Hb Hc; unfold compareEntries;
          destruct (TreeEntry.type a) eqn:Ea, (TreeEntry.type b) eqn:Eb,
            (TreeEntry.type c) eqn:Ec; try done;
          repeat case_decide; try done; try lia; apply localeCompare_trans)
    _ HP).
  revert Hs HP'. generalize (sortBy (compareEntries localeCompare) (filterTreeEntries l)).
  intros l' Hs. induction Hs as [|x l' Hs IH Hx]; intros HP'; [constructor|].
  apply Forall_cons in HP' as [Px Pl]. constructor; [by apply IH|].
  rewrite Forall_forall in Hx, Pl |- *. intros y Hy.
  apply compareEntries_listedBefore; [done | by apply Pl | by apply Hx].
Qed.
End Listing.

(** C9 (amended): for a reference that resolves to a commit and a folder
    path that resolves, in the tree of the commit, to a directory,
    [listFiles] returns the blob and tree entries of the directory, each
    once, in an order in which every directory entry stands before every
    file entry and two entries of one kind stand in the order the
    [localeCompare] of the host gives their names, which is the order of
    its collation and not the lexicographic order of the names.
    [localeCompare] is taken to be a total preorder, as the collation of a
    locale is. *)
Theorem listFiles_sorted (localeCompare : string -> string -> Z)
    (ref folderPath : string) (s : Store) (commitSha : OID) (c : Commit.t)
    (target : Resolved.t) (raw : list TreeEntry.t) :
  (forall a b, (localeCompare a b <= 0)%Z \/ (localeCompare b a <= 0)%Z) ->
  (forall a b c, (localeCompare a b <= 0)%Z -> (localeCompare b c <= 0)%Z ->
                 (localeCompare a c <= 0)%Z) ->
  ref <> "" ->
  refs s !! ref = Some commitSha ->
  readObject commitSha s = Some (CommitObject c) ->
  resolvePath (Commit.tree c) folderPath s = (Ok target, s) ->
  Resolved.type target = tree ->
  readObject (Resolved.sha target) s = Some (TreeObject raw) ->
  exists entries,
    listFiles localeCompare (ListFilesInput.mk ref folderPath) s = (Ok entries, s)
    /\ entries ≡ₚ filterTreeEntries raw
    /\ StronglySorted (listedBefore localeCompare) entries.
Proof.
  intros Htotal Htrans Href Hrefs Hc Hres Ht Hraw.
  exists (sortBy (compareEntries localeCompare) (filterTreeEntries raw)).
  split_and!; [| apply sortBy_Permutation | by apply listing_sorted].
  unfold listFiles, parse, ListFilesInputSchema. cbn [ListFilesInput.ref].
  rewrite min1_true by done. rewrite bind_mret.
  cbn [ListFilesInput.ref ListFilesInput.folderPath].
  apply wrapErrors_Ok.
  rewrite (bind_Ok _ _ _ _ _ (resolveRef_Ok _ _ _ Hrefs)).
  rewrite (bind_Ok _ _ _ _ _ (readCommit_object _ _ _ Hc)).
  assert ((if decide (folderPath <> "") then
             target0 ← resolvePath (Commit.tree c) folderPath;
             if decide (Resolved.type target0 <> tree)
             then throw (invalidPath folderPath)
             else mret (Resolved.sha target0)
           else mret (Commit.tree c) : M OID) s = (Ok (Resolved.sha target), s)) as Htarget.
  { case_decide as Hf.
    - rewrite (bind_Ok _ _ _ _ _ Hres). by rewrite decide_False by (by intros []).
    - destruct (decide (folderPath = "")) as [->|]; [|done].
      by injection Hres as <-. }
  rewrite (bind_Ok _ _ _ _ _ Htarget).
  by rewrite (bind_Ok _ _ _ _ _ (readTree_object _ _ _ Hraw)).
Qed.

(** ** Merging *)

Lemma mergeEntry_adds recurse baseEntries ourEntries theirEntries resolutions acc p :
  (forall b o t, respects (adds notCommit) (recurse b o t)) ->
  respects (adds notCommit)
    (mergeEntry recurse baseEntries ourEntries theirEntries resolutions acc p).
Proof.
  intros Hrec. unfold mergeEntry. destruct acc as [newEntries conflicts]. cbv zeta.
  destruct (_ || _).
  { apply respects_bind; try apply _; [apply Hrec | intros; apply respects_ret; apply _]. }
  repeat (case_decide; [apply respects_ret; apply _|]).
  destruct (getProperty resolutions p) as [text| |];
    [|apply respects_throw; apply _|apply respects_ret; apply _].
  case_decide; [apply respects_ret; apply _|].
  apply respects_bind; try apply _; [|intros; apply respects_ret; apply _].
  intros ? ? ? Hw. eapply (writeObject_adds notCommit (BlobObject _)); [done | exact Hw].
Qed.

(** The merge of two trees stores blobs and trees, no commit, and leaves
    the references alone. *)
Lemma mergeTrees_adds fuel : forall b o t resolutions,
  respects (adds notCommit) (mergeTrees fuel b o t resolutions).
Proof.
  induction fuel as [|fuel IH]; intros b o t resolutions; simpl.
  - apply respects_throw; apply _.
  - repeat (apply respects_bind; try apply _; [apply respects_readTreeEntries; apply _|];
            intros ?).
    apply respects_bind; try apply _.
    { apply respects_forEach; try apply _. intros acc p.
      apply mergeEntry_adds. intros. apply IH. }
    intros [newEntries conflicts].
    repeat (case_decide; [apply respects_ret; apply _|]).
    apply respects_bind; try apply _; [|intros; apply respects_ret; apply _].
    intros ? ? ? Hw. eapply (writeObject_adds notCommit (TreeObject _)); [done | exact Hw].
Qed.

(** The run of [mergeBranches] when the merge of the trees leaves
    conflicts and no resolution map was given. *)
Lemma mergeBranches_conflict_run (concurrent : Store -> Store)
    (findMergeBase : Store -> OID -> OID -> list OID) (fuel : nat) (client : Client)
    (sourceBranch destinationBranch : string) (cm : option string) (au : option Author)
    (s : Store) (sourceSha destSha baseSha : OID) (otherBases : list OID)
    (baseCommit sourceCommit destCommit : Commit.t) (result : MergeResult.t) (s1 : Store) :
  sourceBranch <> "" -> destinationBranch <> "" -> optionalAuthor au = true ->
  refs s !! normalizeRef sourceBranch = Some sourceSha ->
  refs s !! normalizeRef destinationBranch = Some destSha ->
  findMergeBase s destSha sourceSha = baseSha :: otherBases ->
  readObject baseSha s = Some (CommitObject baseCommit) ->
  readObject sourceSha s = Some (CommitObject sourceCommit) ->
  readObject destSha s = Some (CommitObject destCommit) ->
  mergeTrees fuel (Some (Commit.tree baseCommit)) (Some (Commit.tree destCommit))
    (Some (Commit.tree sourceCommit)) ∅ s = (Ok result, s1) ->
  MergeResult.conflicts result <> [] ->
  mergeBranches concurrent findMergeBase fuel client
    (MergeBranchesInput.mk sourceBranch destinationBranch None cm au) s
    = (Err (mergeConflict (MergeResult.conflicts result)), s1)
  /\ refs s1 = refs s
  /\ (forall id c, readObject id s1 = Some (CommitObject c) ->
                   readObject id s = Some (CommitObject c)).
Proof.
  intros Hsrc Hdst Hau Hrs Hrd Hmb Hbc Hsc Hdc Hmerge Hconf.
  pose proof (mergeTrees_adds _ _ _ _ _ _ _ _ Hmerge) as Hadds.
  split_and!.
  - unfold mergeBranches, parse, MergeBranchesInputSchema.
    cbn [MergeBranchesInput.sourceBranch MergeBranchesInput.destinationBranch
         MergeBranchesInput.author].
    rewrite !min1_true, Hau by done. cbn [andb]. rewrite bind_mret.
    cbn [MergeBranchesInput.sourceBranch MergeBranchesInput.destinationBranch
         MergeBranchesInput.resolutions].
    unfold wrapErrors, try_catch.
    rewrite (bind_Ok _ _ _ _ _ (resolveRef_Ok _ _ _ Hrs)).
    rewrite (bind_Ok _ _ _ _ _ (resolveRef_Ok _ _ _ Hrd)).
    rewrite bind_unfold, Hmb.
    rewrite (bind_Ok _ _ _ _ _ (readCommit_object _ _ _ Hbc)).
    rewrite (bind_Ok _ _ _ _ _ (readCommit_object _ _ _ Hsc)).
    rewrite (bind_Ok _ _ _ _ _ (readCommit_object _ _ _ Hdc)).
    cbn [default]. rewrite (bind_Ok _ _ _ _ _ Hmerge).
    by rewrite decide_True.
  - by destruct Hadds as [? _].
  - intros id c Hid. by destruct (adds_readObject _ _ _ _ _ Hadds Hid).
Qed.

(** ** The stored form of a tree *)

Lemma leb_iff (a b : string) :
  String.leb a b = true <-> a = b \/ String_as_OT.lt a b.
Proof.
  unfold String.leb. destruct (String.compare a b) eqn:E.
  - apply String_as_OT.cmp_eq in E. tauto.
  - apply String_as_OT.cmp_lt in E. tauto.
  - split; [done|]. intros [-> | Hlt].
    + pose proof (String.compare_antisym b b) as H. rewrite E in H. done.
    + apply String_as_OT.cmp_lt in Hlt. unfold String_as_OT.cmp in Hlt. congruence.
Qed.

Lemma leb_trans (a b c : string) :
  String.leb a b = true -> String.leb b c = true -> String.leb a c = true.
Proof.
  rewrite !leb_iff. intros [-> | H1] [-> | H2]; eauto.
  right. by eapply String_as_OT.lt_trans.
Qed.

Lemma insertEntry_sorted x l :
  StronglySorted nameLe l -> StronglySorted nameLe (insertEntry x l).
Proof.
  intros Hs. induction Hs as [|y l Hs IH Hy]; simpl.
  - repeat constructor.
  - destruct (String.leb (TreeEntry.path x) (TreeEntry.path y)) eqn:Hle.
    + constructor; [by constructor|]. constructor; [done|].
      rewrite Forall_forall in Hy |- *. intros z Hz.
      eapply leb_trans; [exact Hle | by apply Hy].
    + constructor; [done|]. rewrite insertEntry_Permutation. constructor; [|done].
      destruct (String.leb_total (TreeEntry.path x) (TreeEntry.path y)); [congruence | done].
Qed.

Lemma sortEntries_sorted l : StronglySorted nameLe (sortEntries l).
Proof.
  induction l as [|x l IH]; simpl; [constructor | by apply insertEntry_sorted].
Qed.

Lemma NoDup_path_inj l a b :
  NoDup (TreeEntry.path <$> l) -> a ∈ l -> b ∈ l ->
  TreeEntry.path a = TreeEntry.path b -> a = b.
Proof.
  intros Hnd Ha Hb Hp.
  pose proof (filter_path_NoDup _ l a Hnd Ha eq_refl) as H1.
  pose proof (filter_path_NoDup _ l b Hnd Hb (eq_sym Hp)) as H2.
  congruence.
Qed.

(** A tree has one stored form: two lists with the same entries and
    unique names are stored as the same list. *)
Lemma sortEntries_canonical l1 l2 :
  l1 ≡ₚ l2 -> NoDup (TreeEntry.path <$> l2) -> sortEntries l2 = l2 ->
  sortEntries l1 = l2.
Proof.
  intros Hperm Hnd Hsorted.
  apply (StronglySorted_unique_strong nameLe).
  - intros x1 x2 H1 H2 H12 H21.
    rewrite sortEntries_Permutation, Hperm in H1.
    apply (NoDup_path_inj l2); [done..|].
    by apply String.leb_antisym.
  - apply sortEntries_sorted.
  - rewrite <- Hsorted. apply sortEntries_sorted.
  - by rewrite sortEntries_Permutation.
Qed.

(** ** The JavaScript containers of the merge *)

Lemma mapSet_fresh k v (m : EntryMap) : k ∉ m.*1 -> mapSet k v m = m ++ [(k, v)].
Proof.
  induction m as [|[k' v'] m IH]; [done|]. simpl. intros Hk.
  apply not_elem_of_cons in Hk as [Hne Hk].
  rewrite decide_False by done. by rewrite IH.
Qed.

Lemma newMap_NoDup (l : list TreeEntry.t) :
  NoDup (TreeEntry.path <$> l) ->
  newMap (map (fun e => (TreeEntry.path e, e)) l) = map (fun e => (TreeEntry.path e, e)) l.
Proof.
  unfold newMap. intros Hnd.
  enough (forall acc : EntryMap,
            (forall e, e ∈ l -> TreeEntry.path e ∉ acc.*1) ->
            fold_left (fun m kv => mapSet kv.1 kv.2 m)
              (map (fun e => (TreeEntry.path e, e)) l) acc
            = acc ++ map (fun e => (TreeEntry.path e, e)) l) as H.
  { apply (H []). intros e _. apply not_elem_of_nil. }
  induction l as [|x l IH]; intros acc Hacc; simpl; [by rewrite app_nil_r|].
  rewrite fmap_cons in Hnd. apply NoDup_cons in Hnd as [Hx Hnd].
  rewrite mapSet_fresh by (apply Hacc; left).
  rewrite IH; [by rewrite <- app_assoc | done |].
  intros e He. rewrite fmap_app, elem_of_app. intros [Hin | Hin].
  - eapply Hacc; [by right | done].
  - simpl in Hin. apply list_elem_of_singleton in Hin. apply Hx. rewrite <- Hin.
    by apply list_elem_of_fmap_2.
Qed.

Lemma mapGet_entries p (l : list TreeEntry.t) :
  mapGet p (map (fun e => (TreeEntry.path e, e)) l) = findEntry p l.
Proof.
  unfold mapGet, findEntry. induction l as [|x l IH]; [done|].
  rewrite map_cons, (filter_cons _ x), (filter_cons _ (TreeEntry.path x, x)).
  destruct (decide (TreeEntry.path x = p)) as [Hp|Hp].
  - by rewrite decide_True by done.
  - by rewrite decide_False by done.
Qed.

Lemma mapKeys_entries (l : list TreeEntry.t) :
  mapKeys (map (fun e => (TreeEntry.path e, e)) l) = TreeEntry.path <$> l.
Proof. unfold mapKeys. induction l as [|x l IH]; [done|]. cbn. f_equal. exact IH. Qed.

Lemma newSet_spec (l : list string) :
  NoDup (newSet l) /\ forall x, x ∈ newSet l <-> x ∈ l.
Proof.
  unfold newSet.
  enough (forall acc : list string, NoDup acc ->
            NoDup (fold_left (fun acc x => if decide (x ∈ acc) then acc else acc ++ [x]) l acc)
            /\ forall x, x ∈ fold_left
                           (fun acc x => if decide (x ∈ acc) then acc else acc ++ [x]) l acc
                         <-> x ∈ acc \/ x ∈ l) as H.
  { destruct (H [] (NoDup_nil_2)) as [H1 H2]. split; [done|].
    intros x. rewrite H2. rewrite elem_of_nil. tauto. }
  induction l as [|y l IH]; intros acc Hacc; simpl.
  - split; [done|]. intros x. rewrite elem_of_nil. tauto.
  - case_decide as Hy.
    + destruct (IH acc Hacc) as [H1 H2]. split; [done|].
      intros x. rewrite H2, elem_of_cons. by intuition congruence.
    + destruct (IH (acc ++ [y])) as [H1 H2].
      { apply NoDup_app. split_and!; [done | | apply NoDup_singleton].
        intros x Hx Hx'. apply list_elem_of_singleton in Hx' as ->. done. }
      split; [done|]. intros x. rewrite H2, elem_of_app, list_elem_of_singleton, elem_of_cons.
      tauto.
Qed.

Lemma filterTreeEntries_id l :
  Forall (fun e => TreeEntry.type e <> commit) l -> filterTreeEntries l = l.
Proof.
  induction 1 as [|x l Hx _ IH]; [done|]. unfold filterTreeEntries in *.
  by rewrite filter_cons, decide_True, IH.
Qed.

Lemma readTreeEntries_entriesOf s t es :
  entriesOf s t = Some es ->
  Forall (fun e => TreeEntry.type e <> commit) es ->
  NoDup (TreeEntry.path <$> es) ->
  readTreeEntries t s = (Ok (map (fun e => (TreeEntry.path e, e)) es), s).
Proof.
  intros He Hc Hnd. destruct t as [id|]; simpl in *.
  - destruct (readObject id s) as [[| es' |]|] eqn:Hr; try done. injection He as ->.
    rewrite (bind_Ok _ _ _ _ _ (readTree_object _ _ _ Hr)).
    by rewrite filterTreeEntries_id, newMap_NoDup.
  - by injection He as <-.
Qed.

(** ** Merging into a side that has not changed *)

Lemma findEntry_Some p l e :
  findEntry p l = Some e -> e ∈ l /\ TreeEntry.path e = p.
Proof.
  intros H. apply head_Some_elem_of in H. apply list_elem_of_filter in H. tauto.
Qed.

Lemma findEntry_NoDup l e :
  NoDup (TreeEntry.path <$> l) -> e ∈ l -> findEntry (TreeEntry.path e) l = Some e.
Proof.
  intros Hnd He. unfold findEntry. by rewrite (filter_path_NoDup _ l e Hnd He eq_refl).
Qed.

Lemma elem_of_takeTheirs tes ps x :
  x ∈ takeTheirs tes ps <-> exists p, p ∈ ps /\ findEntry p tes = Some x.
Proof.
  induction ps as [|p ps IH]; simpl.
  - rewrite elem_of_nil. split; [done|]. intros (p & Hp & _). by apply elem_of_nil in Hp.
  - rewrite elem_of_app, IH. split.
    + intros [Hx | (q & Hq & Hf)].
      * exists p. split; [left|]. destruct (findEntry p tes); simpl in Hx;
          [by apply list_elem_of_singleton in Hx as -> | by apply elem_of_nil in Hx].
      * exists q. split; [by right | done].
    + intros (q & Hq & Hf). apply elem_of_cons in Hq as [-> | Hq].
      * left. rewrite Hf. simpl. by left.
      * right. eauto.
Qed.

Lemma takeTheirs_paths tes ps :
  TreeEntry.path <$> takeTheirs tes ps = filter (fun p => is_Some (findEntry p tes)) ps.
Proof.
  induction ps as [|p ps IH]; [done|]. simpl. rewrite fmap_app, IH, filter_cons.
  destruct (findEntry p tes) as [e|] eqn:E.
  - rewrite decide_True by eauto. apply findEntry_Some in E as [_ <-]. done.
  - rewrite decide_False; [done|]. by intros [? ?].
Qed.

(** Taken under a duplicate-free list of names that covers them, the
    entries of [theirs] are all there, each once. *)
Lemma takeTheirs_Permutation tes ps :
  NoDup (TreeEntry.path <$> tes) -> NoDup ps ->
  (forall e, e ∈ tes -> TreeEntry.path e ∈ ps) ->
  takeTheirs tes ps ≡ₚ tes.
Proof.
  intros Hnd Hps Hcover. apply NoDup_Permutation.
  - apply (NoDup_fmap_1 TreeEntry.path). rewrite takeTheirs_paths. by apply NoDup_filter.
  - by apply (NoDup_fmap_1 TreeEntry.path).
  - intros x. rewrite elem_of_takeTheirs. split.
    + intros (p & _ & Hf). by apply findEntry_Some in Hf as [? _].
    + intros Hx. exists (TreeEntry.path x). split; [by apply Hcover|].
      by apply findEntry_NoDup.
Qed.

Section FastForward.
Context (d : nat) (s : Store) (resolutions : gmap string string).
Context (bes tes : list TreeEntry.t).
Hypothesis IH : forall b t,
  fastForwardable d s b t = true ->
  mergeTrees d b b t resolutions s = (Ok (MergeResult.mk t []), s).
Hypothesis no_commit :
  Forall (fun e => TreeEntry.type e <> commit) (bes ++ tes).
Hypothesis theirs_ok : forall te, te ∈ tes ->
  match TreeEntry.type te with
  | tree =>
      bool_decide (TreeEntry.mode te = "040000")
      && match findEntry (TreeEntry.path te) bes with
         | None => fastForwardable d s None (Some (TreeEntry.oid te))
         | Some be =>
             bool_decide (TreeEntry.type be = tree)
             && fastForwardable d s (Some (TreeEntry.oid be)) (Some (TreeEntry.oid te))
         end
  | _ =>
      match findEntry (TreeEntry.path te) bes with
      | None => true
      | Some be =>
          bool_decide (TreeEntry.type be = blob)
          && bool_decide (TreeEntry.oid be = TreeEntry.oid te -> be = te)
      end
  end = true.
Hypothesis base_ok : forall be, be ∈ bes ->
  match findEntry (TreeEntry.path be) tes with
  | Some _ => true
  | None =>
      match TreeEntry.type be with
      | tree => fastForwardable d s (Some (TreeEntry.oid be)) None
      | _ => true
      end
  end = true.

Local Abbreviation bm := (map (fun e => (TreeEntry.path e, e)) bes).
Local Abbreviation tm := (map (fun e => (TreeEntry.path e, e)) tes).

(** One name: the side that has not changed gives way to [theirs]. *)
Lemma mergeEntry_fast_forward acc p :
  mergeEntry (fun b o t => mergeTrees d b o t resolutions) bm bm tm resolutions (acc, []) p s
  = (Ok (acc ++ option_list (findEntry p tes), []), s).
Proof.
  unfold mergeEntry. rewrite !mapGet_entries.
  rewrite Forall_app, !Forall_forall in no_commit. destruct no_commit as [Hbc Htc].
  destruct (findEntry p tes) as [te|] eqn:Et, (findEntry p bes) as [be|] eqn:Eb; simpl.
  - (* both have the name *)
    destruct (findEntry_Some _ _ _ Et) as [Hte Hpt].
    destruct (findEntry_Some _ _ _ Eb) as [Hbe Hpb].
    pose proof (theirs_ok te Hte) as Hok. rewrite Hpt, Eb in Hok.
    pose proof (Htc te Hte) as Htt. pose proof (Hbc be Hbe) as Hbt.
    destruct (TreeEntry.type te) eqn:Ett; [| |done].
    + (* a file *)
      apply andb_true_iff in Hok as [Hb Himp].
      apply bool_decide_eq_true in Hb, Himp. rewrite Hb.
      rewrite !bool_decide_eq_false_2 by done. simpl.
      destruct (decide (Some (TreeEntry.oid be) = Some (TreeEntry.oid te))) as [Heq|Hne].
      * injection Heq as Heq. by rewrite (Himp Heq).
      * rewrite decide_True; [done|]. split; [done | congruence].
    + (* a directory *)
      apply andb_true_iff in Hok as [Hmode Hok].
      apply andb_true_iff in Hok as [Hb Hff].
      apply bool_decide_eq_true in Hmode, Hb. rewrite Hb.
      rewrite bool_decide_eq_true_2 by done. simpl.
      rewrite (bind_Ok _ _ _ _ _ (IH _ _ Hff)). simpl.
      assert (TreeEntry.mk "040000" p (TreeEntry.oid te) tree = te) as ->
        by (destruct te; simpl in *; congruence).
      done.
  - (* only [theirs] has the name *)
    destruct (findEntry_Some _ _ _ Et) as [Hte Hpt].
    pose proof (theirs_ok te Hte) as Hok. rewrite Hpt, Eb in Hok.
    pose proof (Htc te Hte) as Htt.
    destruct (TreeEntry.type te) eqn:Ett; [| |done].
    + rewrite !bool_decide_eq_false_2 by done. by simpl.
    + apply andb_true_iff in Hok as [Hmode Hff]. apply bool_decide_eq_true in Hmode.
      rewrite (bool_decide_eq_true_2 (Some tree = Some tree)) by done.
      rewrite (bind_Ok _ _ _ _ _ (IH _ _ Hff)). simpl.
      assert (TreeEntry.mk "040000" p (TreeEntry.oid te) tree = te) as ->
        by (destruct te; simpl in *; congruence).
      done.
  - (* only the base has the name *)
    destruct (findEntry_Some _ _ _ Eb) as [Hbe Hpb].
    pose proof (base_ok be Hbe) as Hok. rewrite Hpb, Et in Hok.
    pose proof (Hbc be Hbe) as Hbt.
    destruct (TreeEntry.type be) eqn:Ebt; [| |done].
    + rewrite !bool_decide_eq_false_2 by done. simpl.
      by rewrite decide_True by done.
    + rewrite (bool_decide_eq_true_2 (Some tree = Some tree)) by done. simpl.
      rewrite (bind_Ok _ _ _ _ _ (IH _ _ Hok)). simpl. by rewrite !app_nil_r.
  - by rewrite app_nil_r.
Qed.

Lemma forEach_fast_forward ps : forall acc,
  forEach ps
    (mergeEntry (fun b o t => mergeTrees d b o t resolutions) bm bm tm resolutions)
    (acc, []) s
  = (Ok (acc ++ takeTheirs tes ps, []), s).
Proof.
  induction ps as [|p ps IHps]; intros acc; simpl; [by rewrite app_nil_r|].
  rewrite (bind_Ok _ _ _ _ _ (mergeEntry_fast_forward acc p)).
  by rewrite IHps, <- app_assoc.
Qed.
End FastForward.

Lemma mergeTrees_fast_forward (resolutions : gmap string string) (s : Store) :
  NoDup (objects s) ->
  forall d base theirs,
    fastForwardable d s base theirs = true ->
    mergeTrees d base base theirs resolutions s = (Ok (MergeResult.mk theirs []), s).
Proof.
  intros Hnd. induction d as [|d IHd]; intros base theirs Hff; [done|].
  simpl in Hff.
  destruct (entriesOf s base) as [bes|] eqn:Eb; [|done].
  destruct (entriesOf s theirs) as [tes|] eqn:Et; [|done].
  rewrite !andb_true_iff in Hff.
  destruct Hff as ((((((Hnb & Hnt) & Hsorted) & Hne) & Hnc) & Hto) & Hbo).
  apply bool_decide_eq_true in Hnb, Hnt, Hsorted, Hne.
  assert (Forall (fun e => TreeEntry.type e <> commit) (bes ++ tes)) as Hnc'.
  { rewrite Forall_forall. intros e He. rewrite forallb_forall in Hnc.
    apply list_elem_of_In, Hnc in He. by apply bool_decide_eq_true in He. }
  pose proof Hnc' as Hnc''. apply Forall_app in Hnc'' as [Hncb Hnct].
  rewrite forallb_forall in Hto, Hbo.
  simpl mergeTrees.
  rewrite (bind_Ok _ _ _ _ _ (readTreeEntries_entriesOf s base bes Eb Hncb Hnb)).
  rewrite (bind_Ok _ _ _ _ _ (readTreeEntries_entriesOf s base bes Eb Hncb Hnb)).
  rewrite (bind_Ok _ _ _ _ _ (readTreeEntries_entriesOf s theirs tes Et Hnct Hnt)).
  cbv zeta. rewrite !mapKeys_entries.
  set (allPaths := newSet _).
  rewrite (bind_Ok _ _ _ _ _
             (forEach_fast_forward d s resolutions bes tes IHd Hnc'
                (fun te Hte => Hto te (proj1 (list_elem_of_In _ _) Hte))
                (fun be Hbe => Hbo be (proj1 (list_elem_of_In _ _) Hbe))
                allPaths [])).
  rewrite app_nil_l.
  rewrite decide_False by (by intros [? _]).
  assert (takeTheirs tes allPaths ≡ₚ tes) as Hperm.
  { destruct (newSet_spec ((TreeEntry.path <$> bes) ++ (TreeEntry.path <$> bes)
                           ++ (TreeEntry.path <$> tes))) as [Hnd' Hin].
    apply takeTheirs_Permutation; [done | done |].
    intros e He. apply Hin. rewrite !elem_of_app. right; right.
    by apply list_elem_of_fmap_2. }
  destruct theirs as [t|].
  - simpl in Et. destruct (readObject t s) as [[| tes' |]|] eqn:Hr; try done.
    injection Et as ->.
    destruct Hne as [|Hne]; [done|].
    rewrite decide_False.
    2:{ intros Hnil. rewrite Hnil in Hperm. by apply Permutation_nil in Hperm. }
    unfold writeTree. rewrite (sortEntries_canonical _ _ Hperm Hnt Hsorted).
    by rewrite (bind_Ok _ _ _ _ _ (writeObject_present _ _ _ Hnd Hr)).
  - injection Et as <-. apply Permutation_nil_r in Hperm. rewrite Hperm.
    by rewrite decide_True.
Qed.

Lemma forallb_impl {A} (f g : A -> bool) l :
  (forall x, f x = true -> g x = true) -> forallb f l = true -> forallb g l = true.
Proof.
  intros Hfg. rewrite !forallb_forall. auto.
Qed.

(** The check stays true with a larger depth bound. *)
Lemma fastForwardable_S d : forall s base theirs,
  fastForwardable d s base theirs = true -> fastForwardable (S d) s base theirs = true.
Proof.
  induction d as [|d IH]; intros s base theirs H; [done|].
  change (fastForwardable (S (S d)) s base theirs) with
    (match entriesOf s base, entriesOf s theirs with
     | Some bes, Some tes =>
         bool_decide (NoDup (TreeEntry.path <$> bes))
         && bool_decide (NoDup (TreeEntry.path <$> tes))
         && bool_decide (sortEntries tes = tes)
         && bool_decide (theirs = None \/ tes <> [])
         && forallb (fun e => bool_decide (TreeEntry.type e <> commit)) (bes ++ tes)
         && forallb (fun te =>
              match TreeEntry.type te with
              | tree =>
                  bool_decide (TreeEntry.mode te = "040000")
                  && match findEntry (TreeEntry.path te) bes with
                     | None => fastForwardable (S d) s None (Some (TreeEntry.oid te))
                     | Some be =>
                         bool_decide (TreeEntry.type be = tree)
                         && fastForwardable (S d) s (Some (TreeEntry.oid be))
                              (Some (TreeEntry.oid te))
                     end
              | _ =>
                  match findEntry (TreeEntry.path te) bes with
                  | None => true
                  | Some be =>
                      bool_decide (TreeEntry.type be = blob)
                      && bool_decide (TreeEntry.oid be = TreeEntry.oid te -> be = te)
                  end
              end) tes
         && forallb (fun be =>
              match findEntry (TreeEntry.path be) tes with
              | Some _ => true
              | None =>
                  match TreeEntry.type be with
                  | tree => fastForwardable (S d) s (Some (TreeEntry.oid be)) None
                  | _ => true
                  end
              end) bes
     | _, _ => false
     end).
  simpl in H.
  destruct (entriesOf s base) as [bes|]; [|done].
  destruct (entriesOf s theirs) as [tes|]; [|done].
  rewrite !andb_true_iff in H |- *.
  destruct H as ((((((Hnb & Hnt) & Hsorted) & Hne) & Hnc) & Hto) & Hbo).
  split_and!; try done.
  - revert Hto. apply forallb_impl. intros te.
    destruct (TreeEntry.type te); try done.
    rewrite !andb_true_iff. intros [Hm Hrec]. split; [done|].
    destruct (findEntry (TreeEntry.path te) bes) as [be|]; [|by apply IH].
    apply andb_true_iff in Hrec as [Hb Hrec]. apply andb_true_iff. split; [done|].
    by apply IH.
  - revert Hbo. apply forallb_impl. intros be.
    destruct (findEntry (TreeEntry.path be) tes); [done|].
    destruct (TreeEntry.type be); try done. apply IH.
Qed.

Lemma fastForwardable_le d fuel s base theirs :
  d <= fuel -> fastForwardable d s base theirs = true ->
  fastForwardable fuel s base theirs = true.
Proof.
  induction 1 as [|fuel Hle IH]; [done|]. intros H. by apply fastForwardable_S, IH.
Qed.

(** C7 (amended): in a store that holds no object twice, let the tree of
    our side be the tree of the base, and let base and theirs be well-formed
    snapshots between which nothing but content changed
    ([fastForwardable]: unique names, no submodule entries, the trees of
    theirs stored in name order and none of them empty, no name that is a
    file on one side and a directory on the other, no file whose mode alone
    changed).  Then, with enough fuel and an empty resolution map, the
    merge returns the OID of the tree of theirs (absent when theirs is
    absent) and no conflict, and it stores nothing. *)
Theorem merge_into_unchanged_side_takes_theirs (s : Store) (d fuel : nat)
    (base theirs : option OID) :
  NoDup (objects s) ->
  d <= fuel ->
  fastForwardable d s base theirs = true ->
  mergeTrees fuel base base theirs ∅ s = (Ok (MergeResult.mk theirs []), s).
Proof.
  intros Hnd Hle Hff. apply mergeTrees_fast_forward; [done|].
  by eapply fastForwardable_le.
Qed.

Lemma merge_into_unchanged_side_witness :
  NoDup (objects forwardRepo)
  /\ 2 <= 5
  /\ fastForwardable 2 forwardRepo (Some 3) (Some 6) = true
  /\ mergeTrees 5 (Some 3) (Some 3) (Some 6) ∅ forwardRepo
     = (Ok (MergeResult.mk (Some 6) []), forwardRepo).
Proof.
  assert (NoDup (objects forwardRepo)) as Hnd
    by (apply (bool_decide_unpack _); vm_compute; exact I).
  assert (fastForwardable 2 forwardRepo (Some 3) (Some 6) = true) as Hff
    by (vm_compute; reflexivity).
  split_and!; [exact Hnd | lia | exact Hff |].
  apply (merge_into_unchanged_side_takes_theirs forwardRepo 2 5 (Some 3) (Some 6));
    [exact Hnd | lia | exact Hff].
Defined.

(** The claim C7 as it stands fails where their side has emptied the tree:
    our tree is the tree of the base (object 1), their tree is the stored
    empty tree (object 2), and the merge answers absent, whatever the fuel,
    not the OID of their tree. *)
Lemma merge_into_unchanged_side_counterexample :
  readObject 1 emptiedRepo = Some (TreeObject [TreeEntry.mk "100644" "a.txt" 0 blob])
  /\ readObject 2 emptiedRepo = Some (TreeObject [])
  /\ mergeTrees 2 (Some 1) (Some 1) (Some 2) ∅ emptiedRepo
     = (Ok (MergeResult.mk None []), emptiedRepo)
  /\ ~ exists fuel,
         (mergeTrees fuel (Some 1) (Some 1) (Some 2) ∅ emptiedRepo).1
         = Ok (MergeResult.mk (Some 2) []).
Proof.
  split_and!; [reflexivity | reflexivity | by vm_compute |].
  intros [[|fuel] H]; [done|]. vm_compute in H. discriminate H.
Qed.

(** ** Conflicts without resolutions *)

Lemma entriesOf_grows s s' t es :
  grows s s' -> entriesOf s t = Some es -> entriesOf s' t = Some es.
Proof.
  intros G. destruct t as [id|]; simpl; [|done].
  destruct (readObject id s) as [[| es' |]|] eqn:Hr; try done.
  by rewrite (grows_readObject _ _ _ _ G Hr).
Qed.

Lemma bind_ext_in {A B} (f g : A -> list B) (l : list A) :
  (forall x, x ∈ l -> f x = g x) -> l ≫= f = l ≫= g.
Proof.
  induction l as [|x l IH]; intros H; [done|]. rewrite !bind_cons. f_equal.
  - apply H. left.
  - apply IH. intros y Hy. apply H. by right.
Qed.

Lemma mergeable_grows d : forall s s' b o t,
  grows s s' -> mergeable d s b o t = true -> mergeable d s' b o t = true.
Proof.
  induction d as [|d IH]; intros s s' b o t G; [done|]. simpl.
  destruct (entriesOf s b) as [bes|] eqn:Eb; [|done].
  destruct (entriesOf s o) as [oes|] eqn:Eo; [|done].
  destruct (entriesOf s t) as [tes|] eqn:Et; [|done].
  rewrite (entriesOf_grows _ _ _ _ G Eb), (entriesOf_grows _ _ _ _ G Eo),
    (entriesOf_grows _ _ _ _ G Et).
  rewrite !andb_true_iff. intros [Hwf Hall]. split; [done|].
  rewrite forallb_forall in Hall |- *. intros p Hp. specialize (Hall p Hp).
  unfold mergeableAt in *. destruct (_ || _); [by eapply IH | done].
Qed.

(** The conflicts of mergeable snapshots are the same in a store that
    has grown. *)
Lemma conflictNames_grows d : forall s s' b o t,
  grows s s' -> mergeable d s b o t = true ->
  conflictNames d s' b o t = conflictNames d s b o t.
Proof.
  induction d as [|d IH]; intros s s' b o t G; [done|]. simpl.
  destruct (entriesOf s b) as [bes|] eqn:Eb; [|done].
  destruct (entriesOf s o) as [oes|] eqn:Eo; [|done].
  destruct (entriesOf s t) as [tes|] eqn:Et; [|done].
  rewrite (entriesOf_grows _ _ _ _ G Eb), (entriesOf_grows _ _ _ _ G Eo),
    (entriesOf_grows _ _ _ _ G Et).
  rewrite !andb_true_iff. intros [_ Hall]. simpl.
  apply bind_ext_in. intros p Hp. rewrite elem_of_remove_dups, list_elem_of_In in Hp.
  rewrite forallb_forall in Hall. specialize (Hall p Hp).
  unfold mergeableAt, conflictsAt in *. destruct (_ || _); [by apply IH | done].
Qed.

Section Conflicts.
Context (d : nat) (s0 : Store) (bes oes tes : list TreeEntry.t).
Hypothesis IH : forall s b o t,
  mergeable d s b o t = true ->
  exists r s', mergeTrees d b o t ∅ s = (Ok r, s')
               /\ MergeResult.conflicts r ≡ₚ conflictNames d s b o t.

Local Abbreviation base_map := (map (fun e => (TreeEntry.path e, e)) bes).
Local Abbreviation our_map := (map (fun e => (TreeEntry.path e, e)) oes).
Local Abbreviation their_map := (map (fun e => (TreeEntry.path e, e)) tes).

(** One name: the loop adds to the conflicts what the specification
    counts under the name. *)
Lemma mergeEntry_conflicts s acc cs p :
  grows s0 s ->
  mergeableAt (mergeable d s0) bes oes tes p = true ->
  exists acc' cs' s',
    mergeEntry (fun b o t => mergeTrees d b o t ∅) base_map our_map their_map ∅
      (acc, cs) p s = (Ok (acc', (cs ++ cs')%list), s')
    /\ cs' ≡ₚ conflictsAt (conflictNames d s0) bes oes tes p.
Proof.
  intros G. unfold mergeableAt, conflictsAt, mergeEntry, isDirectory, inConflict.
  rewrite !mapGet_entries.
  set (b := findEntry p bes). set (o := findEntry p oes). set (t := findEntry p tes).
  destruct (_ || _).
  - intros Hm.
    destruct (IH s _ _ _ (mergeable_grows _ _ _ _ _ _ G Hm)) as (r & s' & E & P).
    rewrite (bind_Ok _ _ _ _ _ E). eexists _, _, _. split; [reflexivity|].
    by rewrite P, (conflictNames_grows _ _ _ _ _ _ G Hm).
  - intros Hp%bool_decide_eq_true.
    destruct (decide (TreeEntry.oid <$> o = TreeEntry.oid <$> t)) as [Hot|Hot].
    { exists (acc ++ option_list o)%list, [], s. rewrite app_nil_r. split; [done|].
      by rewrite decide_False by tauto. }
    destruct (decide (TreeEntry.oid <$> o = TreeEntry.oid <$> b
                      /\ TreeEntry.oid <$> t <> TreeEntry.oid <$> b)) as [Hob|Hob].
    { exists (acc ++ option_list t)%list, [], s. rewrite app_nil_r. split; [done|].
      by rewrite decide_False by tauto. }
    destruct (decide (TreeEntry.oid <$> o <> TreeEntry.oid <$> b
                      /\ TreeEntry.oid <$> t = TreeEntry.oid <$> b)) as [Htb|Htb].
    { exists (acc ++ option_list o)%list, [], s. rewrite app_nil_r. split; [done|].
      by rewrite decide_False by tauto. }
    assert (TreeEntry.oid <$> o <> TreeEntry.oid <$> b
            /\ TreeEntry.oid <$> t <> TreeEntry.oid <$> b
            /\ TreeEntry.oid <$> o <> TreeEntry.oid <$> t) as Hc.
    { destruct (decide (TreeEntry.oid <$> o = TreeEntry.oid <$> b)),
               (decide (TreeEntry.oid <$> t = TreeEntry.oid <$> b));
        split_and!; try done; try tauto; congruence. }
    unfold getProperty. rewrite lookup_empty, decide_False by auto.
    exists acc, [p], s. split; [done|]. by rewrite decide_True.
Qed.

Lemma forEach_conflicts ps : forall s acc cs,
  grows s0 s ->
  (forall p, p ∈ ps -> mergeableAt (mergeable d s0) bes oes tes p = true) ->
  exists acc' cs' s',
    forEach ps
      (mergeEntry (fun b o t => mergeTrees d b o t ∅) base_map our_map their_map ∅)
      (acc, cs) s = (Ok (acc', (cs ++ cs')%list), s')
    /\ cs' ≡ₚ ps ≫= conflictsAt (conflictNames d s0) bes oes tes.
Proof.
  induction ps as [|p ps IHps]; intros s acc cs G Hall; simpl.
  - exists acc, [], s. by rewrite app_nil_r.
  - destruct (mergeEntry_conflicts s acc cs p G) as (acc1 & cs1 & s1 & E1 & P1);
      [apply Hall; left|].
    assert (grows s0 s1) as G1.
    { etrans; [exact G|]. eapply (adds_grows notCommit).
      eapply (mergeEntry_adds _ _ _ _ _ _ _ (fun b o t => mergeTrees_adds d b o t ∅)).
      exact E1. }
    destruct (IHps s1 acc1 (cs ++ cs1)%list G1) as (acc2 & cs2 & s2 & E2 & P2);
      [intros q Hq; apply Hall; by right|].
    rewrite (bind_Ok _ _ _ _ _ E1), E2. exists acc2, (cs1 ++ cs2)%list, s2.
    rewrite app_assoc. split; [done|]. apply Permutation_app; [exact P1 | exact P2].
Qed.
End Conflicts.

(** Without resolutions, the merge of mergeable snapshots returns, and
    the conflicts it reports are the names in conflict. *)
Lemma mergeTrees_conflicts d : forall s b o t,
  mergeable d s b o t = true ->
  exists r s', mergeTrees d b o t ∅ s = (Ok r, s')
               /\ MergeResult.conflicts r ≡ₚ conflictNames d s b o t.
Proof.
  induction d as [|d IH]; intros s b o t; [done|]. simpl.
  destruct (entriesOf s b) as [bes|] eqn:Eb; [|done].
  destruct (entriesOf s o) as [oes|] eqn:Eo; [|done].
  destruct (entriesOf s t) as [tes|] eqn:Et; [|done].
  rewrite !andb_true_iff.
  intros [[[[Hb%bool_decide_eq_true Ho%bool_decide_eq_true] Ht%bool_decide_eq_true] Hc] Hall].
  rewrite forallb_forall in Hc. rewrite forallb_forall in Hall.
  assert (Forall (fun e => TreeEntry.type e <> commit) (bes ++ oes ++ tes)) as Hnc.
  { apply Forall_forall. intros e He.
    eapply bool_decide_eq_true, Hc, list_elem_of_In, He. }
  apply Forall_app in Hnc as [Hcb Hnc]. apply Forall_app in Hnc as [Hco Hct].
  rewrite (bind_Ok _ _ _ _ _ (readTreeEntries_entriesOf _ _ _ Eb Hcb Hb)).
  rewrite (bind_Ok _ _ _ _ _ (readTreeEntries_entriesOf _ _ _ Eo Hco Ho)).
  rewrite (bind_Ok _ _ _ _ _ (readTreeEntries_entriesOf _ _ _ Et Hct Ht)).
  rewrite !mapKeys_entries.
  set (names := (TreeEntry.path <$> bes) ++ (TreeEntry.path <$> oes)
                ++ (TreeEntry.path <$> tes)).
  assert (names = TreeEntry.path <$> (bes ++ oes ++ tes)%list) as Hnames
    by (unfold names; by rewrite !fmap_app).
  destruct (newSet_spec names) as [Hnd Hin].
  destruct (forEach_conflicts d s bes oes tes IH (newSet names) s [] [] (reflexivity _))
    as (acc & cs & s1 & E & P).
  { intros p Hp. apply Hall, list_elem_of_In. rewrite <- Hnames. by apply Hin. }
  rewrite (bind_Ok _ _ _ _ _ E). cbn [app default].
  assert (cs ≡ₚ remove_dups (TreeEntry.path <$> (bes ++ oes ++ tes)%list)
               ≫= conflictsAt (conflictNames d s) bes oes tes) as P'.
  { rewrite P. apply bind_Permutation. apply NoDup_Permutation;
      [done | apply NoDup_remove_dups|].
    intros x. by rewrite Hin, elem_of_remove_dups, Hnames. }
  case_decide; [by eexists _, _|].
  case_decide; [by eexists _, _|].
  destruct (writeTree_spec acc s1) as (id & s2 & Ew & _).
  rewrite (bind_Ok _ _ _ _ _ Ew). by eexists _, _.
Qed.

(** C4 (amended): the destination and the source resolve, a merge base is
    found, the input passes validation, the three snapshots are mergeable
    and some name is in conflict in them, at any depth; the caller gave no
    resolution map.  Then [mergeBranches] fails with [MERGE_CONFLICT]; the
    error carries the names in conflict, all of them and nothing else,
    each as the name of the entry in its own directory and not as a path
    from the root; no commit has been written and every reference, the
    destination among them, is where it was. *)
Theorem merge_conflict_without_resolutions (concurrent : Store -> Store)
    (findMergeBase : Store -> OID -> OID -> list OID) (fuel : nat) (client : Client)
    (sourceBranch destinationBranch : string) (cm : option string) (au : option Author)
    (s : Store) (sourceSha destSha baseSha : OID) (otherBases : list OID)
    (baseCommit sourceCommit destCommit : Commit.t) :
  sourceBranch <> "" -> destinationBranch <> "" -> optionalAuthor au = true ->
  refs s !! normalizeRef sourceBranch = Some sourceSha ->
  refs s !! normalizeRef destinationBranch = Some destSha ->
  findMergeBase s destSha sourceSha = baseSha :: otherBases ->
  readObject baseSha s = Some (CommitObject baseCommit) ->
  readObject sourceSha s = Some (CommitObject sourceCommit) ->
  readObject destSha s = Some (CommitObject destCommit) ->
  mergeable fuel s (Some (Commit.tree baseCommit)) (Some (Commit.tree destCommit))
    (Some (Commit.tree sourceCommit)) = true ->
  conflictNames fuel s (Some (Commit.tree baseCommit)) (Some (Commit.tree destCommit))
    (Some (Commit.tree sourceCommit)) <> [] ->
  exists conflicts s1,
    mergeBranches concurrent findMergeBase fuel client
      (MergeBranchesInput.mk sourceBranch destinationBranch None cm au) s
    = (Err (BareGitClientError MERGE_CONFLICT (ctx_conflicts conflicts)), s1)
    /\ conflicts ≡ₚ conflictNames fuel s (Some (Commit.tree baseCommit))
                      (Some (Commit.tree destCommit)) (Some (Commit.tree sourceCommit))
    /\ refs s1 = refs s
    /\ (forall id c, readObject id s1 = Some (CommitObject c) ->
                     readObject id s = Some (CommitObject c)).
Proof.
  intros Hsrc Hdst Hau Hrs Hrd Hmb Hbc Hsc Hdc Hm Hconf.
  destruct (mergeTrees_conflicts _ _ _ _ _ Hm) as (result & s1 & Hmerge & P).
  assert (MergeResult.conflicts result <> []) as Hne.
  { intros E. rewrite E in P. by apply Permutation_nil in P. }
  destruct (mergeBranches_conflict_run concurrent findMergeBase fuel client
              sourceBranch destinationBranch cm au s sourceSha destSha baseSha otherBases
              baseCommit sourceCommit destCommit result s1
              Hsrc Hdst Hau Hrs Hrd Hmb Hbc Hsc Hdc Hmerge Hne) as (Hrun & Hrefs & Hcommits).
  exists (MergeResult.conflicts result), s1. by split_and!.
Qed.

Lemma merge_conflict_without_resolutions_witness :
  mergeable 3 nestedConflictRepo (Some 10) (Some 11) (Some 12) = true
  /\ conflictNames 3 nestedConflictRepo (Some 10) (Some 11) (Some 12) = ["f.txt"; "a.txt"]
  /\ exists conflicts s1,
       mergeBranches id firstCommonAncestor 3 exampleClient
         (MergeBranchesInput.mk "feature" "main" None None
            (Some {| name := "Ada"; email := "ada@example.org";
                     timestamp := None; timezoneOffset := None |}))
         nestedConflictRepo
       = (Err (BareGitClientError MERGE_CONFLICT (ctx_conflicts conflicts)), s1)
       /\ conflicts ≡ₚ conflictNames 3 nestedConflictRepo (Some 10) (Some 11) (Some 12)
       /\ refs s1 = refs nestedConflictRepo
       /\ (forall id c, readObject id s1 = Some (CommitObject c) ->
                        readObject id nestedConflictRepo = Some (CommitObject c)).
Proof.
  assert (mergeable 3 nestedConflictRepo (Some 10) (Some 11) (Some 12) = true) as Hm
    by (vm_compute; reflexivity).
  assert (conflictNames 3 nestedConflictRepo (Some 10) (Some 11) (Some 12)
          = ["f.txt"; "a.txt"]) as Hc by (vm_compute; reflexivity).
  split_and!; [exact Hm | exact Hc |].
  apply (merge_conflict_without_resolutions id firstCommonAncestor 3 exampleClient
           "feature" "main" None
           (Some {| name := "Ada"; email := "ada@example.org";
                    timestamp := None; timezoneOffset := None |})
           nestedConflictRepo 15 14 13 []
           (Commit.mk "base" 10 [] ada ada) (Commit.mk "theirs" 12 [13] ada ada)
           (Commit.mk "ours" 11 [13] ada ada));
    [discriminate | discriminate | vm_compute; reflexivity | reflexivity | reflexivity
    | vm_compute; reflexivity | reflexivity | reflexivity | reflexivity | exact Hm |].
  change (conflictNames 3 nestedConflictRepo (Some 10) (Some 11) (Some 12) <> []).
  rewrite Hc. discriminate.
Defined.

(** C4, as it is stated, fails: the error does not carry the paths in
    conflict.  In [nestedConflictRepo] the two sides changed [f.txt] and
    [src/a.txt]; the merge fails with [MERGE_CONFLICT] and the list
    [f.txt], [a.txt].  The path [src/a.txt], which resolves to three
    different blobs in the three snapshots, is not in the list; and
    [a.txt], which is in it, is the path of no file of any of them. *)
Lemma merge_conflict_names_not_paths :
  let run := mergeBranches id firstCommonAncestor 3 exampleClient
               (MergeBranchesInput.mk "feature" "main" None None None)
               nestedConflictRepo in
  run = (Err (BareGitClientError MERGE_CONFLICT (ctx_conflicts ["f.txt"; "a.txt"])),
         nestedConflictRepo)
  /\ (resolvePath 10 "src/a.txt" nestedConflictRepo).1 = Ok (Resolved.mk 3 "100644" blob)
  /\ (resolvePath 11 "src/a.txt" nestedConflictRepo).1 = Ok (Resolved.mk 4 "100644" blob)
  /\ (resolvePath 12 "src/a.txt" nestedConflictRepo).1 = Ok (Resolved.mk 5 "100644" blob)
  /\ ("src/a.txt" ∉ ["f.txt"; "a.txt"])
  /\ forall root, root ∈ [10; 11; 12] ->
       (resolvePath root "a.txt" nestedConflictRepo).1 = Err (notFound "Path").
Proof.
  split_and!; [by vm_compute | by vm_compute | by vm_compute | by vm_compute | |].
  - rewrite !elem_of_cons, elem_of_nil. by intros [|[|]].
  - intros root. rewrite !elem_of_cons, elem_of_nil.
    intros [->|[->|[->|[]]]]; by vm_compute.
Qed.

(** A file in conflict whose name is a member of [Object.prototype]: the
    lookup in the resolutions finds the inherited member, and the merge
    fails with [OPERATION_FAILED]. *)
Lemma merge_conflict_on_prototype_name :
  inConflict (findEntry "constructor" [TreeEntry.mk "100644" "constructor" 0 blob])
    (findEntry "constructor" [TreeEntry.mk "100644" "constructor" 1 blob])
    (findEntry "constructor" [TreeEntry.mk "100644" "constructor" 2 blob])
  /\ mergeable 2 prototypeRepo (Some 3) (Some 4) (Some 5) = false
  /\ mergeBranches id firstCommonAncestor 2 exampleClient
       (MergeBranchesInput.mk "feature" "main" None None None) prototypeRepo
     = (Err (operationFailed "mergeBranches"), prototypeRepo).
Proof. split_and!; [by vm_compute | by vm_compute | by vm_compute]. Qed.

(** ** The operations at work *)

(** C1: the merge does not go through the compare-and-swap.  In
    [busyRepo] the merge of [feature] into [main] reads [main] at commit 7;
    while it is suspended the other writer moves [main] to its commit 11;
    the merge then writes the reference all the same, to a merge commit
    whose parents are 7 and 8: commit 11 is cut off the branch. *)
Theorem mergeBranches_overwrites_concurrent_update :
  let run := mergeBranches otherWriter firstCommonAncestor 3 exampleClient
               (MergeBranchesInput.mk "feature" "main" None None None) busyRepo in
  refs busyRepo !! "refs/heads/main" = Some 7
  /\ refs (otherWriter busyRepo) !! "refs/heads/main" = Some 11
  /\ exists res c,
       run.1 = Ok res
       /\ refs run.2 !! "refs/heads/main" = Some (MergeBranchesResult.commitSha res)
       /\ readObject (MergeBranchesResult.commitSha res) run.2 = Some (CommitObject c)
       /\ Commit.parent c = [7; 8].
Proof.
  cbv zeta. split_and!; [by vm_compute | by vm_compute |].
  eexists _, _. split_and!; by vm_compute.
Qed.

(** The sibling operations in the same situation: they find the reference
    moved, fail with [CONCURRENCY_ERROR] and leave it where the other
    writer put it. *)
Lemma siblings_detect_concurrent_update :
  let added := addFile otherWriter exampleClient
                 (AddFileInput.mk "main" "n.txt" "n" None None) busyRepo in
  let removed := removeFile otherWriter exampleClient
                   (RemoveFileInput.mk "main" "g.txt" None None) busyRepo in
  added.1 = Err (concurrencyError "refs/heads/main")
  /\ refs added.2 !! "refs/heads/main" = Some 11
  /\ removed.1 = Err (concurrencyError "refs/heads/main")
  /\ refs removed.2 !! "refs/heads/main" = Some 11.
Proof. cbv zeta. split_and!; by vm_compute. Qed.

(** C3: the add and remove operations check that the part list is not
    empty and nothing else.  A path with a [..] part is added: the tree of
    the new commit has a directory [a] with a directory named [..] in it;
    a path with a [.] part likewise; and a removal through [..] fails with
    [NOT_FOUND] for want of such an entry, not with [INVALID_PATH]. *)
Theorem add_and_remove_accept_dot_segments :
  let added := addFile id exampleClient
                 (AddFileInput.mk "main" "a/../b.txt" "x" None None) emptyStore in
  let dotted := addFile id exampleClient
                  (AddFileInput.mk "main" "./b.txt" "x" None None) emptyStore in
  let removed := removeFile id exampleClient
                   (RemoveFileInput.mk "main" "src/../README.md" None None) smallRepo in
  pathPartsOf "a/../b.txt" = ["a"; ".."; "b.txt"]
  /\ (exists res e,
        added.1 = Ok res
        /\ resolvePath (AddFileResult.treeSha res) "a/.." added.2 = (Ok e, added.2)
        /\ Resolved.type e = tree)
  /\ (exists res e,
        dotted.1 = Ok res
        /\ resolvePath (AddFileResult.treeSha res) "." dotted.2 = (Ok e, dotted.2)
        /\ Resolved.type e = tree)
  /\ removed.1 = Err (notFound "Path").
Proof.
  cbv zeta. split_and!; [by vm_compute | | | by vm_compute].
  - eexists _, _. split_and!; by vm_compute.
  - eexists _, _. split_and!; by vm_compute.
Qed.

(** The empty part list is the one thing they reject. *)
Lemma add_and_remove_reject_empty_path :
  (addFile id exampleClient (AddFileInput.mk "main" "///" "x" None None) emptyStore).1
    = Err (invalidPath "///")
  /\ (removeFile id exampleClient (RemoveFileInput.mk "main" "/" None None) smallRepo).1
     = Err (invalidPath "/").
Proof. split; by vm_compute. Qed.

(** The sibling operation on directories does look at the parts: the very
    path the file operation takes is refused with [INVALID_PATH]. *)
Lemma addPlaceholder_rejects_dot_segments :
  (addPlaceholder id exampleClient
     (AddPlaceholderInput.mk "main" "a/../b" ".gitkeep" None None) emptyStore).1
    = Err (invalidPath "a/../b")
  /\ (addPlaceholder id exampleClient
        (AddPlaceholderInput.mk "main" "./b" ".gitkeep" None None) emptyStore).1
     = Err (invalidPath "./b")
  /\ exists res,
       (addPlaceholder id exampleClient
          (AddPlaceholderInput.mk "main" " /docs//img/ " ".gitkeep" None None) emptyStore).1
       = Ok res.
Proof. split_and!; [by vm_compute | by vm_compute | eexists; by vm_compute]. Qed.

(** ** The theorems at concrete inputs *)

Lemma codeUnitCompare_le a b : (codeUnitCompare a b <= 0)%Z <-> String.leb a b = true.
Proof.
  unfold codeUnitCompare, String.leb. destruct (String.compare a b); split; (done || lia).
Qed.

Lemma codeUnitCompare_total a b :
  (codeUnitCompare a b <= 0)%Z \/ (codeUnitCompare b a <= 0)%Z.
Proof. rewrite !codeUnitCompare_le. apply String.leb_total. Qed.

Lemma codeUnitCompare_trans a b c :
  (codeUnitCompare a b <= 0)%Z -> (codeUnitCompare b c <= 0)%Z ->
  (codeUnitCompare a c <= 0)%Z.
Proof. rewrite !codeUnitCompare_le. apply leb_trans. Qed.

Lemma upsert_then_resolve_witness :
  validPath smallRepo (Some 3) (pathPartsOf "/src//b.txt") = true
  /\ exists blobSha s1 newRoot s2,
       writeBlob "y" smallRepo = (Ok blobSha, s1)
       /\ upsertFileInTree (Some 3) (pathPartsOf "/src//b.txt") blobSha s1 = (Ok newRoot, s2)
       /\ resolvePath newRoot "/src//b.txt" s2 = (Ok (Resolved.mk blobSha "100644" blob), s2)
       /\ readBlob blobSha s2 = (Ok "y", s2).
Proof.
  split; [reflexivity|].
  apply (upsert_then_resolve smallRepo (Some 3) "/src//b.txt" "y"). reflexivity.
Defined.

Lemma mutation_keeps_siblings_witness :
  uniqueNames smallRepo = true
  /\ pathPartsOf "src/b.txt" = ["src"] ++ "b.txt" :: []
  /\ pathPartsOf "src/a.txt" = ["src"] ++ "a.txt" :: []
  /\ "b.txt" <> "a.txt"
  /\ resolvePath 3 "src/a.txt" smallRepo = (Ok (Resolved.mk 1 "100644" blob), smallRepo)
  /\ (forall blobSha newRoot s',
        upsertFileInTree (Some 3) (pathPartsOf "src/b.txt") blobSha smallRepo
          = (Ok newRoot, s') ->
        resolvePath newRoot "src/a.txt" s' = (Ok (Resolved.mk 1 "100644" blob), s'))
  /\ (forall r s',
        removeFileFromTree (Some 3) (pathPartsOf "src/b.txt") smallRepo = (Ok r, s') ->
        exists newRoot,
          r = Some newRoot
          /\ resolvePath newRoot "src/a.txt" s' = (Ok (Resolved.mk 1 "100644" blob), s')).
Proof.
  assert ("b.txt" <> "a.txt") as Hne by discriminate.
  split_and!; [reflexivity | reflexivity | reflexivity | exact Hne | reflexivity | |];
    apply (mutation_keeps_siblings smallRepo 3 "src/b.txt" "src/a.txt" ["src"] [] []
             "b.txt" "a.txt" (Resolved.mk 1 "100644" blob));
    (reflexivity || exact Hne).
Defined.

Lemma removal_prunes_empty_directories_witness :
  "main" <> ""
  /\ optionalAuthor None = true
  /\ pathPartsOf "src/a.txt" <> []
  /\ refs smallRepo !! normalizeRef "main" = Some 4
  /\ readObject 4 smallRepo = Some (CommitObject (Commit.mk "Initial commit" 3 [] ada ada))
  /\ resolvePath 3 "src/a.txt" smallRepo = (Ok (Resolved.mk 1 "100644" blob), smallRepo)
  /\ exists r s1,
       removeFileFromTree (Some 3) (pathPartsOf "src/a.txt") smallRepo = (Ok r, s1)
       /\ (r = None <-> holdsOnly smallRepo 3 (pathPartsOf "src/a.txt") = true)
       /\ (forall t, r = Some t ->
             (exists es, readObject t s1 = Some (TreeObject es) /\ es <> [])
             /\ resolvePath t "src/a.txt" s1 = (Err (notFound "Path"), s1)
             /\ forall pre post d,
                  pathPartsOf "src/a.txt" = pre ++ post -> pre <> [] -> post <> [] ->
                  resolvePath_loop "src/a.txt" pre (Resolved.mk 3 "040000" tree) smallRepo
                    = (Ok d, smallRepo) ->
                  if holdsOnly smallRepo (Resolved.sha d) post
                  then resolvePath_loop "src/a.txt" pre (Resolved.mk t "040000" tree) s1
                       = (Err (notFound "Path"), s1)
                  else exists dir es,
                         resolvePath_loop "src/a.txt" pre (Resolved.mk t "040000" tree) s1
                           = (Ok (Resolved.mk dir "040000" tree), s1)
                         /\ readObject dir s1 = Some (TreeObject es) /\ es <> [])
       /\ (forall i, readObject i s1 = Some (TreeObject []) ->
             readObject i smallRepo = Some (TreeObject []))
       /\ exists res s' newCommit,
            removeFile id exampleClient (RemoveFileInput.mk "main" "src/a.txt" None None)
              smallRepo = (Ok res, s')
            /\ RemoveFileResult.treeSha res = r
            /\ refs s' !! normalizeRef "main" = Some (RemoveFileResult.commitSha res)
            /\ readObject (RemoveFileResult.commitSha res) s' = Some (CommitObject newCommit)
            /\ Commit.parent newCommit = [4]
            /\ match r with
               | Some t => Commit.tree newCommit = t
               | None => readObject (Commit.tree newCommit) s' = Some (TreeObject [])
               end.
Proof.
  assert ("main" <> "") as H1 by discriminate.
  assert (pathPartsOf "src/a.txt" <> []) as H2 by (vm_compute; discriminate).
  split_and!; [exact H1 | reflexivity | exact H2 | reflexivity | reflexivity | reflexivity |].
  apply (removal_prunes_empty_directories exampleClient "main" "src/a.txt" None None
           smallRepo 4 (Commit.mk "Initial commit" 3 [] ada ada)
           (Resolved.mk 1 "100644" blob));
    (exact H1 || exact H2 || reflexivity).
Defined.

Lemma rootCollation_total a b :
  (rootCollation a b <= 0)%Z \/ (rootCollation b a <= 0)%Z.
Proof. apply codeUnitCompare_total. Qed.

Lemma rootCollation_trans a b c :
  (rootCollation a b <= 0)%Z -> (rootCollation b c <= 0)%Z -> (rootCollation a c <= 0)%Z.
Proof. apply codeUnitCompare_trans. Qed.

Lemma listFiles_sorted_witness :
  let raw := [TreeEntry.mk "100644" "B.txt" 0 blob;
              TreeEntry.mk "040000" "Src" 1 tree;
              TreeEntry.mk "100644" "a-b" 0 blob;
              TreeEntry.mk "100644" "a.txt" 0 blob;
              TreeEntry.mk "100644" "a_b" 0 blob;
              TreeEntry.mk "040000" "lib" 1 tree] in
  "refs/heads/main" <> ""
  /\ refs namesRepo !! "refs/heads/main" = Some 3
  /\ readObject 3 namesRepo = Some (CommitObject (Commit.mk "Initial commit" 2 [] ada ada))
  /\ resolvePath 2 "" namesRepo = (Ok (Resolved.mk 2 "040000" tree), namesRepo)
  /\ exists entries,
       listFiles rootCollation (ListFilesInput.mk "refs/heads/main" "") namesRepo
         = (Ok entries, namesRepo)
       /\ entries ≡ₚ filterTreeEntries raw
       /\ StronglySorted (listedBefore rootCollation) entries.
Proof.
  intros raw.
  assert ("refs/heads/main" <> "") as H1 by discriminate.
  split_and!; [exact H1 | reflexivity | reflexivity | reflexivity |].
  apply (listFiles_sorted rootCollation "refs/heads/main" "" namesRepo 3
           (Commit.mk "Initial commit" 2 [] ada ada) (Resolved.mk 2 "040000" tree) raw
           rootCollation_total rootCollation_trans H1);
    reflexivity.
Defined.

(** C9, as it is stated, fails: the files of a listing do not stand in
    the lexicographic order of their names.  The directories [lib] and [Src]
    come first and the files [a_b], [a-b], [a.txt] and [B.txt] follow in
    this order, which is the order of the collation; by their characters
    [B.txt] stands before [a.txt] and [a-b] before [a_b]. *)
Lemma listFiles_not_lexicographic :
  exists entries,
    listFiles rootCollation (ListFilesInput.mk "refs/heads/main" "") namesRepo
      = (Ok entries, namesRepo)
    /\ TreeEntry.path <$> entries = ["lib"; "Src"; "a_b"; "a-b"; "a.txt"; "B.txt"]
    /\ ~ StronglySorted (fun a b => String.leb a b = true)
           (TreeEntry.path <$> filter (fun e => TreeEntry.type e = blob) entries)
    /\ ~ StronglySorted (fun a b => String.leb a b = true)
           (TreeEntry.path <$> filter (fun e => TreeEntry.type e = tree) entries).
Proof.
  eexists. split; [vm_compute; reflexivity|]. split; [reflexivity|]. split.
  - intros H. vm_compute in H. apply StronglySorted_inv in H as [_ H].
    apply Forall_inv in H. discriminate.
  - intros H. vm_compute in H. apply StronglySorted_inv in H as [_ H].
    apply Forall_inv in H. discriminate.
Qed.

(** * Further properties of the sources *)

(** ** References and branch names ([utils/ref-resolver.ts]) *)

Lemma append_cons (a : ascii) (p s : string) :
  (String a p ++ s)%string = String a (p ++ s)%string.
Proof. reflexivity. Qed.

Lemma append_nil (s : string) : ("" ++ s)%string = s.
Proof. reflexivity. Qed.

Lemma string_prefix_app (p s : string) : String.prefix p (p ++ s)%string = true.
Proof.
  induction p as [|a p IH]; [rewrite append_nil; by destruct s|].
  rewrite append_cons. simpl. destruct (ascii_dec a a); [exact IH | done].
Qed.

Lemma slice_app (p s : string) : slice (String.length p) (p ++ s)%string = s.
Proof.
  induction p as [|a p IH]; [rewrite append_nil; by destruct s|].
  rewrite append_cons. exact IH.
Qed.

Lemma string_prefix_slice (p s : string) :
  String.prefix p s = true -> s = (p ++ slice (String.length p) s)%string.
Proof.
  revert s. induction p as [|a p IH]; intros [|b s] H; simpl in *; try done.
  destruct (ascii_dec a b) as [->|]; [|done].
  rewrite append_cons. f_equal. by apply IH.
Qed.

Lemma string_prefix_trans (p q s : string) :
  String.prefix p q = true -> String.prefix q s = true -> String.prefix p s = true.
Proof.
  revert q s. induction p as [|a p IH]; intros q s Hpq Hqs; [by destruct s|].
  destruct q as [|b q]; [done|]. destruct s as [|c s]; [done|]. simpl in *.
  destruct (ascii_dec a b) as [->|]; [|done].
  destruct (ascii_dec b c) as [->|]; [|done]. eauto.
Qed.

(** X1: [normalizeRef] answers [HEAD] or a name under [refs/], and a name
    it has answered is left as it is when normalized again. *)
Theorem normalizeRef_idempotent (ref : string) :
  (normalizeRef ref = "HEAD" \/ startsWith (normalizeRef ref) "refs/" = true)
  /\ normalizeRef (normalizeRef ref) = normalizeRef ref.
Proof.
  assert (normalizeRef ref = "HEAD" \/ startsWith (normalizeRef ref) "refs/" = true) as H.
  { unfold normalizeRef. case_decide; [by left|]. right.
    destruct (startsWith ref "refs/") eqn:E; [done|].
    unfold startsWith. apply (string_prefix_trans _ "refs/heads/"); [done|apply string_prefix_app]. }
  split; [exact H|].
  destruct H as [-> | H]; [done|].
  unfold normalizeRef at 1. case_decide; [done|]. by rewrite H.
Qed.

(** X2: the branch name of a normalized reference is the branch name of
    the reference; for a name that does not start with [refs/heads/],
    [getBranchName] undoes [normalizeRef]. *)
Theorem getBranchName_normalizeRef (ref : string) :
  getBranchName (normalizeRef ref) = getBranchName ref
  /\ (startsWith ref "refs/heads/" = false -> getBranchName (normalizeRef ref) = ref).
Proof.
  assert (startsWith ref "refs/" = false -> startsWith ref "refs/heads/" = false) as Hsub.
  { intros H. destruct (startsWith ref "refs/heads/") eqn:E; [|done].
    rewrite <- H. symmetry. unfold startsWith in *.
    by apply (string_prefix_trans _ "refs/heads/"). }
  assert (getBranchName (normalizeRef ref) = getBranchName ref) as H.
  { unfold normalizeRef. case_decide; [done|].
    destruct (startsWith ref "refs/") eqn:E; [done|].
    unfold getBranchName at 1. unfold startsWith at 1. rewrite string_prefix_app.
    rewrite slice_app. unfold getBranchName. by rewrite (Hsub eq_refl). }
  split; [exact H|]. intros Hn. rewrite H. unfold getBranchName. by rewrite Hn.
Qed.

(** ** Binary detection ([utils/binary-detection.ts]) *)

Lemma hasZeroByte_sliceTo (n : N) (buffer : string) :
  hasZeroByte (sliceTo n buffer) = true <->
  exists pre post, buffer = (pre ++ String "000"%char post)%string
                   /\ (N.of_nat (String.length pre) < n)%N.
Proof.
  revert n. induction buffer as [|c r IH]; intros n; simpl.
  { split; [done|]. intros (pre & post & H & _). by destruct pre. }
  destruct (N.eqb_spec n 0) as [->|Hn]; simpl.
  { split; [done|]. intros (pre & post & _ & H). lia. }
  destruct (Ascii.eqb_spec c "000"%char) as [->|Hc].
  { split; [|done]. intros _. exists "", r. split; [done|]. simpl. lia. }
  rewrite IH. split.
  - intros (pre & post & -> & H). exists (String c pre), post. split; [done|].
    simpl. lia.
  - intros (pre & post & H & Hlt). destruct pre as [|c' pre]; simpl in *.
    + by injection H as -> _.
    + injection H as -> ->. exists pre, post. split; [done|]. lia.
Qed.

(** X3: a buffer is taken for binary exactly when one of its first 8000
    bytes is zero; a zero byte further on is not seen. *)
Theorem isBinaryBuffer_spec (buffer : string) :
  isBinaryBuffer buffer = true <->
  exists pre post, buffer = (pre ++ String "000"%char post)%string
                   /\ (N.of_nat (String.length pre) < 8000)%N.
Proof. apply hasZeroByte_sliceTo. Qed.

(** ** The parts of a path *)

Lemma split_nonempty sep s : split sep s <> [].
Proof.
  destruct s as [|c r]; simpl; [done|].
  destruct (Ascii.eqb c sep); [done|]. by destruct (split sep r).
Qed.

Lemma split_cons_other sep c r :
  c <> sep ->
  exists h t, split sep r = h :: t /\ split sep (String c r) = String c h :: t.
Proof.
  intros Hc. simpl. destruct (Ascii.eqb_spec c sep) as [|_]; [done|].
  destruct (split sep r) as [|h t] eqn:E; [by apply split_nonempty in E|]. eauto.
Qed.

Lemma split_app sep a b :
  split sep (a ++ String sep b)%string = split sep a ++ split sep b.
Proof.
  induction a as [|c r IH].
  { rewrite append_nil. simpl. by rewrite Ascii.eqb_refl. }
  rewrite append_cons. simpl. destruct (Ascii.eqb c sep); [by rewrite IH|].
  rewrite IH. destruct (split sep r) as [|h t] eqn:E; [by apply split_nonempty in E|].
  done.
Qed.

Lemma filterBoolean_replicate k : filterBoolean (replicate k "") = [].
Proof. induction k as [|k IH]; [done|]. simpl. unfold filterBoolean in *. by rewrite filter_cons_False by (intros H; by apply H). Qed.

Lemma filterBoolean_app l1 l2 :
  filterBoolean (l1 ++ l2) = filterBoolean l1 ++ filterBoolean l2.
Proof. apply filter_app. Qed.

Lemma filterBoolean_cons_empty l : filterBoolean ("" :: l) = filterBoolean l.
Proof. unfold filterBoolean. by rewrite filter_cons_False by (intros H; by apply H). Qed.

Lemma filterBoolean_cons_proper x l : x <> "" -> filterBoolean (x :: l) = x :: filterBoolean l.
Proof. intros H. unfold filterBoolean. by rewrite filter_cons_True. Qed.

(** Cutting the trailing slashes off cuts empty parts off the end. *)
Lemma split_stripTrailingSlashes s :
  exists k, split "/"%char s = split "/"%char (stripTrailingSlashes s) ++ replicate k "".
Proof.
  induction s as [|c r [k IH]]; [by exists 0|].
  destruct (Ascii.eqb_spec c "/"%char) as [->|Hc].
  - simpl. rewrite IH. destruct (stripTrailingSlashes r) as [|c' t] eqn:E.
    + exists (S k). simpl. done.
    + exists k. simpl. done.
  - destruct (split_cons_other "/"%char c r Hc) as (h & t & Hr & ->).
    assert (stripTrailingSlashes (String c r) = String c (stripTrailingSlashes r)) as ->.
    { simpl. destruct (stripTrailingSlashes r); [|done].
      by destruct (Ascii.eqb_spec c "/"%char). }
    destruct (split_cons_other "/"%char c (stripTrailingSlashes r) Hc)
      as (h' & t' & Hr' & ->).
    rewrite Hr, Hr' in IH. injection IH as -> ->. by exists k.
Qed.

Lemma split_stripLeadingSlashes s :
  filterBoolean (split "/"%char (stripLeadingSlashes s)) = filterBoolean (split "/"%char s).
Proof.
  induction s as [|c r IH]; [done|]. simpl.
  destruct (Ascii.eqb_spec c "/"%char) as [->|Hc].
  - by rewrite IH, filterBoolean_cons_empty.
  - simpl. by destruct (Ascii.eqb_spec c "/"%char).
Qed.

(** The slashes at the ends are cut off in vain: the empty parts they
    make are dropped anyway. *)
Lemma pathPartsOf_split p : pathPartsOf p = filterBoolean (split "/"%char p).
Proof.
  unfold pathPartsOf, stripSlashes.
  destruct (split_stripTrailingSlashes (stripLeadingSlashes p)) as [k Hk].
  rewrite <- (split_stripLeadingSlashes p), Hk, filterBoolean_app, filterBoolean_replicate.
  by rewrite app_nil_r.
Qed.

Lemma pathPartsOf_app_slash x y :
  pathPartsOf (x ++ "/" ++ y)%string = pathPartsOf x ++ pathPartsOf y.
Proof.
  rewrite !pathPartsOf_split. change ("/" ++ y)%string with (String "/"%char y).
  by rewrite split_app, filterBoolean_app.
Qed.

(** X4: slashes at the ends of a path and repeated slashes inside it
    make no difference to its parts: the parts of [a/b] are the parts of
    [a] and then the parts of [b], whatever slashes [a] and [b] begin and
    end with. *)
Theorem pathParts_ignore_redundant_slashes (a b : string) :
  pathPartsOf (a ++ "/" ++ b)%string = pathPartsOf a ++ pathPartsOf b
  /\ pathPartsOf ("/" ++ a)%string = pathPartsOf a
  /\ pathPartsOf (a ++ "/")%string = pathPartsOf a
  /\ pathPartsOf (a ++ "//" ++ b)%string = pathPartsOf (a ++ "/" ++ b)%string.
Proof.
  pose proof pathPartsOf_app_slash as H.
  split_and!.
  - apply H.
  - apply (H "" a).
  - change (a ++ "/")%string with (a ++ "/" ++ "")%string.
    rewrite (H a ""). apply app_nil_r.
  - change ("//" ++ b)%string with ("/" ++ "/" ++ b)%string. rewrite !H.
    change (pathPartsOf ("/" ++ b)%string) with (pathPartsOf ("" ++ "/" ++ b)%string).
    by rewrite (H "" b).
Qed.

Lemma split_no_slash s : Forall (fun x => "/"%char ∉ String.list_ascii_of_string x) (split "/"%char s).
Proof.
  induction s as [|c r IH]; simpl.
  { constructor; [|done]. simpl. apply not_elem_of_nil. }
  destruct (Ascii.eqb_spec c "/"%char) as [->|Hc].
  { constructor; [|done]. simpl. apply not_elem_of_nil. }
  destruct (split "/"%char r) as [|h t]; [by apply Forall_singleton; simpl; set_solver|].
  apply Forall_cons in IH as [Hh Ht]. constructor; [|done].
  simpl. rewrite not_elem_of_cons. split; [congruence | done].
Qed.

Lemma split_properName x :
  "/"%char ∉ String.list_ascii_of_string x -> split "/"%char x = [x].
Proof.
  induction x as [|c r IH]; simpl; [done|]. rewrite not_elem_of_cons. intros [Hc Hr].
  destruct (Ascii.eqb_spec c "/"%char) as [->|_]; [done|]. by rewrite IH.
Qed.

(** X5: every part of a path is a proper name, not empty and without
    a slash; and every list of proper names is the part list of the path
    that joins them with slashes. *)
Theorem pathParts_proper_names (p : string) :
  Forall properName (pathPartsOf p)
  /\ forall parts, Forall properName parts ->
       pathPartsOf (String.concat "/" parts) = parts.
Proof.
  split.
  - rewrite pathPartsOf_split. unfold filterBoolean, properName.
    apply Forall_forall. intros x [Hx Hin]%list_elem_of_filter. split; [done|].
    by eapply (proj1 (Forall_forall _ _) (split_no_slash p)).
  - intros parts. induction 1 as [|x l [Hx Hs] Hl IH]; [done|].
    destruct l as [|y l].
    + simpl. rewrite pathPartsOf_split, split_properName by done.
      by rewrite filterBoolean_cons_proper.
    + change (String.concat "/" (x :: y :: l))
        with (x ++ "/" ++ String.concat "/" (y :: l))%string.
      rewrite pathPartsOf_app_slash, IH. rewrite pathPartsOf_split, split_properName by done.
      by rewrite filterBoolean_cons_proper.
Qed.

(** ** The directory path of [addPlaceholder] and [removeDirectory] *)

Lemma stripTrailingSlashes_cons_other c r :
  c <> "/"%char -> stripTrailingSlashes (String c r) = String c (stripTrailingSlashes r).
Proof.
  intros Hc. simpl. destruct (stripTrailingSlashes r); [|done].
  by destruct (Ascii.eqb_spec c "/"%char).
Qed.

Lemma stripTrailingSlashes_cons_kept c r :
  stripTrailingSlashes r <> "" ->
  stripTrailingSlashes (String c r) = String c (stripTrailingSlashes r).
Proof. intros Hr. simpl. by destruct (stripTrailingSlashes r). Qed.

(** Collapsing the runs of slashes changes no part of a path. *)
Lemma split_collapseSlashes x :
  exists h t t', split "/"%char x = h :: t
                 /\ split "/"%char (collapseSlashes x) = h :: t'
                 /\ filterBoolean t = filterBoolean t'.
Proof.
  induction x as [|c r (h & t & t' & Hr & Hr' & Ht)]; [by exists "", [], []|].
  simpl. destruct (Ascii.eqb_spec c "/"%char) as [->|Hc].
  - rewrite Hr. destruct (collapseSlashes r) as [|c' r'] eqn:E.
    + simpl in Hr'. injection Hr' as <- <-. exists "", ("" :: t), [""].
      split_and!; [done..|]. by rewrite !filterBoolean_cons_empty.
    + destruct (Ascii.eqb_spec c' "/"%char) as [->|Hc'].
      * rewrite Hr'. simpl in Hr'. injection Hr' as <- <-.
        exists "", ("" :: t), (split "/"%char r'). split_and!; [done..|].
        by rewrite filterBoolean_cons_empty.
      * change (split "/"%char (String "/" (String c' r')))
          with ("" :: split "/"%char (String c' r')).
        rewrite Hr'. exists "", (h :: t), (h :: t'). split_and!; [done..|].
        unfold filterBoolean in *. rewrite !filter_cons, Ht. done.
  - rewrite Hr.
    change (split "/"%char (String c (collapseSlashes r)))
      with (if Ascii.eqb c "/"%char then "" :: split "/"%char (collapseSlashes r)
            else match split "/"%char (collapseSlashes r) with
                 | h :: t => String c h :: t
                 | [] => [String c ""]
                 end).
    destruct (Ascii.eqb_spec c "/"%char) as [->|_]; [done|]. rewrite Hr'.
    by exists (String c h), t, t'.
Qed.

Lemma pathPartsOf_collapseSlashes x :
  pathPartsOf x = filterBoolean (split "/"%char (stripSlashes (collapseSlashes x))).
Proof.
  change (filterBoolean (split "/"%char (stripSlashes (collapseSlashes x))))
    with (pathPartsOf (collapseSlashes x)).
  rewrite !pathPartsOf_split.
  destruct (split_collapseSlashes x) as (h & t & t' & -> & -> & Ht).
  unfold filterBoolean in *. by rewrite !filter_cons, Ht.
Qed.

(** Between two parts of a collapsed path there is one slash, so the
    split of it has no empty segment after the first one. *)
Lemma split_collapsed_tail r :
  "" ∉ tail (split "/"%char (stripTrailingSlashes (collapseSlashes r))).
Proof.
  induction r as [|c r IH]; [apply not_elem_of_nil|].
  simpl collapseSlashes. destruct (Ascii.eqb_spec c "/"%char) as [->|Hc].
  - destruct (collapseSlashes r) as [|c' r'] eqn:E; [apply not_elem_of_nil|].
    destruct (Ascii.eqb_spec c' "/"%char) as [->|Hc']; [done|].
    rewrite stripTrailingSlashes_cons_kept
      by (by rewrite stripTrailingSlashes_cons_other).
    change (tail (split "/"%char (String "/" ?x))) with (split "/"%char x).
    rewrite stripTrailingSlashes_cons_other in IH |- * by done.
    destruct (split_cons_other "/"%char c' (stripTrailingSlashes r') Hc')
      as (h & t & _ & Hs).
    rewrite Hs in IH |- *. simpl in IH. rewrite not_elem_of_cons. done.
  - rewrite stripTrailingSlashes_cons_other by done.
    destruct (split_cons_other "/"%char c (stripTrailingSlashes (collapseSlashes r)) Hc)
      as (h & t & Hr & Hs).
    rewrite Hs. rewrite Hr in IH. done.
Qed.

Lemma stripLeadingSlashes_collapseSlashes x :
  exists x', stripLeadingSlashes (collapseSlashes x) = collapseSlashes x'
             /\ (x' = "" \/ exists c r, x' = String c r /\ c <> "/"%char).
Proof.
  induction x as [|c r (x' & Hx & Hx')]; [exists ""; by split; [|left]|].
  destruct (Ascii.eqb_spec c "/"%char) as [->|Hc].
  - exists x'. split; [|done]. rewrite <- Hx. simpl.
    destruct (collapseSlashes r) as [|c' r']; [done|].
    by destruct (Ascii.eqb_spec c' "/"%char) as [->|Hc'].
  - exists (String c r). split; [|right; by eexists _, _].
    cbn [collapseSlashes]. destruct (Ascii.eqb_spec c "/"%char) as [->|_]; [done|].
    cbn [stripLeadingSlashes]. by destruct (Ascii.eqb_spec c "/"%char).
Qed.

(** A normalized path is empty or has no empty segment. *)
Lemma split_normalized x :
  stripSlashes (collapseSlashes x) = ""
  \/ "" ∉ split "/"%char (stripSlashes (collapseSlashes x)).
Proof.
  unfold stripSlashes.
  destruct (stripLeadingSlashes_collapseSlashes x) as (x' & -> & [-> | (c & r & -> & Hc)]);
    [by left|right].
  pose proof (split_collapsed_tail r) as Ht.
  simpl collapseSlashes. destruct (Ascii.eqb_spec c "/"%char) as [->|_]; [done|].
  rewrite stripTrailingSlashes_cons_other by done.
  destruct (split_cons_other "/"%char c (stripTrailingSlashes (collapseSlashes r)) Hc)
    as (h & t & Hr & ->).
  rewrite Hr in Ht. rewrite not_elem_of_cons. done.
Qed.

Lemma filterBoolean_id l : "" ∉ l -> filterBoolean l = l.
Proof.
  induction l as [|x l IH]; [done|]. rewrite not_elem_of_cons. intros [Hx Hl].
  rewrite filterBoolean_cons_proper by done. by rewrite IH.
Qed.

(** The loop over the segments of a path that has no empty one. *)
Lemma segments_loop directoryPath (segments : list string) s :
  "" ∉ segments ->
  forEach segments (fun (_ : unit) segment =>
      if decide (segment = "") then throw (invalidPath directoryPath)
      else if decide (segment = ".") then throw (invalidPath directoryPath)
      else if decide (segment = "..") then throw (invalidPath directoryPath)
      else mret tt) tt s
  = if decide (("." ∉ segments) /\ (".." ∉ segments)) then (Ok tt, s)
    else (Err (invalidPath directoryPath), s).
Proof.
  induction segments as [|x l IH]; [intros _; by rewrite decide_True by set_solver|].
  rewrite not_elem_of_cons. intros [Hx Hl]. cbn [forEach]. rewrite bind_unfold.
  rewrite decide_False by done.
  destruct (decide (x = ".")) as [->|H1].
  { by rewrite decide_False by set_solver. }
  destruct (decide (x = "..")) as [->|H2].
  { by rewrite decide_False by set_solver. }
  rewrite mret_unfold, IH by done.
  destruct (decide (("." ∉ l) /\ (".." ∉ l))) as [Hd|Hd].
  - by rewrite decide_True by set_solver.
  - rewrite decide_False; [done|]. intros [Ha Hb]. apply Hd.
    split; intros Hin; [apply Ha | apply Hb]; by right.
Qed.

(** What [validateDirectoryPath] answers, by the parts of the trimmed path. *)
Lemma validateDirectoryPath_eval (directoryPath : string) (s : Store) :
  let parts := pathPartsOf (trim directoryPath) in
  let dirPath := stripSlashes (collapseSlashes (trim directoryPath)) in
  validateDirectoryPath directoryPath s =
    (if decide (parts <> [] /\ ("." ∉ parts) /\ (".." ∉ parts))
     then Ok dirPath else Err (invalidPath directoryPath), s)
  /\ (parts <> [] -> split "/"%char dirPath = parts).
Proof.
  intros parts dirPath.
  assert (parts = filterBoolean (split "/"%char dirPath)) as Hparts
    by apply pathPartsOf_collapseSlashes.
  assert (parts <> [] -> split "/"%char dirPath = parts) as Hsplit.
  { intros Hne. destruct (split_normalized (trim directoryPath)) as [He|He].
    - fold dirPath in He. by rewrite Hparts, He in Hne.
    - fold dirPath in He. by rewrite Hparts, filterBoolean_id. }
  split; [|done]. unfold validateDirectoryPath. fold dirPath.
  destruct (decide (trim directoryPath = "")) as [He|He].
  { rewrite decide_False; [done|]. intros [Hne _]. apply Hne.
    subst parts. by rewrite He. }
  destruct (decide (trim directoryPath = "." \/ trim directoryPath = "..")) as [Hd|Hd].
  { rewrite decide_False; [done|]. intros (_ & H1 & H2). subst parts.
    destruct Hd as [Hd|Hd]; rewrite Hd in H1, H2; [apply H1 | apply H2]; by left. }
  destruct (decide (dirPath = "")) as [Hn|Hn].
  { rewrite decide_False; [done|]. intros [Hne _]. apply Hne.
    by rewrite Hparts, Hn. }
  assert (parts <> []) as Hne.
  { destruct (split_normalized (trim directoryPath)) as [H|H]; [done|].
    fold dirPath in H. rewrite Hparts, filterBoolean_id by done. apply split_nonempty. }
  rewrite bind_unfold, segments_loop, (Hsplit Hne).
  2:{ rewrite (Hsplit Hne), Hparts. unfold filterBoolean.
      intros [H _]%list_elem_of_filter. done. }
  destruct (decide (("." ∉ parts) /\ (".." ∉ parts))) as [Hok|Hok].
  - by rewrite decide_True by done.
  - rewrite decide_False; [done|]. intros [_ H]. done.
Qed.

Lemma filterBoolean_idemp l : filterBoolean (filterBoolean l) = filterBoolean l.
Proof.
  apply filterBoolean_id. unfold filterBoolean. by intros [H _]%list_elem_of_filter.
Qed.

(** X6: the directory path of [addPlaceholder] and [removeDirectory] is
    accepted exactly when, trimmed of white space, it has a part and none of
    its parts is [.] or [..]; slashes at the ends and repeated slashes are
    forgiven.  The answer is the path in its normal form, whose segments are
    these parts, so the check for an empty segment never fires; a refused
    path is an [INVALID_PATH] error on the path as it was given.  The store
    is not touched. *)
Theorem validateDirectoryPath_spec (directoryPath : string) (s : Store) :
  let parts := pathPartsOf (trim directoryPath) in
  let dirPath := stripSlashes (collapseSlashes (trim directoryPath)) in
  validateDirectoryPath directoryPath s =
    (if decide (parts <> [] /\ ("." ∉ parts) /\ (".." ∉ parts))
     then Ok dirPath else Err (invalidPath directoryPath), s)
  /\ (parts <> [] -> split "/"%char dirPath = parts).
Proof. apply validateDirectoryPath_eval. Qed.

(** ** Removing a directory ([utils/tree-walker.ts]) *)

Ltac written :=
  match goal with
  | |- context [writeTree ?es ?st] =>
      let H := fresh in
      destruct (writeTree_spec es st) as (? & ? & H & _); rewrite H
  end.

Lemma removeDirectoryFromTree_eq (root : option OID) (parts : list string) (s : Store) :
  removeDirectoryFromTree root parts s =
  match removeFileFromTree root parts s with
  | (Ok r, s') => (Ok r, s')
  | (Err e, s') => (Err (asDirectoryError e), s')
  end.
Proof.
  revert root s. induction parts as [|x rest IH]; intros [root|] s; try done.
  - simpl. rewrite !bind_unfold.
    by destruct (readTree_cases root s) as [[raw ->] | [code ->]].
  - simpl. rewrite !bind_unfold.
    destruct (readTree_cases root s) as [[raw ->] | [code ->]]; [|done].
    destruct rest as [|y rest].
    + rewrite !bind_unfold. case_decide; [done|]. rewrite !mret_unfold.
      destruct (dropEntry x (filterTreeEntries raw)); [done|].
      rewrite !fmap_unfold. by written.
    + destruct (findEntry x (filterTreeEntries raw)) as [ex|]; [|done].
      rewrite !bind_unfold. case_decide; [done|]. rewrite !bind_unfold.
      rewrite (IH (Some (TreeEntry.oid ex)) s).
      destruct (removeFileFromTree (Some (TreeEntry.oid ex)) (y :: rest) s)
        as [[[sub|]|e] s1]; [| |done].
      * rewrite !mret_unfold.
        destruct (dropEntry x (filterTreeEntries raw) ++ _) eqn:E;
          [by apply app_eq_nil in E as [_ [=]]|].
        rewrite !fmap_unfold. by written.
      * rewrite !mret_unfold.
        destruct (dropEntry x (filterTreeEntries raw)); [done|].
        rewrite !fmap_unfold. by written.
Qed.

(** X7: [removeDirectoryFromTree] is [removeFileFromTree] under another
    name: on every tree and path the two return the same result and leave
    the same store, and where one fails the other fails, with [Directory]
    for [File] as the missing resource.  Neither looks at the kind of the
    entry it removes. *)
Theorem removeDirectoryFromTree_as_removeFileFromTree (root : option OID)
    (parts : list string) (s : Store) :
  removeDirectoryFromTree root parts s =
  match removeFileFromTree root parts s with
  | (Ok r, s') => (Ok r, s')
  | (Err e, s') => (Err (asDirectoryError e), s')
  end.
Proof. apply removeDirectoryFromTree_eq. Qed.

(** ** Counting the files of a tree ([utils/tree-walker.ts]) *)

Lemma totalOf_app {A} (f : A -> option nat) l1 l2 :
  totalOf f (l1 ++ l2) =
  match totalOf f l1, totalOf f l2 with
  | Some a, Some b => Some (a + b)
  | _, _ => None
  end.
Proof.
  induction l1 as [|x l1 IH]; simpl; [by destruct (totalOf f l2)|].
  rewrite IH. destruct (f x), (totalOf f l1), (totalOf f l2); try done.
  f_equal. lia.
Qed.

Lemma totalOf_Permutation {A} (f : A -> option nat) l1 l2 :
  l1 ≡ₚ l2 -> totalOf f l1 = totalOf f l2.
Proof.
  induction 1 as [|x l1 l2 _ IH|x y l|l1 l2 l3 _ IH1 _ IH2]; simpl;
    [done | by rewrite IH | | congruence].
  destruct (f x), (f y), (totalOf f l); try done. f_equal. lia.
Qed.

Lemma totalOf_ext {A} (f g : A -> option nat) l n :
  (forall x k, x ∈ l -> f x = Some k -> g x = Some k) ->
  totalOf f l = Some n -> totalOf g l = Some n.
Proof.
  revert n. induction l as [|x l IH]; intros n Hfg; simpl; [done|].
  destruct (f x) as [k|] eqn:Ek; [|done].
  destruct (totalOf f l) as [m|] eqn:Em; [|done]. intros [= <-].
  rewrite (Hfg x k) by (done || set_solver).
  rewrite (IH m); [done | | done]. intros y j Hy. apply Hfg. set_solver.
Qed.

Lemma totalOf_elem {A} (f : A -> option nat) l n x :
  totalOf f l = Some n -> x ∈ l -> exists k, f x = Some k /\ k <= n.
Proof.
  revert n. induction l as [|y l IH]; intros n; simpl; [set_solver|].
  destruct (f y) as [k|] eqn:Ek; [|done].
  destruct (totalOf f l) as [m|] eqn:Em; [|done]. intros [= <-].
  rewrite elem_of_cons. intros [->|Hx]; [exists k; split; [done|lia]|].
  destruct (IH m eq_refl Hx) as (j & ? & ?). exists j. split; [done|lia].
Qed.

(** The loop of [countFilesInTree] adds up what the entries count. *)
Lemma countFilesInTree_loop (count : OID -> M nat) (pure : OID -> option nat) s :
  (forall t n s', count t s = (Ok n, s') <-> s' = s /\ pure t = Some n) ->
  forall entries acc n s',
    forEach entries (fun count0 entry =>
        if decide (TreeEntry.type entry = blob) then mret (count0 + 1)
        else if decide (TreeEntry.type entry = tree) then
          k ← count (TreeEntry.oid entry); mret (count0 + k)
        else mret count0) acc s = (Ok n, s')
    <-> s' = s /\ exists m, totalOf (entryCount pure) entries = Some m /\ n = acc + m.
Proof.
  intros Hcount. induction entries as [|e es IH]; intros acc n s'; simpl.
  { rewrite mret_unfold. split.
    - intros [= <- <-]. split; [done|]. exists 0. split; [done|lia].
    - intros [-> (m & [= <-] & ->)]. do 2 f_equal. lia. }
  rewrite bind_unfold. unfold entryCount at 1.
  destruct (TreeEntry.type e) eqn:Et.
  - rewrite decide_True by done. rewrite mret_unfold, IH. split.
    + intros [-> (m & Hm & ->)]. split; [done|]. rewrite Hm. eexists. split; [done|lia].
    + intros [-> (m & Hm & ->)]. split; [done|].
      destruct (totalOf (entryCount pure) es) as [m'|]; [|done].
      injection Hm as <-. exists m'. split; [done|lia].
  - rewrite decide_False, decide_True by done. rewrite bind_unfold.
    destruct (count (TreeEntry.oid e) s) as [[k|err] s1] eqn:Ec.
    + apply Hcount in Ec as [-> Ek]. rewrite mret_unfold, IH, Ek. split.
      * intros [-> (m & Hm & ->)]. split; [done|]. rewrite Hm. eexists. split; [done|lia].
      * intros [-> (m & Hm & ->)]. split; [done|].
        destruct (totalOf (entryCount pure) es) as [m'|]; [|done].
        injection Hm as <-. exists m'. split; [done|lia].
    + split; [done|]. intros [-> (m & Hm & _)].
      destruct (pure (TreeEntry.oid e)) as [k|] eqn:Ek; [|done].
      assert (count (TreeEntry.oid e) s = (Ok k, s)) as Hc by (by apply Hcount).
      congruence.
  - rewrite decide_False, decide_False by done. rewrite mret_unfold, IH. split.
    + intros [-> (m & Hm & ->)]. split; [done|]. rewrite Hm. eexists. split; [done|lia].
    + intros [-> (m & Hm & ->)]. split; [done|].
      destruct (totalOf (entryCount pure) es) as [m'|]; [|done].
      injection Hm as <-. exists m'. split; [done|lia].
Qed.

(** [countFilesInTree] returns what [fileCount] says, and leaves the store
    as it is. *)
Lemma countFilesInTree_Ok fuel : forall t s n s',
  countFilesInTree fuel t s = (Ok n, s') <-> s' = s /\ fileCount fuel s t = Some n.
Proof.
  induction fuel as [|fuel IH]; intros t s n s'; simpl.
  { split; [done | by intros [_ ?]]. }
  rewrite bind_unfold. unfold readTree.
  destruct (readObject t s) as [[c|raw|c]|]; try (split; [done | by intros [_ ?]]).
  rewrite (countFilesInTree_loop (countFilesInTree fuel) (fileCount fuel s) s (fun t0 => IH t0 s)).
  split.
  - intros [-> (m & Hm & ->)]. by rewrite Hm.
  - intros [-> Hm]. split; [done|]. by exists n.
Qed.

Lemma readObject_prefix s s' id o :
  objects s `prefix_of` objects s' -> readObject id s = Some o -> readObject id s' = Some o.
Proof. intros Hp Hr. unfold readObject in *. by eapply prefix_lookup_Some. Qed.

(** A count stays what it is when objects are added and when more depth
    is allowed. *)
Lemma fileCount_stable d : forall d' s s' t n,
  d <= d' -> objects s `prefix_of` objects s' ->
  fileCount d s t = Some n -> fileCount d' s' t = Some n.
Proof.
  induction d as [|d IH]; intros d' s s' t n Hd Hp; simpl; [done|].
  destruct d' as [|d']; [lia|]. simpl.
  destruct (readObject t s) as [[c|raw|c]|] eqn:Er; try done.
  rewrite (readObject_prefix s s' t _ Hp Er).
  apply totalOf_ext. intros e k _. unfold entryCount.
  destruct (TreeEntry.type e); try done. apply IH; [lia | done].
Qed.

Lemma NoDup_filterTreeEntries raw :
  NoDup (TreeEntry.path <$> raw) -> NoDup (TreeEntry.path <$> filterTreeEntries raw).
Proof.
  intros H. apply (sublist_NoDup _ (TreeEntry.path <$> raw)); [exact H|].
  apply fmap_sublist. unfold filterTreeEntries. apply sublist_filter.
Qed.

(** In a tree with unique names the entry of a name and the entries of
    the other names make up the tree. *)
Lemma findEntry_Permutation p l e :
  NoDup (TreeEntry.path <$> l) -> findEntry p l = Some e -> l ≡ₚ e :: dropEntry p l.
Proof.
  intros Hnd Hf. unfold findEntry in Hf.
  destruct (filter (fun x => TreeEntry.path x = p) l) as [|a t] eqn:E; [done|].
  injection Hf as ->.
  assert (e ∈ l /\ TreeEntry.path e = p) as [Hin Hp].
  { assert (e ∈ filter (fun x => TreeEntry.path x = p) l) as Hx by (rewrite E; left).
    apply list_elem_of_filter in Hx. tauto. }
  rewrite <- (filter_app_complement (fun x => TreeEntry.path x = p) l) at 1.
  by rewrite (filter_path_NoDup p l e).
Qed.

Lemma filterTreeEntries_sortEntries l :
  filterTreeEntries (sortEntries (filterTreeEntries l)) ≡ₚ filterTreeEntries l.
Proof.
  unfold filterTreeEntries at 1. rewrite sortEntries_Permutation.
  fold (filterTreeEntries (filterTreeEntries l)). by rewrite filterTreeEntries_idemp.
Qed.

Lemma filterTreeEntries_written l :
  Forall (fun e => TreeEntry.type e <> commit) l ->
  filterTreeEntries (sortEntries l) ≡ₚ l.
Proof.
  intros H. unfold filterTreeEntries. rewrite sortEntries_Permutation.
  induction H as [|e l He _ IH]; [done|]. by rewrite filter_cons_True, IH.
Qed.

Lemma dropEntry_filtered p raw :
  Forall (fun e => TreeEntry.type e <> commit) (dropEntry p (filterTreeEntries raw)).
Proof.
  apply Forall_forall. intros e [_ He]%list_elem_of_filter.
  by apply list_elem_of_filter in He as [He _].
Qed.

(** What a removal takes out of the count of a tree with unique names:
    exactly the files of the entry the path resolves to. *)
Lemma removeFileFromTree_count parts : forall d s root m r s' n tp,
  uniqueNames s = true ->
  removeFileFromTree (Some root) parts s = (Ok r, s') ->
  fileCount d s root = Some n ->
  exists e k,
    resolvePath_loop tp parts (Resolved.mk root m tree) s = (Ok e, s)
    /\ resolvedCount (d - length parts) s e = Some k
    /\ k <= n
    /\ match r with
       | Some t => fileCount d s' t = Some (n - k)
       | None => k = n
       end.
Proof.
  induction parts as [|x rest IH]; intros d s root m r s' n tp Hu H Hn.
  { simpl in H. rewrite bind_unfold in H.
    by destruct (readTree_cases root s) as [[raw Hr] | [code Hr]]; rewrite Hr in H. }
  pose proof (growing_removeFileFromTree _ _ _ _ _ H) as Hg.
  apply removeFileFromTree_inv in H as (raw & entries' & s1 & Hraw & Hcase & Hend).
  destruct d as [|d]; [done|]. simpl in Hn. rewrite Hraw in Hn.
  pose proof (NoDup_filterTreeEntries raw (uniqueNames_tree s root raw Hu Hraw)) as Hnd.
  assert (exists ex rn nx,
            findEntry x (filterTreeEntries raw) = Some ex
            /\ entryCount (fileCount d s) ex = Some nx
            /\ totalOf (entryCount (fileCount d s)) (dropEntry x (filterTreeEntries raw))
               = Some rn
            /\ n = nx + rn) as (ex & rn & nx & Hex & Hnx & Hrn & ->).
  { destruct (findEntry x (filterTreeEntries raw)) as [ex|] eqn:Ef.
    2:{ destruct rest; [by destruct Hcase | by destruct Hcase as (? & ? & ? & _)]. }
    rewrite (totalOf_Permutation _ _ _ (findEntry_Permutation x _ ex Hnd Ef)) in Hn.
    simpl in Hn. destruct (entryCount (fileCount d s) ex) as [nx|] eqn:E1; [|done].
    destruct (totalOf _ (dropEntry x _)) as [rn|] eqn:E2; [|done]. injection Hn as <-.
    by exists ex, rn, nx. }
  assert (forall s2,
            objects s `prefix_of` objects s2 ->
            totalOf (entryCount (fileCount d s2)) (dropEntry x (filterTreeEntries raw))
            = Some rn) as Hrest.
  { intros s2 Hp. eapply totalOf_ext; [|exact Hrn]. intros e k _. unfold entryCount.
    destruct (TreeEntry.type e); try done. by apply fileCount_stable. }
  destruct rest as [|y rest].
  - destruct Hcase as (_ & -> & ->).
    exists (Resolved.mk (TreeEntry.oid ex) (TreeEntry.mode ex) (TreeEntry.type ex)), nx.
    split_and!.
    + by rewrite (resolvePath_loop_cons tp x [] (Resolved.mk root m tree) s raw ex eq_refl Hraw Hex).
    + simpl. rewrite Nat.sub_0_r. exact Hnx.
    + lia.
    + destruct (dropEntry x (filterTreeEntries raw)) as [|e0 es0] eqn:Ed.
      * destruct Hend as [-> _]. simpl in Hrn. injection Hrn as <-. lia.
      * destruct Hend as (id & -> & Hw). apply writeTree_inv in Hw as [Hgw Hid].
        simpl. rewrite Hid.
        rewrite (totalOf_Permutation _ _ (e0 :: es0)).
        2:{ apply filterTreeEntries_written. rewrite <- Ed. apply dropEntry_filtered. }
        rewrite (Hrest s' (proj1 Hgw)). f_equal. lia.
  - destruct Hcase as (ex' & sub & Hex' & Htree & Hrec & ->).
    rewrite Hex in Hex'. injection Hex' as <-.
    unfold entryCount in Hnx. rewrite Htree in Hnx.
    pose proof (growing_removeFileFromTree _ _ _ _ _ Hrec) as Hg1.
    destruct (IH d s (TreeEntry.oid ex) (TreeEntry.mode ex) sub s1 nx tp Hu Hrec Hnx)
      as (e & k & Hres & Hk & Hle & Hsub).
    exists e, k. split_and!.
    + rewrite (resolvePath_loop_cons tp x (y :: rest) (Resolved.mk root m tree) s raw ex
                 eq_refl Hraw Hex).
      by rewrite Htree.
    + exact Hk.
    + lia.
    + destruct (dropEntry x (filterTreeEntries raw) ++ _) as [|e0 es0] eqn:Ed.
      * destruct Hend as [-> _]. apply app_eq_nil in Ed as [Ed1 Ed2].
        rewrite Ed1 in Hrn. simpl in Hrn. injection Hrn as <-.
        destruct sub; [done|]. lia.
      * destruct Hend as (id & -> & Hw). apply writeTree_inv in Hw as [Hgw Hid].
        simpl. rewrite Hid.
        assert (objects s `prefix_of` objects s') as Hp.
        { etrans; [apply Hg1 | apply Hgw]. }
        rewrite (totalOf_Permutation _ _ (e0 :: es0)).
        2:{ apply filterTreeEntries_written. rewrite <- Ed. apply Forall_app. split.
            - apply dropEntry_filtered.
            - destruct sub; [|done]. by apply Forall_singleton. }
        rewrite <- Ed, totalOf_app, (Hrest s' Hp).
        destruct sub as [t|]; simpl.
        -- unfold entryCount at 1. simpl.
           rewrite (fileCount_stable d d s1 s' t (nx - k) (le_n _) (proj1 Hgw) Hsub).
           f_equal. lia.
        -- f_equal. lia.
Qed.

Lemma removeDirectoryFromTree_Ok root parts s r s' :
  removeDirectoryFromTree root parts s = (Ok r, s') ->
  removeFileFromTree root parts s = (Ok r, s').
Proof.
  rewrite removeDirectoryFromTree_eq.
  destruct (removeFileFromTree root parts s) as [[r0|e] s0]; [|done]. by intros [= <- <-].
Qed.

(** ** Removing a directory from a branch ([operations/remove-directory.ts]) *)

Lemma validateDirectoryPath_state p s r s' :
  validateDirectoryPath p s = (r, s') -> s' = s.
Proof.
  intros H. symmetry. revert s r s' H.
  change (respects eq (validateDirectoryPath p)). unfold validateDirectoryPath.
  cbv zeta. case_decide; [apply respects_throw; apply _|].
  case_decide; [apply respects_throw; apply _|].
  case_decide; [apply respects_throw; apply _|].
  apply respects_bind; try apply _; [|intros; apply respects_ret; apply _].
  apply respects_forEach; try apply _. intros [] segment.
  repeat case_decide; (apply respects_throw || apply respects_ret); apply _.
Qed.

Lemma resolvePath_state root p s r s' : resolvePath root p s = (r, s') -> s' = s.
Proof.
  unfold resolvePath. destruct (pathPartsOf p); [by intros [= _ <-]|].
  apply resolvePath_loop_state.
Qed.

(** What a successful [removeDirectory] did. *)
Lemma removeDirectory_inv_Ok concurrent fuel client input s res s' :
  removeDirectory concurrent fuel client input s = (Ok res, s') ->
  let ref := normalizeRef (RemoveDirectoryInput.ref input) in
  exists dirPath parentSha pc target s1 finalTree s2 c s3,
    validateDirectoryPath (RemoveDirectoryInput.directoryPath input) s = (Ok dirPath, s)
    /\ refs s !! ref = Some parentSha
    /\ readObject parentSha s = Some (CommitObject pc)
    /\ resolvePath (Commit.tree pc) dirPath s = (Ok target, s)
    /\ Resolved.type target = tree
    /\ countFilesInTree fuel (Resolved.sha target) s
       = (Ok (RemoveDirectoryResult.filesRemoved res), s)
    /\ removeDirectoryFromTree (Some (Commit.tree pc)) (pathPartsOf dirPath) s
       = (Ok (RemoveDirectoryResult.treeSha res), s1)
    /\ match RemoveDirectoryResult.treeSha res with
       | Some t => finalTree = t /\ s2 = s1
       | None => writeTree [] s1 = (Ok finalTree, s2)
       end
    /\ writeCommit c s2 = (Ok (RemoveDirectoryResult.commitSha res), s3)
    /\ Commit.parent c = [parentSha]
    /\ Commit.tree c = finalTree
    /\ refs (concurrent s3) !! ref = Some parentSha
    /\ s' = setRef ref (RemoveDirectoryResult.commitSha res) (concurrent s3).
Proof.
  unfold removeDirectory. intros H. cbv zeta.
  apply bind_inv_Ok in H as (validated & s0 & Hparse & H).
  assert (validated = input /\ s0 = s) as [-> ->].
  { unfold parse in Hparse. destruct (RemoveDirectoryInputSchema input); [|done].
    by injection Hparse as <- <-. }
  apply wrapErrors_inv_Ok in H.
  apply bind_inv_Ok in H as (dirPath & s0 & Hdir & H).
  pose proof (validateDirectoryPath_state _ _ _ _ Hdir) as ->.
  apply bind_inv_Ok in H as (parentSha & s0 & Hpar & H).
  unfold resolveRef in Hpar.
  destruct (refs s !! normalizeRef (RemoveDirectoryInput.ref input)) as [p0|] eqn:Eref;
    [|done].
  injection Hpar as <- <-.
  apply bind_inv_Ok in H as (pc & s0 & Hrc & H).
  unfold readCommit in Hrc. destruct (readObject p0 s) as [[| |pc']|] eqn:Epc; try done.
  injection Hrc as <- <-.
  apply bind_inv_Ok in H as (target & s0 & Hres & H).
  pose proof (resolvePath_state _ _ _ _ _ Hres) as ->.
  apply bind_inv_Ok in H as ([] & s0 & Hty & H).
  case_decide as Ety; [done|]. injection Hty as <-.
  apply bind_inv_Ok in H as (filesRemoved & s0 & Hcount & H).
  pose proof (proj1 (proj1 (countFilesInTree_Ok _ _ _ _ _) Hcount)) as ->.
  apply bind_inv_Ok in H as (newTreeSha & s1 & Hrm & H).
  apply bind_inv_Ok in H as (finalTree & s2 & Hfin & H).
  apply bind_inv_Ok in H as (commitSha & s3 & Hwc & H).
  apply bind_inv_Ok in H as ([] & s4 & Hsus & H).
  injection Hsus as <-.
  apply bind_inv_Ok in H as ([] & s5 & Hcas & H).
  injection H as <- <-. simpl.
  rewrite compareAndSwap_eval in Hcas. case_decide as Hexp; [|done].
  injection Hcas as <-.
  rewrite <- pathPartsOf_split in Hrm.
  eexists dirPath, p0, pc', target, s1, finalTree, s2, _, s3.
  split_and!; try done.
  destruct newTreeSha; [by injection Hfin as <- <- | done].
Qed.

Lemma writeCommit_inv c s id s' :
  writeCommit c s = (Ok id, s') -> grows s s' /\ readObject id s' = Some (CommitObject c).
Proof.
  intros H. destruct (writeCommit_spec c s) as (id' & s'' & H' & Hg & Hr).
  rewrite H in H'. by injection H' as <- <-.
Qed.

(** X8: no file is lost or made up when a directory is removed.  On a
    store whose trees have unique names, when the tree of the branch holds
    [n] files and [removeDirectory], running alone, succeeds, the tree of the
    commit it made holds [n] less the [filesRemoved] it reports, and a tree
    it reports as absent means that all [n] files were in the directory. *)
Theorem removeDirectory_conserves_files (fuel : nat) (client : Client)
    (input : RemoveDirectoryInput.t) (s : Store) (parentSha : OID) (pc : Commit.t)
    (n : nat) (res : RemoveDirectoryResult.t) (s' : Store) :
  uniqueNames s = true ->
  refs s !! normalizeRef (RemoveDirectoryInput.ref input) = Some parentSha ->
  readObject parentSha s = Some (CommitObject pc) ->
  countFilesInTree fuel (Commit.tree pc) s = (Ok n, s) ->
  removeDirectory id fuel client input s = (Ok res, s') ->
  exists c,
    readObject (RemoveDirectoryResult.commitSha res) s' = Some (CommitObject c)
    /\ Commit.parent c = [parentSha]
    /\ RemoveDirectoryResult.filesRemoved res <= n
    /\ countFilesInTree fuel (Commit.tree c) s'
       = (Ok (n - RemoveDirectoryResult.filesRemoved res), s')
    /\ (RemoveDirectoryResult.treeSha res = None ->
        RemoveDirectoryResult.filesRemoved res = n).
Proof.
  intros Hu Href Hpc Hn H.
  apply removeDirectory_inv_Ok in H
    as (dirPath & p0 & pc' & target & s1 & finalTree & s2 & c & s3 & Hdir & Href' & Hpc'
        & Hres & Hty & Hcount & Hrm & Hfin & Hwc & Hpar & Htree & _ & ->).
  cbv zeta in Href'. rewrite Href in Href'. injection Href' as <-.
  rewrite Hpc in Hpc'. injection Hpc' as <-.
  apply countFilesInTree_Ok in Hn as [_ Hn].
  apply countFilesInTree_Ok in Hcount as [_ Hcount].
  apply removeDirectoryFromTree_Ok in Hrm.
  pose proof (growing_removeFileFromTree _ _ _ _ _ Hrm) as Hg1.
  destruct (removeFileFromTree_count _ fuel s (Commit.tree pc) "040000" _ s1 n dirPath
              Hu Hrm Hn) as (e & k & Hloop & Hk & Hle & Hnew).
  assert (e = target) as ->.
  { unfold resolvePath in Hres. destruct (pathPartsOf dirPath) as [|x rest] eqn:Ep.
    - simpl in Hrm. rewrite bind_unfold in Hrm.
      by destruct (readTree_cases (Commit.tree pc) s) as [[raw Hr] | [code Hr]];
        rewrite Hr in Hrm.
    - rewrite Hloop in Hres. by injection Hres. }
  unfold resolvedCount in Hk. rewrite Hty in Hk.
  assert (k = RemoveDirectoryResult.filesRemoved res) as ->.
  { pose proof (fileCount_stable _ fuel s s _ _ (Nat.le_sub_l _ _) (reflexivity _) Hk)
      as Hk'.
    rewrite Hcount in Hk'. by injection Hk'. }
  apply writeCommit_inv in Hwc as [Hg3 Hc].
  exists c. split_and!; [exact Hc | exact Hpar | exact Hle | | ].
  - apply countFilesInTree_Ok. split; [done|]. rewrite Htree.
    destruct (RemoveDirectoryResult.treeSha res) as [t|].
    + destruct Hfin as [-> ->].
      apply (fileCount_stable fuel fuel s1); [lia | apply Hg3 | exact Hnew].
    + subst. apply writeTree_inv in Hfin as [Hg2 Hft].
      destruct fuel as [|fuel]; [done|]. simpl.
      change (readObject (Commit.tree c) (setRef _ _ s3))
        with (readObject (Commit.tree c) s3).
      rewrite (grows_readObject s2 s3 _ _ Hg3 Hft). simpl. f_equal. lia.
  - intros Hnone. rewrite Hnone in Hnew. by symmetry.
Qed.

Lemma removeDirectory_conserves_files_witness :
  let input := RemoveDirectoryInput.mk "main" "src" None None in
  let run := removeDirectory id 3 exampleClient input smallRepo in
  let res := RemoveDirectoryResult.mk 6 (Some 5) 1 in
  uniqueNames smallRepo = true
  /\ refs smallRepo !! normalizeRef "main" = Some 4
  /\ readObject 4 smallRepo = Some (CommitObject (Commit.mk "Initial commit" 3 [] ada ada))
  /\ countFilesInTree 3 3 smallRepo = (Ok 2, smallRepo)
  /\ run = (Ok res, run.2)
  /\ exists c,
       readObject 6 run.2 = Some (CommitObject c)
       /\ Commit.parent c = [4]
       /\ 1 <= 2
       /\ countFilesInTree 3 (Commit.tree c) run.2 = (Ok (2 - 1), run.2)
       /\ (Some 5 = None -> 1 = 2).
Proof.
  intros input run res.
  assert (run = (Ok res, run.2)) as Hrun by (vm_compute; reflexivity).
  split_and!; [reflexivity | reflexivity | reflexivity | reflexivity | exact Hrun |].
  apply (removeDirectory_conserves_files 3 exampleClient input smallRepo 4
           (Commit.mk "Initial commit" 3 [] ada ada) 2 res run.2);
    (reflexivity || exact Hrun).
Defined.

(** ** Reading ([operations/read-file.ts], [operations/get-file-details.ts]) *)

Section RespectsMore.
Context (R : relation Store) `{!Reflexive R} `{!Transitive R}.

Lemma respects_parse {A} (valid : bool) (input : A) : respects R (parse valid input).
Proof. unfold parse. destruct valid; [apply respects_ret | apply respects_throw]; apply _. Qed.

Lemma respects_readBlob id : respects R (readBlob id).
Proof.
  intros s r s'. unfold readBlob.
  destruct (readObject id s) as [[| |]|]; intros [= _ <-]; reflexivity.
Qed.

Lemma respects_resolvePath root p : respects R (resolvePath root p).
Proof. intros s r s' H. apply resolvePath_state in H as ->. reflexivity. Qed.

Lemma respects_countFilesInTree fuel : forall t, respects R (countFilesInTree fuel t).
Proof.
  induction fuel as [|fuel IH]; intros t; simpl; [apply respects_throw; apply _|].
  apply respects_bind; try apply _; [apply respects_readTree; apply _|]. intros raw.
  apply respects_forEach; try apply _. intros acc e.
  case_decide; [apply respects_ret; apply _|].
  case_decide; [|apply respects_ret; apply _].
  apply respects_bind; try apply _; [apply IH|]. intros; apply respects_ret; apply _.
Qed.

End RespectsMore.

(** X9: reading changes nothing.  Whatever [readFile], [getFileDetails],
    [listFiles] and [countFilesInTree] return, a result or a failure, the
    store they leave is the store they were started in. *)
Theorem reading_leaves_the_store (localeCompare : string -> string -> Z) :
  (forall input, respects eq (readFile input))
  /\ (forall input, respects eq (getFileDetails input))
  /\ (forall input, respects eq (listFiles localeCompare input))
  /\ (forall fuel t, respects eq (countFilesInTree fuel t)).
Proof.
  split_and!.
  - intros input. unfold readFile.
    apply respects_bind; try apply _; [apply respects_parse; apply _|]. intros v.
    apply respects_wrapErrors; try apply _.
    apply respects_bind; try apply _; [apply respects_resolveRef; apply _|]. intros c.
    apply respects_bind; try apply _; [apply respects_readCommit; apply _|]. intros cm.
    apply respects_bind; try apply _; [apply respects_resolvePath; apply _|]. intros t.
    apply respects_bind; try apply _.
    { case_decide; [apply respects_throw | apply respects_ret]; apply _. }
    intros []. apply respects_bind; try apply _; [apply respects_readBlob; apply _|].
    intros b. apply respects_ret; apply _.
  - intros input. unfold getFileDetails.
    apply respects_bind; try apply _; [apply respects_parse; apply _|]. intros v.
    apply respects_wrapErrors; try apply _.
    apply respects_bind; try apply _; [apply respects_resolveRef; apply _|]. intros c.
    apply respects_bind; try apply _; [apply respects_readCommit; apply _|]. intros cm.
    apply respects_bind; try apply _; [apply respects_resolvePath; apply _|]. intros t.
    apply respects_ret; apply _.
  - intros input. unfold listFiles.
    apply respects_bind; try apply _; [apply respects_parse; apply _|]. intros v.
    apply respects_wrapErrors; try apply _.
    apply respects_bind; try apply _; [apply respects_resolveRef; apply _|]. intros c.
    apply respects_bind; try apply _; [apply respects_readCommit; apply _|]. intros cm.
    apply respects_bind; try apply _.
    { case_decide; [|apply respects_ret; apply _].
      apply respects_bind; try apply _; [apply respects_resolvePath; apply _|]. intros t.
      case_decide; [apply respects_throw | apply respects_ret]; apply _. }
    intros t. apply respects_bind; try apply _; [apply respects_readTree; apply _|].
    intros raw. apply respects_ret; apply _.
  - intros fuel t. apply respects_countFilesInTree; apply _.
Qed.

(** ** Adding and then reading *)

Lemma upsertFileInTree_inv_any root x rest blobSha s newRoot s' :
  upsertFileInTree root (x :: rest) blobSha s = (Ok newRoot, s') ->
  exists raw,
    entriesOf s root = Some raw
    /\ match rest with
       | [] =>
           writeTree (dropEntry x (filterTreeEntries raw)
                      ++ [TreeEntry.mk "100644" x blobSha blob]) s = (Ok newRoot, s')
       | _ :: _ =>
           exists newSub s1,
             upsertFileInTree (TreeEntry.oid <$> findEntry x raw) rest blobSha s
               = (Ok newSub, s1)
             /\ writeTree (dropEntry x (filterTreeEntries raw)
                           ++ [TreeEntry.mk "040000" x newSub tree]) s1 = (Ok newRoot, s')
       end.
Proof.
  destruct root as [root|].
  - intros H. apply upsertFileInTree_inv in H as (raw & Hraw & H).
    exists raw. split; [|done]. simpl. by rewrite Hraw.
  - simpl. intros H. exists []. split; [done|].
    rewrite bind_mret in H. destruct rest as [|y rest']; [done|].
    rewrite bind_mret in H. cbv zeta in H.
    apply bind_inv_Ok in H as (newSub & s1 & Hsub & H). eauto.
Qed.

(** A file that was upserted is found at its path, and what lies on the
    way to it is a directory. *)
Lemma upsertFileInTree_Ok_resolves parts : forall s root blobSha newRoot s' tp s'',
  upsertFileInTree root parts blobSha s = (Ok newRoot, s') ->
  grows s' s'' ->
  resolvePath_loop tp parts (Resolved.mk newRoot "040000" tree) s'' =
    (Ok (Resolved.mk blobSha "100644" blob), s'')
  /\ forall pre post, parts = pre ++ post -> pre <> [] -> post <> [] ->
       exists dir, resolvePath_loop tp pre (Resolved.mk newRoot "040000" tree) s'' =
                     (Ok (Resolved.mk dir "040000" tree), s'').
Proof.
  induction parts as [|x rest IH]; intros s root blobSha newRoot s' tp s'' H G.
  { simpl in H. rewrite bind_unfold in H. by destruct (_ s) as [[?|?] ?]. }
  apply upsertFileInTree_inv_any in H as (raw & _ & H).
  destruct rest as [|y rest'].
  - apply writeTree_inv in H as [_ R]. apply (grows_readObject _ _ _ _ G) in R.
    pose proof (findEntry_written x (filterTreeEntries raw)
                  (TreeEntry.mk "100644" x blobSha blob) eq_refl ltac:(done)) as Hf.
    split.
    + by rewrite (resolvePath_loop_cons tp x [] (Resolved.mk newRoot "040000" tree) s'' _ _
                    eq_refl R Hf).
    + intros [|a pre] post Hparts Hpre Hpost; [done|].
      destruct pre; destruct post; try done; by simplify_list_eq.
  - destruct H as (newSub & s1 & Hsub & H).
    apply writeTree_inv in H as [G1 R]. apply (grows_readObject _ _ _ _ G) in R.
    pose proof (findEntry_written x (filterTreeEntries raw)
                  (TreeEntry.mk "040000" x newSub tree) eq_refl ltac:(done)) as Hf.
    destruct (IH s _ blobSha newSub s1 tp s'' Hsub ltac:(by etrans)) as [Hfile Hdirs].
    split.
    + by rewrite (resolvePath_loop_cons tp x _ (Resolved.mk newRoot "040000" tree) s'' _ _
                    eq_refl R Hf).
    + intros [|a pre] post Hparts Hpre Hpost; [done|].
      injection Hparts as <- Hrest.
      rewrite (resolvePath_loop_cons tp x _ (Resolved.mk newRoot "040000" tree) s'' _ _
                 eq_refl R Hf).
      destruct pre as [|b pre]; [by eexists|].
      by apply (Hdirs (b :: pre) post).
Qed.

Lemma parse_inv_Ok {A} (valid : bool) (input v : A) s s' :
  parse valid input s = (Ok v, s') -> valid = true /\ v = input /\ s' = s.
Proof. unfold parse. destruct valid; [|done]. by intros [= <- <-]. Qed.

Lemma min1_inv s : min1 s = true -> s <> "".
Proof. unfold min1. by intros ?%bool_decide_eq_true. Qed.

Lemma addManyFiles_inv_blobShas concurrent client input s res s' :
  addManyFiles concurrent client input s = (Ok res, s') ->
  exists processed s1,
    mapAwait fileProcessing (AddManyFilesInput.files input) s = (Ok processed, s1)
    /\ AddManyFilesResult.blobShas res
       = map (fun file => (ProcessedFile.filePath file, ProcessedFile.blobSha file)) processed.
Proof.
  unfold addManyFiles. intros H.
  apply bind_inv_Ok in H as (validated & s0 & Hparse & H).
  apply parse_inv_Ok in Hparse as (_ & -> & ->).
  apply wrapErrors_inv_Ok in H.
  apply bind_inv_Ok in H as (parentSha & s0 & Hpar & H).
  rewrite try_resolveRef in Hpar. injection Hpar as <- <-.
  apply bind_inv_Ok in H as (rootTreeSha & s0 & Hroot & H).
  assert (s0 = s) as ->.
  { destruct (refs s !! _) as [p|]; [|by injection Hroot as <- <-].
    apply bind_inv_Ok in Hroot as (pc & s0' & Hrc & Hroot). injection Hroot as <- <-.
    unfold readCommit in Hrc. destruct (readObject p s) as [[| |pc']|]; try done.
    by injection Hrc as <- <-. }
  apply bind_inv_Ok in H as (processed & s1 & Hproc & H).
  apply bind_inv_Ok in H as (cur & s2 & Hloop & H).
  destruct cur as [newTree|]; [|done].
  apply bind_inv_Ok in H as (commitSha & s3 & Hwc & H).
  apply bind_inv_Ok in H as ([] & s4 & Hsus & H).
  apply bind_inv_Ok in H as ([] & s5 & Hcas & H).
  injection H as <- <-. by exists processed, s1.
Qed.

(** What a successful [addFile] did. *)
Lemma addFile_inv_Ok concurrent client ref p content cm au s res s' :
  addFile concurrent client (AddFileInput.mk ref p content cm au) s = (Ok res, s') ->
  ref <> "" /\ p <> "" /\ pathPartsOf p <> []
  /\ exists rootTreeSha s1 s2 c s3,
       match refs s !! normalizeRef ref with
       | Some parent => exists pc, readObject parent s = Some (CommitObject pc)
                                   /\ rootTreeSha = Some (Commit.tree pc)
       | None => rootTreeSha = None
       end
       /\ writeBlob content s = (Ok (AddFileResult.blobSha res), s1)
       /\ upsertFileInTree rootTreeSha (pathPartsOf p) (AddFileResult.blobSha res) s1
          = (Ok (AddFileResult.treeSha res), s2)
       /\ writeCommit c s2 = (Ok (AddFileResult.commitSha res), s3)
       /\ Commit.parent c = match refs s !! normalizeRef ref with
                            | Some parent => [parent]
                            | None => []
                            end
       /\ Commit.tree c = AddFileResult.treeSha res
       /\ refs (concurrent s3) !! normalizeRef ref = refs s !! normalizeRef ref
       /\ s' = setRef (normalizeRef ref) (AddFileResult.commitSha res) (concurrent s3).
Proof.
  unfold addFile. intros H.
  apply bind_inv_Ok in H as (v & s0 & Hparse & H).
  apply parse_inv_Ok in Hparse as (Hvalid & -> & ->).
  apply andb_true_iff in Hvalid as [[Href%min1_inv Hp%min1_inv]%andb_true_iff _].
  simpl in Href, Hp.
  apply bind_inv_Ok in H as (result & s4 & Hadd & H). simpl in Hadd.
  destruct (addManyFiles_inv_blobShas _ _ _ _ _ _ Hadd) as (processed' & s1' & Hproc' & Hb).
  apply addManyFiles_inv_Ok in Hadd
    as (rootTreeSha & processed & s1 & s2 & s3 & c & Hroot & Hproc & Hloop & Hwc & Hpar
        & Htree & Hcas & ->).
  apply mapAwait_Ok in Hproc, Hproc'.
  simpl in *. rewrite Hproc in Hproc'. injection Hproc' as <- <-.
  apply bind_inv_Ok in Hproc as (pf & s1'' & Hpf & Hproc).
  rewrite bind_mret in Hproc. injection Hproc as <- <-.
  unfold fileProcessing in Hpf. simpl in Hpf.
  apply bind_inv_Ok in Hpf as (blobSha & s1' & Hwb & Hpf).
  case_decide as Hparts; [done|]. injection Hpf as <- <-.
  simpl in Hloop. unfold addManyFiles_loop in Hloop. simpl in Hloop.
  apply bind_inv_Ok in Hloop as (t & s2' & Hup & Hloop).
  injection Hloop as -> ->. rewrite fmap_unfold in Hup.
  destruct (upsertFileInTree rootTreeSha (pathPartsOf p) blobSha s1') as [[newTree|e] s2']
    eqn:Eup; [|done].
  injection Hup as Ht ->.
  rewrite Hb in H. simpl in H. injection H as <- <-. simpl.
  split_and!; try done. exists rootTreeSha, s1', s2, c, s3. split_and!; try done.
  by rewrite <- Ht.
Qed.

Lemma normalizeRef_nonempty ref : ref <> "" -> normalizeRef ref <> "".
Proof.
  intros H. unfold normalizeRef. case_decide; [done|].
  destruct (startsWith ref "refs/"); [done|].
  change ("refs/heads/" ++ ref)%string with (String "r" ("efs/heads/" ++ ref)%string). done.
Qed.

Lemma readFile_run ref p encoding s commitSha c target content :
  ref <> "" -> p <> "" ->
  refs s !! ref = Some commitSha ->
  readObject commitSha s = Some (CommitObject c) ->
  resolvePath (Commit.tree c) p s = (Ok target, s) ->
  Resolved.type target = blob ->
  readObject (Resolved.sha target) s = Some (BlobObject content) ->
  readFile (ReadFileInput.mk (Some ref) p encoding) s =
  (Ok (ReadFileResult.mk
         match default auto encoding with
         | buffer => asBuffer content
         | utf8 => asString content
         | auto => if isBinaryBuffer content then asBuffer content else asString content
         end
         (Resolved.mode target) (Resolved.sha target)), s).
Proof.
  intros Href Hp Hrefs Hc Hres Hty Hblob. unfold readFile, ReadFileInputSchema. simpl.
  rewrite !min1_true by done. simpl. rewrite bind_mret. simpl.
  apply wrapErrors_Ok.
  rewrite (bind_Ok _ _ _ _ _ (resolveRef_Ok _ _ _ Hrefs)).
  rewrite (bind_Ok _ _ _ _ _ (readCommit_object _ _ _ Hc)).
  rewrite (bind_Ok _ _ _ _ _ Hres).
  rewrite decide_False by (by rewrite Hty; intros H; apply H). rewrite bind_mret.
  by rewrite (bind_Ok _ _ _ _ _ (readBlob_object _ _ _ Hblob)).
Qed.

Lemma getFileDetails_run ref p s commitSha c target :
  ref <> "" -> p <> "" ->
  refs s !! ref = Some commitSha ->
  readObject commitSha s = Some (CommitObject c) ->
  resolvePath (Commit.tree c) p s = (Ok target, s) ->
  getFileDetails (GetFileDetailsInput.mk (Some ref) p) s =
  (Ok (GetFileDetailsResult.mk (Resolved.mode target) (Resolved.sha target)
         (Resolved.type target)), s).
Proof.
  intros Href Hp Hrefs Hc Hres. unfold getFileDetails, GetFileDetailsInputSchema. simpl.
  rewrite !min1_true by done. simpl. rewrite bind_mret. simpl.
  apply wrapErrors_Ok.
  rewrite (bind_Ok _ _ _ _ _ (resolveRef_Ok _ _ _ Hrefs)).
  rewrite (bind_Ok _ _ _ _ _ (readCommit_object _ _ _ Hc)).
  by rewrite (bind_Ok _ _ _ _ _ Hres).
Qed.

Lemma wrapErrors_Err {A} op (m : M A) s code ctx s' :
  m s = (Err (BareGitClientError code ctx), s') ->
  wrapErrors op m s = (Err (BareGitClientError code ctx), s').
Proof. intros H. unfold wrapErrors, try_catch. by rewrite H. Qed.

Lemma readFile_run_Err ref p encoding s commitSha c code ctx :
  ref <> "" -> p <> "" ->
  refs s !! ref = Some commitSha ->
  readObject commitSha s = Some (CommitObject c) ->
  resolvePath (Commit.tree c) p s = (Err (BareGitClientError code ctx), s) ->
  readFile (ReadFileInput.mk (Some ref) p encoding) s
  = (Err (BareGitClientError code ctx), s).
Proof.
  intros Href Hp Hrefs Hc Hres. unfold readFile, ReadFileInputSchema. simpl.
  rewrite !min1_true by done. simpl. rewrite bind_mret. simpl.
  apply wrapErrors_Err.
  rewrite (bind_Ok _ _ _ _ _ (resolveRef_Ok _ _ _ Hrefs)).
  rewrite (bind_Ok _ _ _ _ _ (readCommit_object _ _ _ Hc)).
  by rewrite (bind_Err _ _ _ _ _ Hres).
Qed.

Lemma getFileDetails_run_Err ref p s commitSha c code ctx :
  ref <> "" -> p <> "" ->
  refs s !! ref = Some commitSha ->
  readObject commitSha s = Some (CommitObject c) ->
  resolvePath (Commit.tree c) p s = (Err (BareGitClientError code ctx), s) ->
  getFileDetails (GetFileDetailsInput.mk (Some ref) p) s
  = (Err (BareGitClientError code ctx), s).
Proof.
  intros Href Hp Hrefs Hc Hres. unfold getFileDetails, GetFileDetailsInputSchema. simpl.
  rewrite !min1_true by done. simpl. rewrite bind_mret. simpl.
  apply wrapErrors_Err.
  rewrite (bind_Ok _ _ _ _ _ (resolveRef_Ok _ _ _ Hrefs)).
  rewrite (bind_Ok _ _ _ _ _ (readCommit_object _ _ _ Hc)).
  by rewrite (bind_Err _ _ _ _ _ Hres).
Qed.

Lemma writeBlob_inv content s id s' :
  writeBlob content s = (Ok id, s') ->
  grows s s' /\ readObject id s' = Some (BlobObject content).
Proof.
  intros H. destruct (writeObject_spec (BlobObject content) s) as (id' & s'' & H' & Hg & Hr).
  unfold writeBlob in H. rewrite H in H'. by injection H' as <- <-.
Qed.

Lemma resolvePath_eq root p :
  pathPartsOf p <> [] ->
  resolvePath root p = resolvePath_loop p (pathPartsOf p) (Resolved.mk root "040000" tree).
Proof. intros H. unfold resolvePath. by destruct (pathPartsOf p). Qed.

(** Resolving a path looks at the objects only. *)
Lemma resolvePath_loop_objects tp parts : forall cur s s',
  objects s = objects s' ->
  resolvePath_loop tp parts cur s' = ((resolvePath_loop tp parts cur s).1, s').
Proof.
  induction parts as [|part rest IH]; intros cur s s' Ho; simpl; [done|].
  case_decide; [done|]. rewrite !bind_unfold. unfold readTree, readObject. rewrite <- Ho.
  destruct (objects s !! Resolved.sha cur) as [[| raw |]|]; try done.
  destruct (findEntry part (filterTreeEntries raw)); [by apply IH | done].
Qed.

Lemma resolvePath_objects root p s s' :
  objects s = objects s' ->
  resolvePath root p s' = ((resolvePath root p s).1, s').
Proof.
  intros Ho. unfold resolvePath. destruct (pathPartsOf p); [done|].
  by apply resolvePath_loop_objects.
Qed.

(** X10: a file that was added is the file that is read.  After a
    successful [addFile] that ran alone, [readFile] of the same path on the
    same branch returns the content that was given, as bytes or as text
    as the encoding asks, with the mode [100644] and the OID [addFile]
    reported for the blob; [getFileDetails] reports the same mode and OID
    and the kind [blob]. *)
Theorem addFile_then_readFile (client : Client) (ref p content : string)
    (cm : option string) (au : option Author) (encoding : option Encoding)
    (s : Store) (res : AddFileResult.t) (s' : Store) :
  addFile id client (AddFileInput.mk ref p content cm au) s = (Ok res, s') ->
  readFile (ReadFileInput.mk (Some (normalizeRef ref)) p encoding) s'
  = (Ok (ReadFileResult.mk
           match default auto encoding with
           | buffer => asBuffer content
           | utf8 => asString content
           | auto => if isBinaryBuffer content then asBuffer content else asString content
           end
           "100644" (AddFileResult.blobSha res)), s')
  /\ getFileDetails (GetFileDetailsInput.mk (Some (normalizeRef ref)) p) s'
     = (Ok (GetFileDetailsResult.mk "100644" (AddFileResult.blobSha res) blob), s').
Proof.
  intros H.
  apply addFile_inv_Ok in H
    as (Href & Hp & Hparts & rootTreeSha & s1 & s2 & c & s3 & _ & Hwb & Hup & Hwc & _
        & Htree & _ & ->).
  apply writeBlob_inv in Hwb as [G1 Hblob].
  pose proof (growing_upsertFileInTree _ _ _ _ _ _ Hup) as G2.
  apply writeCommit_inv in Hwc as [G3 Hc].
  set (s' := setRef (normalizeRef ref) (AddFileResult.commitSha res) (id s3)).
  assert (forall i o, readObject i s3 = Some o -> readObject i s' = Some o) as Hs' by done.
  destruct (upsertFileInTree_Ok_resolves _ _ _ _ _ _ p s3 Hup G3) as [Hres _].
  assert (resolvePath (Commit.tree c) p s'
          = (Ok (Resolved.mk (AddFileResult.blobSha res) "100644" blob), s')) as Hres'.
  { rewrite (resolvePath_objects _ _ s3 s') by done.
    by rewrite resolvePath_eq, Htree, Hres by done. }
  pose proof (normalizeRef_nonempty ref Href) as Hn.
  assert (refs s' !! normalizeRef ref = Some (AddFileResult.commitSha res)) as Hrefs
    by apply lookup_insert_eq.
  split.
  - apply (readFile_run _ _ _ _ _ c _ content Hn Hp Hrefs (Hs' _ _ Hc) Hres' eq_refl).
    apply Hs'. simpl. apply (grows_readObject s1); [by etrans | done].
  - apply (getFileDetails_run _ _ _ _ c _ Hn Hp Hrefs (Hs' _ _ Hc) Hres').
Qed.

Lemma addFile_then_readFile_witness :
  let run := addFile id exampleClient
               (AddFileInput.mk "main" "docs/guide.md" "read me" None None) smallRepo in
  exists res,
    run = (Ok res, run.2)
    /\ readFile (ReadFileInput.mk (Some (normalizeRef "main")) "docs/guide.md" (Some utf8))
         run.2
       = (Ok (ReadFileResult.mk (asString "read me") "100644" (AddFileResult.blobSha res)),
          run.2)
    /\ getFileDetails (GetFileDetailsInput.mk (Some (normalizeRef "main")) "docs/guide.md")
         run.2
       = (Ok (GetFileDetailsResult.mk "100644" (AddFileResult.blobSha res) blob), run.2).
Proof.
  intros run.
  assert (exists res, run = (Ok res, run.2)) as [res Hrun]
    by (eexists; vm_compute; reflexivity).
  exists res. split; [exact Hrun|].
  exact (addFile_then_readFile exampleClient "main" "docs/guide.md" "read me" None None
           (Some utf8) smallRepo res run.2 Hrun).
Defined.

(** ** The directory of a placeholder *)

Lemma addFile_resolves client ref p content cm au s res s' :
  addFile id client (AddFileInput.mk ref p content cm au) s = (Ok res, s') ->
  ref <> ""
  /\ exists c,
       refs s' !! normalizeRef ref = Some (AddFileResult.commitSha res)
       /\ readObject (AddFileResult.commitSha res) s' = Some (CommitObject c)
       /\ readObject (AddFileResult.blobSha res) s' = Some (BlobObject content)
       /\ forall tp,
            resolvePath_loop tp (pathPartsOf p) (Resolved.mk (Commit.tree c) "040000" tree) s'
            = (Ok (Resolved.mk (AddFileResult.blobSha res) "100644" blob), s')
            /\ forall pre post, pathPartsOf p = pre ++ post -> pre <> [] -> post <> [] ->
                 exists dir,
                   resolvePath_loop tp pre (Resolved.mk (Commit.tree c) "040000" tree) s'
                   = (Ok (Resolved.mk dir "040000" tree), s').
Proof.
  intros H.
  apply addFile_inv_Ok in H
    as (Href & Hp & Hparts & rootTreeSha & s1 & s2 & c & s3 & _ & Hwb & Hup & Hwc & _
        & Htree & _ & ->).
  apply writeBlob_inv in Hwb as [G1 Hblob].
  pose proof (growing_upsertFileInTree _ _ _ _ _ _ Hup) as G2.
  apply writeCommit_inv in Hwc as [G3 Hc].
  set (s' := setRef (normalizeRef ref) (AddFileResult.commitSha res) (id s3)).
  assert (forall i o, readObject i s3 = Some o -> readObject i s' = Some o) as Hs' by done.
  split; [done|]. exists c. split_and!.
  - apply lookup_insert_eq.
  - by apply Hs'.
  - apply Hs'. apply (grows_readObject s1); [by etrans | done].
  - intros tp.
    destruct (upsertFileInTree_Ok_resolves _ _ _ _ _ _ tp s3 Hup G3) as [Hres Hdirs].
    rewrite Htree. split.
    + rewrite (resolvePath_loop_objects _ _ _ s3 s') by done. by rewrite Hres.
    + intros pre post Hpp Hpre Hpost.
      destruct (Hdirs pre post Hpp Hpre Hpost) as [dir Hdir]. exists dir.
      rewrite (resolvePath_loop_objects _ _ _ s3 s') by done. by rewrite Hdir.
Qed.

(** X11: [addPlaceholder] makes the directory.  After a successful
    [addPlaceholder] that ran alone, with a file name that has a part of
    its own, the normalized directory path is a directory of the branch
    ([getFileDetails] reports a tree of mode [040000]), and the file of the
    given name in it holds the text of the placeholder. *)
Theorem addPlaceholder_makes_directory (client : Client) (ref dir name : string)
    (cm : option string) (au : option Author) (s : Store)
    (res : AddFileResult.t) (s' : Store) :
  pathPartsOf name <> [] ->
  addPlaceholder id client (AddPlaceholderInput.mk ref dir name cm au) s = (Ok res, s') ->
  let dirPath := stripSlashes (collapseSlashes (trim dir)) in
  (exists sha,
     getFileDetails (GetFileDetailsInput.mk (Some (normalizeRef ref)) dirPath) s'
     = (Ok (GetFileDetailsResult.mk "040000" sha tree), s'))
  /\ readFile (ReadFileInput.mk (Some (normalizeRef ref)) (dirPath ++ "/" ++ name)%string None) s'
     = (Ok (ReadFileResult.mk (asString PLACEHOLDER_CONTENT) "100644"
              (AddFileResult.blobSha res)), s').
Proof.
  intros Hname H dirPath. unfold addPlaceholder in H.
  apply bind_inv_Ok in H as (v & s0 & Hparse & H).
  apply parse_inv_Ok in Hparse as (_ & -> & ->).
  apply bind_inv_Ok in H as (d & s0 & Hv & H). simpl in Hv, H.
  destruct (validateDirectoryPath_eval dir s) as [Heval Hsplit].
  rewrite Heval in Hv. case_decide as Hok; [|done]. injection Hv as <- <-.
  destruct Hok as [Hne _]. specialize (Hsplit Hne). fold dirPath in Hsplit, H.
  assert (pathPartsOf dirPath = pathPartsOf (trim dir)) as Hdp.
  { rewrite pathPartsOf_split, Hsplit, (pathPartsOf_split (trim dir)).
    apply filterBoolean_idemp. }
  assert (dirPath <> "") as Hd.
  { intros E. rewrite E in Hdp. by rewrite <- Hdp in Hne. }
  apply addFile_resolves in H as (Href & c & Hrefs & Hc & Hblob & Hres).
  pose proof (normalizeRef_nonempty ref Href) as Hn.
  rewrite pathPartsOf_app_slash in Hres.
  split.
  - destruct (Hres dirPath) as [_ Hdirs].
    destruct (Hdirs (pathPartsOf dirPath) (pathPartsOf name) eq_refl) as [sha Hdir];
      [by rewrite Hdp | done |].
    exists sha.
    apply (getFileDetails_run _ _ _ _ c (Resolved.mk sha "040000" tree) Hn Hd Hrefs Hc).
    rewrite resolvePath_eq by (by rewrite Hdp). exact Hdir.
  - set (p := (dirPath ++ "/" ++ name)%string).
    assert (pathPartsOf p <> []) as Hp.
    { unfold p. rewrite pathPartsOf_app_slash. intros [_ E]%app_eq_nil. done. }
    assert (p <> "") as Hp'. { intros E. by rewrite E in Hp. }
    destruct (Hres p) as [Hfile _].
    apply (readFile_run _ _ None _ _ c (Resolved.mk (AddFileResult.blobSha res) "100644" blob)
             PLACEHOLDER_CONTENT Hn Hp' Hrefs Hc); [|done|done].
    rewrite resolvePath_eq by done. unfold p. rewrite pathPartsOf_app_slash. exact Hfile.
Qed.

Lemma addPlaceholder_makes_directory_witness :
  let run := addPlaceholder id exampleClient
               (AddPlaceholderInput.mk "main" " /docs//img/ " ".gitkeep" None None)
               emptyStore in
  pathPartsOf ".gitkeep" <> []
  /\ exists res,
       run = (Ok res, run.2)
       /\ (exists sha,
             getFileDetails (GetFileDetailsInput.mk (Some (normalizeRef "main")) "docs/img")
               run.2
             = (Ok (GetFileDetailsResult.mk "040000" sha tree), run.2))
       /\ readFile (ReadFileInput.mk (Some (normalizeRef "main")) "docs/img/.gitkeep" None)
            run.2
          = (Ok (ReadFileResult.mk (asString PLACEHOLDER_CONTENT) "100644"
                   (AddFileResult.blobSha res)), run.2).
Proof.
  intros run.
  assert (pathPartsOf ".gitkeep" <> []) as Hname by (vm_compute; discriminate).
  split; [exact Hname|].
  assert (exists res, run = (Ok res, run.2)) as [res Hrun]
    by (eexists; vm_compute; reflexivity).
  exists res. split; [exact Hrun|].
  exact (addPlaceholder_makes_directory exampleClient "main" " /docs//img/ " ".gitkeep"
           None None emptyStore res run.2 Hname Hrun).
Defined.

(** ** A branch that does not exist yet *)











(** ** Removing and then reading *)

(** What a successful [removeFile] did. *)
Lemma removeFile_inv_Ok concurrent client ref p cm au s res s' :
  removeFile concurrent client (RemoveFileInput.mk ref p cm au) s = (Ok res, s') ->
  ref <> "" /\ p <> "" /\ pathPartsOf p <> []
  /\ exists parentSha pc s1 finalTree s2 c s3,
       refs s !! normalizeRef ref = Some parentSha
       /\ readObject parentSha s = Some (CommitObject pc)
       /\ removeFileFromTree (Some (Commit.tree pc)) (pathPartsOf p) s
          = (Ok (RemoveFileResult.treeSha res), s1)
       /\ match RemoveFileResult.treeSha res with
          | Some t => finalTree = t /\ s2 = s1
          | None => writeTree [] s1 = (Ok finalTree, s2)
          end
       /\ writeCommit c s2 = (Ok (RemoveFileResult.commitSha res), s3)
       /\ Commit.parent c = [parentSha]
       /\ Commit.tree c = finalTree
       /\ refs (concurrent s3) !! normalizeRef ref = Some parentSha
       /\ s' = setRef (normalizeRef ref) (RemoveFileResult.commitSha res) (concurrent s3).
Proof.
  unfold removeFile. intros H.
  apply bind_inv_Ok in H as (v & s0 & Hparse & H).
  apply parse_inv_Ok in Hparse as (Hvalid & -> & ->).
  apply andb_true_iff in Hvalid as [[Href%min1_inv Hp%min1_inv]%andb_true_iff _].
  simpl in Href, Hp.
  apply bind_inv_Ok in H as (result & s4 & Hrm & H). simpl in Hrm.
  injection H as <- <-. simpl.
  unfold removeManyFiles in Hrm.
  apply bind_inv_Ok in Hrm as (v & s0 & Hparse & H).
  apply parse_inv_Ok in Hparse as (_ & -> & ->). simpl in H.
  apply wrapErrors_inv_Ok in H.
  apply bind_inv_Ok in H as ([] & s0 & Hdup & H).
  assert (s0 = s) as -> by (case_decide; by injection Hdup).
  clear Hdup.
  apply bind_inv_Ok in H as (parentSha & s0 & Hpar & H).
  unfold resolveRef in Hpar.
  destruct (refs s !! normalizeRef ref) as [p0|] eqn:Eref; [|done].
  injection Hpar as <- <-.
  apply bind_inv_Ok in H as (pc & s0 & Hrc & H).
  unfold readCommit in Hrc. destruct (readObject p0 s) as [[| |pc']|] eqn:Epc; try done.
  injection Hrc as <- <-.
  apply bind_inv_Ok in H as (prepared & s0 & Hprep & H).
  simpl in Hprep. apply bind_inv_Ok in Hprep as (pp & s0' & Hpp & Hprep).
  rewrite bind_mret in Hprep. injection Hprep as <- <-.
  case_decide as Hparts; [done|]. injection Hpp as <- <-.
  apply bind_inv_Ok in H as (cur & s1 & Hloop & H).
  simpl in Hloop. apply bind_inv_Ok in Hloop as (cur' & s1' & Hrem & Hloop).
  injection Hloop as -> ->.
  apply bind_inv_Ok in H as (finalTree & s2 & Hfin & H).
  apply bind_inv_Ok in H as (commitSha & s3 & Hwc & H).
  apply bind_inv_Ok in H as ([] & s4' & Hsus & H).
  injection Hsus as <-.
  apply bind_inv_Ok in H as ([] & s5 & Hcas & H).
  injection H as <- <-. simpl.
  rewrite compareAndSwap_eval in Hcas. case_decide as Hexp; [|done].
  injection Hcas as <-.
  split_and!; try done.
  eexists p0, pc', s1, finalTree, s2, _, s3. split_and!; try done.
  destruct cur; [by injection Hfin as <- <- | done].
Qed.

(** X12: a file that was removed is not found any more.  After a
    successful [removeFile] that ran alone, [readFile] and [getFileDetails]
    of the same path on the same branch fail with [NOT_FOUND]. *)
Theorem removeFile_then_readFile (client : Client) (ref p : string)
    (cm : option string) (au : option Author) (encoding : option Encoding)
    (s : Store) (res : RemoveFileResult.t) (s' : Store) :
  removeFile id client (RemoveFileInput.mk ref p cm au) s = (Ok res, s') ->
  readFile (ReadFileInput.mk (Some (normalizeRef ref)) p encoding) s'
    = (Err (notFound "Path"), s')
  /\ getFileDetails (GetFileDetailsInput.mk (Some (normalizeRef ref)) p) s'
     = (Err (notFound "Path"), s').
Proof.
  intros H.
  apply removeFile_inv_Ok in H
    as (Href & Hp & Hparts & parentSha & pc & s1 & finalTree & s2 & c & s3 & _ & _ & Hrm
        & Hfin & Hwc & _ & Htree & _ & ->).
  apply writeCommit_inv in Hwc as [G3 Hc].
  set (s' := setRef (normalizeRef ref) (RemoveFileResult.commitSha res) (id s3)).
  assert (forall i o, readObject i s3 = Some o -> readObject i s' = Some o) as Hs' by done.
  assert (resolvePath_loop p (pathPartsOf p) (Resolved.mk finalTree "040000" tree) s3
          = (Err (notFound "Path"), s3)) as Hres.
  { destruct (RemoveFileResult.treeSha res) as [t|].
    - destruct Hfin as [-> ->]. by apply (removeFileFromTree_unresolvable _ _ _ _ _ _ _ Hrm).
    - apply writeTree_inv in Hfin as [_ R]. apply (grows_readObject _ _ _ _ G3) in R.
      destruct (pathPartsOf p) as [|x rest]; [done|]. simpl.
      by rewrite (bind_Ok _ _ _ _ _ (readTree_object _ _ _ R)). }
  assert (resolvePath (Commit.tree c) p s' = (Err (notFound "Path"), s')) as Hres'.
  { rewrite (resolvePath_objects _ _ s3 s') by done.
    by rewrite resolvePath_eq, Htree, Hres by done. }
  pose proof (normalizeRef_nonempty ref Href) as Hn.
  assert (refs s' !! normalizeRef ref = Some (RemoveFileResult.commitSha res)) as Hrefs
    by apply lookup_insert_eq.
  split.
  - apply (readFile_run_Err _ _ _ _ _ c _ _ Hn Hp Hrefs (Hs' _ _ Hc) Hres').
  - apply (getFileDetails_run_Err _ _ _ _ c _ _ Hn Hp Hrefs (Hs' _ _ Hc) Hres').
Qed.

Lemma removeFile_then_readFile_witness :
  let run := removeFile id exampleClient
               (RemoveFileInput.mk "main" "src/a.txt" None None) smallRepo in
  exists res,
    run = (Ok res, run.2)
    /\ readFile (ReadFileInput.mk (Some (normalizeRef "main")) "src/a.txt" None) run.2
       = (Err (notFound "Path"), run.2)
    /\ getFileDetails (GetFileDetailsInput.mk (Some (normalizeRef "main")) "src/a.txt") run.2
       = (Err (notFound "Path"), run.2).
Proof.
  intros run.
  assert (exists res, run = (Ok res, run.2)) as [res Hrun]
    by (eexists; vm_compute; reflexivity).
  exists res. split; [exact Hrun|].
  exact (removeFile_then_readFile exampleClient "main" "src/a.txt" None None None
           smallRepo res run.2 Hrun).
Defined.

(** ** Branches ([operations/create-branch.ts], [operations/remove-branch.ts]) *)

Lemma createBranch_eval branchName sourceBranch force s :
  branchName <> "" -> sourceBranch <> Some "" ->
  createBranch (CreateBranchInput.mk branchName sourceBranch force) s =
  match refs s !! from_option normalizeRef "HEAD" sourceBranch with
  | None => (Err (notFound "Source branch"), s)
  | Some sha =>
      if decide (refs s !! normalizeRef branchName = None \/ force = Some true)
      then (Ok (CreateBranchResult.mk branchName sha), setRef (normalizeRef branchName) sha s)
      else (Err (alreadyExists "Branch" branchName), s)
  end.
Proof.
  intros Hb Hs. unfold createBranch, CreateBranchInputSchema. simpl.
  rewrite (min1_true branchName Hb).
  assert (from_option min1 true sourceBranch = true) as ->.
  { destruct sourceBranch as [b|]; [|done]. simpl. apply min1_true. congruence. }
  simpl. rewrite bind_mret. simpl.
  assert (match sourceBranch with
          | Some b => if decide (b = "") then "HEAD" else normalizeRef b
          | None => "HEAD"
          end = from_option normalizeRef "HEAD" sourceBranch) as ->.
  { destruct sourceBranch as [b|]; [|done]. simpl. case_decide; congruence. }
  unfold wrapErrors, try_catch at 1. rewrite bind_unfold. unfold try_catch at 1, resolveRef.
  destruct (refs s !! from_option normalizeRef "HEAD" sourceBranch) as [sha|]; [|done].
  unfold try_catch. rewrite bind_unfold. unfold writeRef.
  destruct (refs s !! normalizeRef branchName) as [old|] eqn:Eold.
  - destruct force as [[|]|]; simpl; try case_decide; try done;
      try (by destruct_or!); exfalso; auto.
  - simpl. try case_decide; try done; exfalso; auto.
Qed.

Lemma removeBranch_eval branchName s :
  branchName <> "" ->
  removeBranch (RemoveBranchInput.mk branchName) s =
  match refs s !! normalizeRef branchName with
  | None => (Err (notFound "Branch"), s)
  | Some sha =>
      (Ok (RemoveBranchResult.mk branchName sha),
       {| objects := objects s; refs := delete (normalizeRef branchName) (refs s) |})
  end.
Proof.
  intros Hb. unfold removeBranch, RemoveBranchInputSchema. simpl.
  rewrite (min1_true branchName Hb). simpl. rewrite bind_mret. simpl.
  unfold wrapErrors, try_catch at 1. rewrite bind_unfold. unfold try_catch, resolveRef.
  by destruct (refs s !! normalizeRef branchName) as [sha|].
Qed.

(** X13: [createBranch] on a branch name and a source that the schema
    accepts.  When the source (by default [HEAD]) does not resolve it fails
    with [NOT_FOUND]; when the branch exists and [force] is not set it fails
    with [ALREADY_EXISTS]; both leave the store as it was.  Otherwise it
    points the branch at the commit of the source and changes no other
    reference and no object. *)
Theorem createBranch_spec (branchName : string) (sourceBranch : option string)
    (force : option bool) (s : Store) :
  branchName <> "" -> sourceBranch <> Some "" ->
  let sourceRef := from_option normalizeRef "HEAD" sourceBranch in
  let newRef := normalizeRef branchName in
  let run := createBranch (CreateBranchInput.mk branchName sourceBranch force) s in
  (refs s !! sourceRef = None -> run = (Err (notFound "Source branch"), s))
  /\ (forall sha, refs s !! sourceRef = Some sha ->
        is_Some (refs s !! newRef) -> force <> Some true ->
        run = (Err (alreadyExists "Branch" branchName), s))
  /\ (forall sha, refs s !! sourceRef = Some sha ->
        refs s !! newRef = None \/ force = Some true ->
        exists s', run = (Ok (CreateBranchResult.mk branchName sha), s')
                   /\ refs s' !! newRef = Some sha
                   /\ (forall r, r <> newRef -> refs s' !! r = refs s !! r)
                   /\ objects s' = objects s).
Proof.
  intros Hb Hs sourceRef newRef run. subst run. rewrite createBranch_eval by done.
  fold sourceRef newRef. split_and!.
  - by intros ->.
  - intros sha -> [old Hold] Hf. rewrite decide_False; [done|].
    intros [Hn|Hn]; [by rewrite Hold in Hn | done].
  - intros sha -> Hor. rewrite decide_True by done. eexists. split; [done|].
    split_and!; [apply lookup_insert_eq | | done].
    intros r Hr. simpl. by apply lookup_insert_ne.
Qed.

Lemma createBranch_spec_witness :
  "topic" <> "" /\ Some "main" <> Some ""
  /\ (refs smallRepo !! "refs/heads/main" = None ->
      createBranch (CreateBranchInput.mk "topic" (Some "main") None) smallRepo
        = (Err (notFound "Source branch"), smallRepo))
  /\ (forall sha, refs smallRepo !! "refs/heads/main" = Some sha ->
        is_Some (refs smallRepo !! "refs/heads/topic") -> None <> Some true ->
        createBranch (CreateBranchInput.mk "topic" (Some "main") None) smallRepo
          = (Err (alreadyExists "Branch" "topic"), smallRepo))
  /\ (forall sha, refs smallRepo !! "refs/heads/main" = Some sha ->
        refs smallRepo !! "refs/heads/topic" = None \/ None = Some true ->
        exists s', createBranch (CreateBranchInput.mk "topic" (Some "main") None) smallRepo
                     = (Ok (CreateBranchResult.mk "topic" sha), s')
                   /\ refs s' !! "refs/heads/topic" = Some sha
                   /\ (forall r, r <> "refs/heads/topic" -> refs s' !! r = refs smallRepo !! r)
                   /\ objects s' = objects smallRepo).
Proof.
  assert ("topic" <> "") as H1 by discriminate.
  assert (Some "main" <> Some "") as H2 by discriminate.
  split; [exact H1|]. split; [exact H2|].
  exact (createBranch_spec "topic" (Some "main") None smallRepo H1 H2).
Defined.

(** X14: [removeBranch] fails with [NOT_FOUND] on a branch that does not
    resolve and leaves the store as it was; on one that resolves it
    returns its commit and deletes this reference, and no other reference
    and no object.  It undoes [createBranch]: removing a branch that
    [createBranch] made, where there was none, gives back the store from
    before. *)
Theorem removeBranch_spec (branchName : string) (s : Store) :
  branchName <> "" ->
  let ref := normalizeRef branchName in
  let run := removeBranch (RemoveBranchInput.mk branchName) s in
  (refs s !! ref = None -> run = (Err (notFound "Branch"), s))
  /\ (forall sha, refs s !! ref = Some sha ->
        exists s', run = (Ok (RemoveBranchResult.mk branchName sha), s')
                   /\ refs s' !! ref = None
                   /\ (forall r, r <> ref -> refs s' !! r = refs s !! r)
                   /\ objects s' = objects s)
  /\ (forall sourceBranch force s0 res,
        refs s0 !! ref = None ->
        createBranch (CreateBranchInput.mk branchName sourceBranch force) s0 = (Ok res, s) ->
        run = (Ok (RemoveBranchResult.mk branchName (CreateBranchResult.commitSha res)), s0)).
Proof.
  intros Hb ref run. subst run. rewrite removeBranch_eval by done. fold ref. split_and!.
  - by intros ->.
  - intros sha ->. eexists. split; [done|].
    split_and!; [apply lookup_delete_eq | | done].
    intros r Hr. simpl. by apply lookup_delete_ne.
  - intros sourceBranch force s0 res Hnone Hcreate.
    assert (sourceBranch <> Some "") as Hs.
    { intros ->. unfold createBranch, CreateBranchInputSchema in Hcreate. simpl in Hcreate.
      rewrite andb_false_r in Hcreate. done. }
    rewrite createBranch_eval in Hcreate by done.
    destruct (refs s0 !! from_option normalizeRef "HEAD" sourceBranch) as [sha|]; [|done].
    case_decide; [|done]. injection Hcreate as <- <-. fold ref. simpl.
    rewrite lookup_insert_eq. f_equal. destruct s0 as [os rs]. simpl in *. f_equal.
    by apply delete_insert_id.
Qed.

Lemma removeBranch_spec_witness :
  "main" <> ""
  /\ (refs smallRepo !! normalizeRef "main" = None ->
      removeBranch (RemoveBranchInput.mk "main") smallRepo = (Err (notFound "Branch"), smallRepo))
  /\ (forall sha, refs smallRepo !! normalizeRef "main" = Some sha ->
        exists s', removeBranch (RemoveBranchInput.mk "main") smallRepo
                     = (Ok (RemoveBranchResult.mk "main" sha), s')
                   /\ refs s' !! normalizeRef "main" = None
                   /\ (forall r, r <> normalizeRef "main" -> refs s' !! r = refs smallRepo !! r)
                   /\ objects s' = objects smallRepo)
  /\ (forall sourceBranch force s0 res,
        refs s0 !! normalizeRef "main" = None ->
        createBranch (CreateBranchInput.mk "main" sourceBranch force) s0 = (Ok res, smallRepo) ->
        removeBranch (RemoveBranchInput.mk "main") smallRepo
          = (Ok (RemoveBranchResult.mk "main" (CreateBranchResult.commitSha res)), s0)).
Proof.
  assert ("main" <> "") as H1 by discriminate.
  split; [exact H1|].
  exact (removeBranch_spec "main" smallRepo H1).
Defined.

(** ** What the operations fail with *)

Lemma throwsOnly_parse {A} (valid : bool) (input : A) :
  throwsOnly (fun e => e = ZodError) (parse valid input).
Proof. unfold parse. destruct valid; [apply throwsOnly_ret | by apply throwsOnly_throw]. Qed.

(** Past the [catch] block of an operation no failure of the library is
    left: it has become [OPERATION_FAILED]. *)
Lemma throwsOnly_wrapErrors {A} (X : Error -> Prop) op (m : M A) :
  throwsOnly (fun e => libraryError e \/ X e) m ->
  throwsOnly (fun e => e = operationFailed op \/ X e) (wrapErrors op m).
Proof.
  intros Hm s e s'. unfold wrapErrors, try_catch.
  destruct (m s) as [[a|e0] s1] eqn:E; [done|].
  destruct (Hm _ _ _ E) as [[code ->]|HX].
  - intros [= <- _]. by left.
  - destruct e0; intros [= <- _]; auto.
Qed.

(** The shape of every operation: the schema, then the body inside the
    [catch] block. *)
Lemma throwsOnly_operation {A B} (codes : list ErrorCode) (X : Error -> Prop)
    (valid : bool) (input : A) op (body : A -> M B) :
  OPERATION_FAILED ∈ codes ->
  throwsOnly (fun e => libraryError e \/ hasCodeIn codes e \/ X e) (body input) ->
  throwsOnly (fun e => failsWith codes e \/ X e)
    (parse valid input ≫= fun v => wrapErrors op (body v)).
Proof.
  intros Hop Hbody s e s'. unfold parse. destruct valid.
  - rewrite bind_mret. intros H.
    apply (throwsOnly_wrapErrors _ _ _ Hbody) in H.
    destruct H as [->|[H|H]]; [|by left; right | by right].
    left; right. by eexists _, _.
  - intros [= <- _]. by left; left.
Qed.

Lemma throwsOnly_resolveRef ref : throwsOnly libraryError (resolveRef ref).
Proof.
  intros s e s'. unfold resolveRef. destruct (refs s !! ref); intros [= <- _]; by eexists.
Qed.

Lemma throwsOnly_readBlob id : throwsOnly libraryError (readBlob id).
Proof.
  intros s e s'. unfold readBlob.
  destruct (readObject id s) as [[]|]; intros [= <- _]; by eexists.
Qed.

Lemma throwsOnly_resolvePath_loop tp parts : forall cur,
  throwsOnly (fun e => libraryError e \/ hasCodeIn [INVALID_PATH; NOT_FOUND] e)
    (resolvePath_loop tp parts cur).
Proof.
  induction parts as [|part rest IH]; intros cur; simpl; [apply throwsOnly_ret|].
  case_decide.
  { apply throwsOnly_throw. right. eexists _, _. split; [done|set_solver]. }
  apply throwsOnly_bind.
  { eapply throwsOnly_weaken; [|apply throwsOnly_readTree]. by left. }
  intros raw. destruct (findEntry part (filterTreeEntries raw)); [apply IH|].
  apply throwsOnly_throw. right. eexists _, _. split; [done|set_solver].
Qed.

Lemma throwsOnly_resolvePath root p :
  throwsOnly (fun e => libraryError e \/ hasCodeIn [INVALID_PATH; NOT_FOUND] e)
    (resolvePath root p).
Proof.
  unfold resolvePath. destruct (pathPartsOf p); [apply throwsOnly_ret|].
  apply throwsOnly_resolvePath_loop.
Qed.

Lemma hasCodeIn_incl codes codes' e :
  codes ⊆ codes' -> hasCodeIn codes e -> hasCodeIn codes' e.
Proof. intros Hsub (code & ctx & -> & Hin). eexists _, _. split; [done|]. by apply Hsub. Qed.

(** X15: what reading fails with.  [readFile], [getFileDetails] and
    [listFiles] fail with the error of the schema or with an error of the
    client whose code is [INVALID_PATH], [NOT_FOUND] or [OPERATION_FAILED];
    no failure of the library gets out of them as it is. *)
Theorem reading_fails_with (localeCompare : string -> string -> Z) :
  let codes := [INVALID_PATH; NOT_FOUND; OPERATION_FAILED] in
  (forall input, throwsOnly (failsWith codes) (readFile input))
  /\ (forall input, throwsOnly (failsWith codes) (getFileDetails input))
  /\ (forall input, throwsOnly (failsWith codes) (listFiles localeCompare input)).
Proof.
  intros codes.
  set (E := fun e => libraryError e \/ hasCodeIn codes e \/ False).
  assert (forall e, libraryError e -> E e) as Hlib by (intros e He; by left).
  assert (forall e, libraryError e \/ hasCodeIn [INVALID_PATH; NOT_FOUND] e -> E e) as Hpath.
  { intros e [He|He]; [by left|]. right; left.
    eapply hasCodeIn_incl; [|exact He]. set_solver. }
  assert (forall p, E (invalidPath p)) as Hinv.
  { intros p. right; left. eexists _, _. split; [done|set_solver]. }
  assert (forall {A} (m : M A),
            throwsOnly (fun e => failsWith codes e \/ False) m ->
            throwsOnly (failsWith codes) m) as Hfin.
  { intros A m Hm. eapply throwsOnly_weaken; [|exact Hm]. by intros e [|[]]. }
  split_and!; intros input; apply Hfin.
  - apply throwsOnly_operation; [set_solver|]. fold E.
    apply throwsOnly_bind.
    { eapply throwsOnly_weaken; [exact Hlib | apply throwsOnly_resolveRef]. }
    intros c. apply throwsOnly_bind.
    { eapply throwsOnly_weaken; [exact Hlib | apply throwsOnly_readCommit]. }
    intros cm. apply throwsOnly_bind.
    { eapply throwsOnly_weaken; [exact Hpath | apply throwsOnly_resolvePath]. }
    intros t. apply throwsOnly_bind.
    { case_decide; [by apply throwsOnly_throw | apply throwsOnly_ret]. }
    intros []. apply throwsOnly_bind; [|intros; apply throwsOnly_ret].
    eapply throwsOnly_weaken; [exact Hlib | apply throwsOnly_readBlob].
  - apply throwsOnly_operation; [set_solver|]. fold E.
    apply throwsOnly_bind.
    { eapply throwsOnly_weaken; [exact Hlib | apply throwsOnly_resolveRef]. }
    intros c. apply throwsOnly_bind.
    { eapply throwsOnly_weaken; [exact Hlib | apply throwsOnly_readCommit]. }
    intros cm. apply throwsOnly_bind; [|intros; apply throwsOnly_ret].
    eapply throwsOnly_weaken; [exact Hpath | apply throwsOnly_resolvePath].
  - apply throwsOnly_operation; [set_solver|]. fold E.
    apply throwsOnly_bind.
    { eapply throwsOnly_weaken; [exact Hlib | apply throwsOnly_resolveRef]. }
    intros c. apply throwsOnly_bind.
    { eapply throwsOnly_weaken; [exact Hlib | apply throwsOnly_readCommit]. }
    intros cm. apply throwsOnly_bind.
    { case_decide; [|apply throwsOnly_ret]. apply throwsOnly_bind.
      { eapply throwsOnly_weaken; [exact Hpath | apply throwsOnly_resolvePath]. }
      intros t. case_decide; [by apply throwsOnly_throw | apply throwsOnly_ret]. }
    intros t. apply throwsOnly_bind; [|intros; apply throwsOnly_ret].
    eapply throwsOnly_weaken; [exact Hlib | apply throwsOnly_readTree].
Qed.

Lemma throwsOnly_bind_post {A B} (E : Error -> Prop) (P : A -> Prop) (m : M A)
    (f : A -> M B) :
  (forall s a s', m s = (Ok a, s') -> P a) ->
  throwsOnly E m -> (forall a, P a -> throwsOnly E (f a)) -> throwsOnly E (m ≫= f).
Proof.
  intros HP Hm Hf s e s'. rewrite bind_unfold.
  destruct (m s) as [[a|e0] s1] eqn:Em.
  - apply Hf. by eapply HP.
  - intros [= <- _]. by eapply Hm.
Qed.

Lemma throwsOnly_compareAndSwap_concurrency ref expectedSha newSha :
  throwsOnly (fun e => e = concurrencyError ref) (compareAndSwap ref expectedSha newSha).
Proof.
  intros s e s'. rewrite compareAndSwap_eval. case_decide; [done|]. by intros [= <- _].
Qed.

Lemma throwsOnly_suspended concurrent E : throwsOnly E (suspended concurrent).
Proof. by intros s e s'. Qed.

Lemma throwsOnly_removeFileFromTree parts : forall root,
  throwsOnly (fun e => libraryError e \/ hasCodeIn [NOT_FOUND] e)
    (removeFileFromTree root parts).
Proof.
  assert (forall r, (fun e => libraryError e \/ hasCodeIn [NOT_FOUND] e) (notFound r)) as Hnf.
  { intros r. right. eexists _, _. split; [done|set_solver]. }
  assert (forall id, throwsOnly (fun e => libraryError e \/ hasCodeIn [NOT_FOUND] e)
                       (readTree id)) as Hrt.
  { intros id. eapply throwsOnly_weaken; [|apply throwsOnly_readTree]. by left. }
  induction parts as [|x rest IH]; intros [root|]; simpl; try by apply throwsOnly_throw.
  - apply throwsOnly_bind; [apply Hrt | intros; by apply throwsOnly_throw].
  - apply throwsOnly_bind; [apply Hrt | intros raw]. apply throwsOnly_bind.
    + destruct rest as [|y rest'].
      * case_decide; [by apply throwsOnly_throw | apply throwsOnly_ret].
      * destruct (findEntry x (filterTreeEntries raw)); [|by apply throwsOnly_throw].
        case_decide; [by apply throwsOnly_throw|].
        apply throwsOnly_bind; [apply IH | intros [sub|]; apply throwsOnly_ret].
    + intros [|e0 es0]; [apply throwsOnly_ret|].
      apply throwsOnly_fmap, throwsOnly_writeObject.
Qed.

Lemma throwsOnly_removeDirectoryFromTree parts root :
  throwsOnly (fun e => libraryError e \/ hasCodeIn [NOT_FOUND] e)
    (removeDirectoryFromTree root parts).
Proof.
  intros s e s'. rewrite removeDirectoryFromTree_eq.
  destruct (removeFileFromTree root parts s) as [[r|e0] s1] eqn:E; [done|].
  intros [= <- _]. apply throwsOnly_removeFileFromTree in E as [[code ->]|(code & ctx & -> & Hin)].
  - left. by eexists.
  - right. apply list_elem_of_singleton in Hin as ->. destruct ctx; simpl;
      try case_decide; eexists _, _; (split; [done|set_solver]).
Qed.

Lemma throwsOnly_validateDirectoryPath p :
  throwsOnly (fun e => e = invalidPath p) (validateDirectoryPath p).
Proof.
  unfold validateDirectoryPath. cbv zeta.
  repeat (case_decide; [by apply throwsOnly_throw|]).
  apply throwsOnly_bind; [|intros; apply throwsOnly_ret].
  apply throwsOnly_forEach. intros [] segment.
  repeat (case_decide; [by apply throwsOnly_throw|]). apply throwsOnly_ret.
Qed.

Lemma throwsOnly_countFilesInTree fuel : forall t,
  throwsOnly (fun e => libraryError e \/ e = OutOfFuel) (countFilesInTree fuel t).
Proof.
  induction fuel as [|fuel IH]; intros t; simpl; [apply throwsOnly_throw; by right|].
  apply throwsOnly_bind.
  { eapply throwsOnly_weaken; [|apply throwsOnly_readTree]. by left. }
  intros raw. apply throwsOnly_forEach. intros acc e.
  repeat (case_decide; [apply throwsOnly_ret|]); try apply throwsOnly_ret.
  case_decide; [|apply throwsOnly_ret].
  apply throwsOnly_bind; [apply IH | intros; apply throwsOnly_ret].
Qed.

Lemma throwsOnly_readTreeEntries t : throwsOnly libraryError (readTreeEntries t).
Proof.
  destruct t as [t|]; simpl; [|apply throwsOnly_ret].
  apply throwsOnly_bind; [apply throwsOnly_readTree | intros; apply throwsOnly_ret].
Qed.

Lemma throwsOnly_mergeTrees fuel : forall b o t resolutions,
  throwsOnly (fun e => libraryError e \/ e = OutOfFuel) (mergeTrees fuel b o t resolutions).
Proof.
  induction fuel as [|fuel IH]; intros b o t resolutions; simpl;
    [apply throwsOnly_throw; by right|].
  assert (forall x, throwsOnly (fun e => libraryError e \/ e = OutOfFuel)
                      (readTreeEntries x)) as Hrt.
  { intros x. eapply throwsOnly_weaken; [|apply throwsOnly_readTreeEntries]. by left. }
  apply throwsOnly_bind; [apply Hrt | intros be].
  apply throwsOnly_bind; [apply Hrt | intros oe].
  apply throwsOnly_bind; [apply Hrt | intros te].
  apply throwsOnly_bind.
  - apply throwsOnly_forEach. intros [newEntries conflicts] p. unfold mergeEntry.
    destruct (_ || _).
    { apply throwsOnly_bind; [apply IH | intros; apply throwsOnly_ret]. }
    repeat (case_decide; [apply throwsOnly_ret|]).
    destruct (getProperty resolutions p);
      [|apply throwsOnly_throw; left; by eexists|apply throwsOnly_ret].
    case_decide; [apply throwsOnly_ret|].
    apply throwsOnly_bind; [apply throwsOnly_writeObject | intros; apply throwsOnly_ret].
  - intros [newEntries conflicts].
    repeat (case_decide; [apply throwsOnly_ret|]).
    apply throwsOnly_bind; [apply throwsOnly_writeObject | intros; apply throwsOnly_ret].
Qed.

Section FailsWith.
Context (concurrent : Store -> Store).

Local Abbreviation adding := [INVALID_PATH; CONCURRENCY_ERROR; OPERATION_FAILED].
Local Abbreviation removing :=
  [INVALID_PATH; NOT_FOUND; CONCURRENCY_ERROR; OPERATION_FAILED].

Lemma hasCodeIn_intro codes code ctx :
  code ∈ codes -> hasCodeIn codes (BareGitClientError code ctx).
Proof. intros H. by eexists _, _. Qed.

Lemma failsWith_final {A} codes (m : M A) :
  throwsOnly (fun e => failsWith codes e \/ False) m -> throwsOnly (failsWith codes) m.
Proof. intros Hm. eapply throwsOnly_weaken; [|exact Hm]. by intros e [|[]]. Qed.

Lemma addManyFiles_fails_with client input :
  throwsOnly (failsWith adding) (addManyFiles concurrent client input).
Proof.
  apply failsWith_final, throwsOnly_operation; [set_solver|].
  set (E := fun e => libraryError e \/ hasCodeIn adding e \/ False).
  assert (forall e, libraryError e -> E e) as Hlib by (intros e He; by left).
  apply throwsOnly_bind.
  { intros s0 e s0'. by rewrite try_resolveRef. }
  intros parentSha. apply throwsOnly_bind.
  { destruct parentSha; [|apply throwsOnly_ret].
    apply throwsOnly_bind; [|intros; apply throwsOnly_ret].
    eapply throwsOnly_weaken; [exact Hlib | apply throwsOnly_readCommit]. }
  intros rootTreeSha. apply throwsOnly_bind.
  { apply throwsOnly_mapAwait. intros file. unfold fileProcessing.
    apply throwsOnly_bind; [apply throwsOnly_writeObject | intros blobSha].
    case_decide; [|apply throwsOnly_ret]. apply throwsOnly_throw.
    right; left. apply hasCodeIn_intro. set_solver. }
  intros processed. apply throwsOnly_bind.
  { apply throwsOnly_forEach. intros cur file. apply throwsOnly_fmap.
    eapply throwsOnly_weaken; [exact Hlib | apply throwsOnly_upsertFileInTree]. }
  intros [newTree|]; [|apply throwsOnly_throw; left; by eexists].
  apply throwsOnly_bind; [apply throwsOnly_writeObject | intros commitSha].
  apply throwsOnly_bind; [apply throwsOnly_suspended | intros _].
  apply throwsOnly_bind; [|intros; apply throwsOnly_ret].
  eapply throwsOnly_weaken; [|apply throwsOnly_compareAndSwap_concurrency].
  intros e ->. right; left. apply hasCodeIn_intro. set_solver.
Qed.

Lemma mapAwait_length {A B} (f : A -> M B) l s ys s' :
  mapAwait f l s = (Ok ys, s') -> length ys = length l.
Proof.
  rewrite mapAwait_Ok.
  revert s ys s'. induction l as [|x l IH]; intros s ys s'; simpl; [by intros [= <- _]|].
  intros H. apply bind_inv_Ok in H as (y & s1 & _ & H).
  apply bind_inv_Ok in H as (ys' & s2 & Hys & H). injection H as <- _.
  simpl. f_equal. by eapply IH.
Qed.

Lemma addFile_fails_with client input :
  throwsOnly (failsWith adding) (addFile concurrent client input).
Proof.
  unfold addFile. apply throwsOnly_bind.
  { eapply throwsOnly_weaken; [|apply throwsOnly_parse]. intros e ->. by left. }
  intros v.
  apply (throwsOnly_bind_post _ (fun result => AddManyFilesResult.blobShas result <> [])).
  - intros s result s' H.
    apply addManyFiles_inv_blobShas in H as (processed & s1 & Hproc & ->).
    apply mapAwait_length in Hproc. by destruct processed.
  - apply addManyFiles_fails_with.
  - intros result Hne. destruct (AddManyFilesResult.blobShas result) as [|[fp b] l]; [done|].
    apply throwsOnly_ret.
Qed.

Lemma addPlaceholder_fails_with client input :
  throwsOnly (failsWith adding) (addPlaceholder concurrent client input).
Proof.
  unfold addPlaceholder. apply throwsOnly_bind.
  { eapply throwsOnly_weaken; [|apply throwsOnly_parse]. intros e ->. by left. }
  intros v. apply throwsOnly_bind; [|intros; apply addFile_fails_with].
  eapply throwsOnly_weaken; [|apply throwsOnly_validateDirectoryPath].
  intros e ->. right. apply hasCodeIn_intro. set_solver.
Qed.

Lemma removeManyFiles_fails_with client input codes :
  removing ⊆ codes ->
  NoDup (RemoveManyFilesInput.filePaths input) \/ INVALID_INPUT ∈ codes ->
  throwsOnly (failsWith codes) (removeManyFiles concurrent client input).
Proof.
  intros Hsub Hdup.
  apply failsWith_final, throwsOnly_operation; [set_solver|].
  set (E := fun e => libraryError e \/ hasCodeIn codes e \/ False).
  assert (forall e, libraryError e -> E e) as Hlib by (intros e He; by left).
  assert (forall code ctx, code ∈ removing -> E (BareGitClientError code ctx)) as Hcode.
  { intros code ctx Hin. right; left. apply hasCodeIn_intro. by apply Hsub. }
  apply throwsOnly_bind.
  { case_decide as Hnd; [apply throwsOnly_ret|]. apply throwsOnly_throw.
    destruct Hdup as [|Hin]; [done|]. right; left. by apply hasCodeIn_intro. }
  intros []. apply throwsOnly_bind.
  { eapply throwsOnly_weaken; [exact Hlib | apply throwsOnly_resolveRef]. }
  intros parentSha. apply throwsOnly_bind.
  { eapply throwsOnly_weaken; [exact Hlib | apply throwsOnly_readCommit]. }
  intros commit. apply throwsOnly_bind.
  { apply throwsOnly_arrayMap. intros filePath. cbv zeta.
    case_decide; [|apply throwsOnly_ret]. apply throwsOnly_throw, Hcode. set_solver. }
  intros prepared. apply throwsOnly_bind.
  { apply throwsOnly_forEach. intros [t|] file.
    - eapply throwsOnly_weaken; [|apply throwsOnly_removeFileFromTree].
      intros e [He|(code & ctx & -> & Hin)]; [by apply Hlib|]. apply Hcode. set_solver.
    - apply throwsOnly_throw, Hcode. set_solver. }
  intros cur. apply throwsOnly_bind.
  { destruct cur; [apply throwsOnly_ret | apply throwsOnly_writeObject]. }
  intros finalTree.
  apply throwsOnly_bind; [apply throwsOnly_writeObject | intros commitSha].
  apply throwsOnly_bind; [apply throwsOnly_suspended | intros _].
  apply throwsOnly_bind; [|intros; apply throwsOnly_ret].
  eapply throwsOnly_weaken; [|apply throwsOnly_compareAndSwap_concurrency].
  intros e ->. apply Hcode. set_solver.
Qed.

Lemma removeFile_fails_with client input :
  throwsOnly (failsWith removing) (removeFile concurrent client input).
Proof.
  unfold removeFile. apply throwsOnly_bind.
  { eapply throwsOnly_weaken; [|apply throwsOnly_parse]. intros e ->. by left. }
  intros v. apply throwsOnly_bind; [|intros; apply throwsOnly_ret].
  apply removeManyFiles_fails_with; [done|]. left. simpl. apply NoDup_singleton.
Qed.

Lemma removeDirectory_fails_with fuel client input :
  throwsOnly (fun e => failsWith removing e \/ e = OutOfFuel)
    (removeDirectory concurrent fuel client input).
Proof.
  apply throwsOnly_operation; [set_solver|].
  set (E := fun e => libraryError e \/ hasCodeIn removing e \/ e = OutOfFuel).
  assert (forall e, libraryError e -> E e) as Hlib by (intros e He; by left).
  assert (forall code ctx, code ∈ removing -> E (BareGitClientError code ctx)) as Hcode.
  { intros code ctx Hin. right; left. by apply hasCodeIn_intro. }
  apply throwsOnly_bind.
  { eapply throwsOnly_weaken; [|apply throwsOnly_validateDirectoryPath].
    intros e ->. apply Hcode. set_solver. }
  intros dirPath. apply throwsOnly_bind.
  { eapply throwsOnly_weaken; [exact Hlib | apply throwsOnly_resolveRef]. }
  intros parentSha. apply throwsOnly_bind.
  { eapply throwsOnly_weaken; [exact Hlib | apply throwsOnly_readCommit]. }
  intros commit. apply throwsOnly_bind.
  { eapply throwsOnly_weaken; [|apply throwsOnly_resolvePath].
    intros e [He|(code & ctx & -> & Hin)]; [by apply Hlib|]. apply Hcode. set_solver. }
  intros target. apply throwsOnly_bind.
  { case_decide; [|apply throwsOnly_ret]. apply throwsOnly_throw, Hcode. set_solver. }
  intros []. apply throwsOnly_bind.
  { eapply throwsOnly_weaken; [|apply throwsOnly_countFilesInTree].
    intros e [He| ->]; [by apply Hlib | by right; right]. }
  intros filesRemoved. apply throwsOnly_bind.
  { eapply throwsOnly_weaken; [|apply throwsOnly_removeDirectoryFromTree].
    intros e [He|(code & ctx & -> & Hin)]; [by apply Hlib|]. apply Hcode. set_solver. }
  intros newTree. apply throwsOnly_bind.
  { destruct newTree; [apply throwsOnly_ret | apply throwsOnly_writeObject]. }
  intros finalTree.
  apply throwsOnly_bind; [apply throwsOnly_writeObject | intros commitSha].
  apply throwsOnly_bind; [apply throwsOnly_suspended | intros _].
  apply throwsOnly_bind; [|intros; apply throwsOnly_ret].
  eapply throwsOnly_weaken; [|apply throwsOnly_compareAndSwap_concurrency].
  intros e ->. apply Hcode. set_solver.
Qed.

Lemma mergeBranches_fails_with findMergeBase fuel client input :
  throwsOnly (fun e => failsWith [MERGE_CONFLICT; OPERATION_FAILED] e \/ e = OutOfFuel)
    (mergeBranches concurrent findMergeBase fuel client input).
Proof.
  apply throwsOnly_operation; [set_solver|].
  set (E := fun e => libraryError e \/ hasCodeIn [MERGE_CONFLICT; OPERATION_FAILED] e
                     \/ e = OutOfFuel).
  assert (forall e, libraryError e -> E e) as Hlib by (intros e He; by left).
  assert (forall code ctx, code ∈ [MERGE_CONFLICT; OPERATION_FAILED] ->
                           E (BareGitClientError code ctx)) as Hcode.
  { intros code ctx Hin. right; left. by apply hasCodeIn_intro. }
  cbv zeta. apply throwsOnly_bind.
  { eapply throwsOnly_weaken; [exact Hlib | apply throwsOnly_resolveRef]. }
  intros sourceSha. apply throwsOnly_bind.
  { eapply throwsOnly_weaken; [exact Hlib | apply throwsOnly_resolveRef]. }
  intros destSha. apply throwsOnly_bind; [by intros s e s'|].
  intros [|baseSha others]; [apply throwsOnly_throw, Hcode; set_solver|].
  apply throwsOnly_bind.
  { eapply throwsOnly_weaken; [exact Hlib | apply throwsOnly_readCommit]. }
  intros baseCommit. apply throwsOnly_bind.
  { eapply throwsOnly_weaken; [exact Hlib | apply throwsOnly_readCommit]. }
  intros sourceCommit. apply throwsOnly_bind.
  { eapply throwsOnly_weaken; [exact Hlib | apply throwsOnly_readCommit]. }
  intros destCommit. apply throwsOnly_bind.
  { eapply throwsOnly_weaken; [|apply throwsOnly_mergeTrees].
    intros e [He| ->]; [by apply Hlib | by right; right]. }
  intros result. case_decide; [apply throwsOnly_throw, Hcode; set_solver|].
  destruct (MergeResult.treeSha result); [|apply throwsOnly_throw, Hcode; set_solver].
  apply throwsOnly_bind; [apply throwsOnly_writeObject | intros commitSha].
  apply throwsOnly_bind; [apply throwsOnly_suspended | intros _].
  apply throwsOnly_bind; [|intros; apply throwsOnly_ret].
  intros s e s'. by rewrite writeRef_force.
Qed.

End FailsWith.

(** X16: what adding and removing files fail with, whatever the other
    writers do.  [addManyFiles], [addFile] and [addPlaceholder] fail with
    the error of the schema or with the code [INVALID_PATH],
    [CONCURRENCY_ERROR] or [OPERATION_FAILED], never with [NOT_FOUND];
    [removeManyFiles] may fail with [INVALID_INPUT] and [NOT_FOUND] besides,
    and [removeFile] with [NOT_FOUND] but not with [INVALID_INPUT]. *)
Theorem adding_and_removing_fail_with (concurrent : Store -> Store) (client : Client) :
  (forall input,
     throwsOnly (failsWith [INVALID_PATH; CONCURRENCY_ERROR; OPERATION_FAILED])
       (addManyFiles concurrent client input))
  /\ (forall input,
        throwsOnly (failsWith [INVALID_PATH; CONCURRENCY_ERROR; OPERATION_FAILED])
          (addFile concurrent client input))
  /\ (forall input,
        throwsOnly (failsWith [INVALID_PATH; CONCURRENCY_ERROR; OPERATION_FAILED])
          (addPlaceholder concurrent client input))
  /\ (forall input,
        throwsOnly (failsWith [INVALID_INPUT; INVALID_PATH; NOT_FOUND; CONCURRENCY_ERROR;
                               OPERATION_FAILED])
          (removeManyFiles concurrent client input))
  /\ (forall input,
        throwsOnly (failsWith [INVALID_PATH; NOT_FOUND; CONCURRENCY_ERROR; OPERATION_FAILED])
          (removeFile concurrent client input)).
Proof.
  split_and!; intros input.
  - apply addManyFiles_fails_with.
  - apply addFile_fails_with.
  - apply addPlaceholder_fails_with.
  - apply removeManyFiles_fails_with; [set_solver | right; set_solver].
  - apply removeFile_fails_with.
Qed.

(** X17: what removing a directory and merging fail with, whatever the
    other writers do: [removeDirectory] with the error of the schema or
    with the code [INVALID_PATH], [NOT_FOUND], [CONCURRENCY_ERROR] or
    [OPERATION_FAILED]; [mergeBranches] with the error of the schema or with
    [MERGE_CONFLICT] or [OPERATION_FAILED], and never with
    [CONCURRENCY_ERROR].  (The recursions of both are bounded in the model,
    which adds the failure of the bound.) *)
Theorem removeDirectory_and_mergeBranches_fail_with (concurrent : Store -> Store)
    (findMergeBase : Store -> OID -> OID -> list OID) (fuel : nat) (client : Client) :
  (forall input,
     throwsOnly
       (fun e => failsWith [INVALID_PATH; NOT_FOUND; CONCURRENCY_ERROR; OPERATION_FAILED] e
                 \/ e = OutOfFuel)
       (removeDirectory concurrent fuel client input))
  /\ (forall input,
        throwsOnly (fun e => failsWith [MERGE_CONFLICT; OPERATION_FAILED] e \/ e = OutOfFuel)
          (mergeBranches concurrent findMergeBase fuel client input)).
Proof.
  split; intros input;
    [apply removeDirectory_fails_with | apply mergeBranches_fails_with].
Qed.

(** ** A failed operation moves no reference *)

Lemma failsGrowing_growing {A} (m : M A) : growing m -> failsGrowing m.
Proof. intros H s e s'. apply H. Qed.

Lemma failsGrowing_bind {A B} (m : M A) (f : A -> M B) :
  growing m -> (forall a, failsGrowing (f a)) -> failsGrowing (m ≫= f).
Proof.
  intros Hm Hf s e s'. rewrite bind_unfold. destruct (m s) as [[a|e0] s1] eqn:E.
  - intros H. etrans; [by eapply Hm | by eapply Hf].
  - intros [= _ <-]. by eapply Hm.
Qed.

Lemma failsGrowing_wrapErrors {A} op (m : M A) :
  failsGrowing m -> failsGrowing (wrapErrors op m).
Proof.
  intros Hm s e s'. unfold wrapErrors, try_catch.
  destruct (m s) as [[a|e0] s1] eqn:E; [done|].
  destruct e0; intros [= _ <-]; by eapply Hm.
Qed.

Lemma failsGrowing_operation {A B} (valid : bool) (input : A) (f : A -> M B) :
  failsGrowing (f input) -> failsGrowing (parse valid input ≫= f).
Proof.
  intros Hf s e s'. unfold parse. destruct valid; [rewrite bind_mret; apply Hf|].
  by intros [= _ <-].
Qed.

(** The last steps of a committing operation: the other writers are let
    in (none, here), the reference is compared and swapped, the result is
    returned. *)
Lemma failsGrowing_commit {A} ref expectedSha newSha (result : A) :
  failsGrowing (suspended id;; compareAndSwap ref expectedSha newSha;; mret result).
Proof.
  intros s e s'. rewrite (bind_Ok _ _ _ _ _ (suspended_id s)).
  rewrite bind_unfold, compareAndSwap_eval. case_decide; [done|]. by intros [= _ <-].
Qed.

Lemma growing_readCommit id : growing (readCommit id).
Proof. apply respects_readCommit; apply _. Qed.

Lemma growing_resolveRef ref : growing (resolveRef ref).
Proof. apply respects_resolveRef; apply _. Qed.

Lemma growing_try_resolveRef ref :
  growing (try_catch (Some <$> resolveRef ref) (fun _ => mret None)).
Proof. intros s r s'. rewrite try_resolveRef. by intros [= _ <-]. Qed.

Lemma failsGrowing_addManyFiles client input : failsGrowing (addManyFiles id client input).
Proof.
  apply failsGrowing_operation, failsGrowing_wrapErrors.
  apply failsGrowing_bind; [apply growing_try_resolveRef | intros parentSha].
  apply failsGrowing_bind.
  { destruct parentSha; [|apply respects_ret; apply _].
    apply respects_bind; try apply _; [apply growing_readCommit|].
    intros; apply respects_ret; apply _. }
  intros rootTreeSha. apply failsGrowing_bind.
  { apply respects_mapAwait; try apply _. apply growing_fileProcessing. }
  intros processed. apply failsGrowing_bind; [apply growing_addManyFiles_loop|].
  intros [newTree|]; [|apply failsGrowing_growing, respects_throw; apply _].
  apply failsGrowing_bind; [apply growing_writeObject | intros commitSha].
  apply failsGrowing_commit.
Qed.

Lemma failsGrowing_bind_final {A B} (m : M A) (f : A -> M B) :
  failsGrowing m ->
  (forall s a s1 e s2, m s = (Ok a, s1) -> f a s1 = (Err e, s2) -> False) ->
  failsGrowing (m ≫= f).
Proof.
  intros Hm Hf s e s'. rewrite bind_unfold. destruct (m s) as [[a|e0] s1] eqn:E.
  - intros H. destruct (Hf _ _ _ _ _ E H).
  - intros [= _ <-]. by eapply Hm.
Qed.

Lemma failsGrowing_addFile client input : failsGrowing (addFile id client input).
Proof.
  apply failsGrowing_operation, failsGrowing_bind_final; [apply failsGrowing_addManyFiles|].
  intros s result s1 e s2 H.
  apply addManyFiles_inv_blobShas in H as (processed & s0 & Hproc & ->).
  apply mapAwait_length in Hproc. by destruct processed.
Qed.

Lemma growing_validateDirectoryPath p : growing (validateDirectoryPath p).
Proof. intros s r s' H. apply validateDirectoryPath_state in H as ->. reflexivity. Qed.

Lemma failsGrowing_addPlaceholder client input :
  failsGrowing (addPlaceholder id client input).
Proof.
  apply failsGrowing_operation, failsGrowing_bind; [apply growing_validateDirectoryPath|].
  intros dirPath. apply failsGrowing_addFile.
Qed.

Lemma failsGrowing_removeManyFiles client input :
  failsGrowing (removeManyFiles id client input).
Proof.
  apply failsGrowing_operation, failsGrowing_wrapErrors.
  apply failsGrowing_bind.
  { case_decide; [apply respects_ret | apply respects_throw]; apply _. }
  intros []. apply failsGrowing_bind; [apply growing_resolveRef | intros parentSha].
  apply failsGrowing_bind; [apply growing_readCommit | intros commit].
  apply failsGrowing_bind.
  { apply respects_arrayMap; try apply _. intros filePath. cbv zeta.
    case_decide; [apply respects_throw | apply respects_ret]; apply _. }
  intros prepared. apply failsGrowing_bind.
  { apply respects_forEach; try apply _. intros [t|] file;
      [apply growing_removeFileFromTree | apply respects_throw; apply _]. }
  intros cur. apply failsGrowing_bind.
  { destruct cur; [apply respects_ret; apply _ | apply growing_writeObject]. }
  intros finalTree. apply failsGrowing_bind; [apply growing_writeObject | intros commitSha].
  apply failsGrowing_commit.
Qed.

Lemma failsGrowing_removeFile client input : failsGrowing (removeFile id client input).
Proof.
  apply failsGrowing_operation, failsGrowing_bind_final;
    [apply failsGrowing_removeManyFiles | done].
Qed.

Lemma growing_removeDirectoryFromTree root parts :
  growing (removeDirectoryFromTree root parts).
Proof.
  intros s r s'. rewrite removeDirectoryFromTree_eq.
  destruct (removeFileFromTree root parts s) as [[r0|e0] s1] eqn:E; intros [= _ <-];
    by eapply growing_removeFileFromTree.
Qed.

Lemma failsGrowing_removeDirectory fuel client input :
  failsGrowing (removeDirectory id fuel client input).
Proof.
  apply failsGrowing_operation, failsGrowing_wrapErrors.
  apply failsGrowing_bind; [apply growing_validateDirectoryPath | intros dirPath].
  apply failsGrowing_bind; [apply growing_resolveRef | intros parentSha].
  apply failsGrowing_bind; [apply growing_readCommit | intros commit].
  apply failsGrowing_bind; [apply respects_resolvePath; apply _ | intros target].
  apply failsGrowing_bind.
  { case_decide; [apply respects_throw | apply respects_ret]; apply _. }
  intros []. apply failsGrowing_bind; [apply respects_countFilesInTree; apply _|].
  intros filesRemoved.
  apply failsGrowing_bind; [apply growing_removeDirectoryFromTree | intros newTree].
  apply failsGrowing_bind.
  { destruct newTree; [apply respects_ret; apply _ | apply growing_writeObject]. }
  intros finalTree. apply failsGrowing_bind; [apply growing_writeObject | intros commitSha].
  apply failsGrowing_commit.
Qed.

Lemma growing_mergeTrees fuel b o t resolutions :
  growing (mergeTrees fuel b o t resolutions).
Proof. intros s r s' H. eapply adds_grows. by eapply mergeTrees_adds. Qed.

Lemma failsGrowing_mergeBranches findMergeBase fuel client input :
  failsGrowing (mergeBranches id findMergeBase fuel client input).
Proof.
  apply failsGrowing_operation, failsGrowing_wrapErrors. cbv zeta.
  apply failsGrowing_bind; [apply growing_resolveRef | intros sourceSha].
  apply failsGrowing_bind; [apply growing_resolveRef | intros destSha].
  apply failsGrowing_bind; [by intros s r s' [= _ <-] | intros bases].
  destruct bases as [|baseSha others];
    [apply failsGrowing_growing, respects_throw; apply _|].
  apply failsGrowing_bind; [apply growing_readCommit | intros baseCommit].
  apply failsGrowing_bind; [apply growing_readCommit | intros sourceCommit].
  apply failsGrowing_bind; [apply growing_readCommit | intros destCommit].
  apply failsGrowing_bind; [apply growing_mergeTrees | intros result].
  case_decide; [apply failsGrowing_growing, respects_throw; apply _|].
  destruct (MergeResult.treeSha result);
    [|apply failsGrowing_growing, respects_throw; apply _].
  apply failsGrowing_bind; [apply growing_writeObject | intros commitSha].
  intros s e s'. rewrite (bind_Ok _ _ _ _ _ (suspended_id s)).
  by rewrite (bind_Ok _ _ _ _ _ (writeRef_force _ _ _)).
Qed.

(** X18: an operation that fails moves no reference.  When an operation
    that commits (adding, removing, merging), running alone, fails at any
    point, every reference of the store it leaves is where it was, and every
    object that was stored still is, under the same OID: at most it has
    added objects that nothing refers to. *)
Theorem failed_operation_moves_no_reference (findMergeBase : Store -> OID -> OID -> list OID)
    (fuel : nat) (client : Client) :
  (forall input, failsGrowing (addManyFiles id client input))
  /\ (forall input, failsGrowing (addFile id client input))
  /\ (forall input, failsGrowing (addPlaceholder id client input))
  /\ (forall input, failsGrowing (removeManyFiles id client input))
  /\ (forall input, failsGrowing (removeFile id client input))
  /\ (forall input, failsGrowing (removeDirectory id fuel client input))
  /\ (forall input, failsGrowing (mergeBranches id findMergeBase fuel client input)).
Proof.
  split_and!; intros input.
  - apply failsGrowing_addManyFiles.
  - apply failsGrowing_addFile.
  - apply failsGrowing_addPlaceholder.
  - apply failsGrowing_removeManyFiles.
  - apply failsGrowing_removeFile.
  - apply failsGrowing_removeDirectory.
  - apply failsGrowing_mergeBranches.
Qed.

(** ** The commit of a merge ([operations/merge-branches.ts]) *)

(** What a successful [mergeBranches] did. *)
Lemma mergeBranches_inv_Ok concurrent findMergeBase fuel client input s res s' :
  mergeBranches concurrent findMergeBase fuel client input s = (Ok res, s') ->
  let sourceRef := normalizeRef (MergeBranchesInput.sourceBranch input) in
  let destRef := normalizeRef (MergeBranchesInput.destinationBranch input) in
  exists sourceSha destSha result s1 c s2,
    refs s !! sourceRef = Some sourceSha
    /\ refs s !! destRef = Some destSha
    /\ adds notCommit s s1
    /\ MergeResult.treeSha result = Some (MergeBranchesResult.treeSha res)
    /\ writeCommit c s1 = (Ok (MergeBranchesResult.commitSha res), s2)
    /\ Commit.parent c = [destSha; sourceSha]
    /\ Commit.tree c = MergeBranchesResult.treeSha res
    /\ s' = setRef destRef (MergeBranchesResult.commitSha res) (concurrent s2)
    /\ MergeBranchesResult.conflicts res
       = match MergeResult.conflicts result with [] => None | cs => Some cs end
    /\ (MergeResult.conflicts result <> [] -> MergeBranchesInput.resolutions input <> None).
Proof.
  unfold mergeBranches. intros H. cbv zeta.
  apply bind_inv_Ok in H as (v & s0 & Hparse & H).
  apply parse_inv_Ok in Hparse as (_ & -> & ->).
  apply wrapErrors_inv_Ok in H. cbv zeta in H.
  apply bind_inv_Ok in H as (sourceSha & s0 & Hsrc & H).
  unfold resolveRef in Hsrc.
  destruct (refs s !! normalizeRef (MergeBranchesInput.sourceBranch input)) as [src|] eqn:Es;
    [|done].
  injection Hsrc as <- <-.
  apply bind_inv_Ok in H as (destSha & s0 & Hdst & H).
  unfold resolveRef in Hdst.
  destruct (refs s !! normalizeRef (MergeBranchesInput.destinationBranch input))
    as [dst|] eqn:Ed; [|done].
  injection Hdst as <- <-.
  apply bind_inv_Ok in H as (bases & s0 & Hb & H). injection Hb as <- <-.
  destruct (findMergeBase s dst src) as [|baseSha others]; [done|].
  apply bind_inv_Ok in H as (baseCommit & s0 & Hbc & H).
  pose proof (growing_readCommit _ _ _ _ Hbc) as G0.
  assert (s0 = s) as ->.
  { unfold readCommit in Hbc. destruct (readObject baseSha s) as [[| |]|]; try done.
    by injection Hbc. }
  apply bind_inv_Ok in H as (sourceCommit & s0 & Hsc & H).
  assert (s0 = s) as ->.
  { unfold readCommit in Hsc. destruct (readObject src s) as [[| |]|]; try done.
    by injection Hsc. }
  apply bind_inv_Ok in H as (destCommit & s0 & Hdc & H).
  assert (s0 = s) as ->.
  { unfold readCommit in Hdc. destruct (readObject dst s) as [[| |]|]; try done.
    by injection Hdc. }
  apply bind_inv_Ok in H as (result & s1 & Hmerge & H).
  apply mergeTrees_adds in Hmerge.
  case_decide as Hconf; [done|].
  destruct (MergeResult.treeSha result) as [mergedTree|] eqn:Et; [|done].
  apply bind_inv_Ok in H as (commitSha & s2 & Hwc & H).
  apply bind_inv_Ok in H as ([] & s3 & Hsus & H). injection Hsus as <-.
  apply bind_inv_Ok in H as ([] & s4 & Hwr & H).
  rewrite writeRef_force in Hwr. injection Hwr as <-.
  injection H as <- <-. simpl.
  eexists src, dst, result, s1, _, s2. split_and!; try done.
  intros Hne Hnone. apply Hconf. by split.
Qed.

(** X19: the commit of a merge.  When [mergeBranches], running alone,
    succeeds, both branches resolved, the commit it reports is stored with
    the parents destination, source, in this order, and with the tree it
    reports; the destination points at this commit, every other reference
    is where it was, and no stored object has changed.  Conflicts are
    reported with a success only when resolutions were given: the merge
    then commits although conflicts are left. *)
Theorem merge_commit_has_both_parents (findMergeBase : Store -> OID -> OID -> list OID)
    (fuel : nat) (client : Client) (input : MergeBranchesInput.t) (s : Store)
    (res : MergeBranchesResult.t) (s' : Store) :
  mergeBranches id findMergeBase fuel client input s = (Ok res, s') ->
  let sourceRef := normalizeRef (MergeBranchesInput.sourceBranch input) in
  let destRef := normalizeRef (MergeBranchesInput.destinationBranch input) in
  exists sourceSha destSha c,
    refs s !! sourceRef = Some sourceSha
    /\ refs s !! destRef = Some destSha
    /\ readObject (MergeBranchesResult.commitSha res) s' = Some (CommitObject c)
    /\ Commit.parent c = [destSha; sourceSha]
    /\ Commit.tree c = MergeBranchesResult.treeSha res
    /\ refs s' = <[destRef := MergeBranchesResult.commitSha res]> (refs s)
    /\ objects s `prefix_of` objects s'
    /\ (forall cs, MergeBranchesResult.conflicts res = Some cs ->
          cs <> [] /\ MergeBranchesInput.resolutions input <> None).
Proof.
  intros H. apply mergeBranches_inv_Ok in H
    as (sourceSha & destSha & result & s1 & c & s2 & Hsrc & Hdst & Hadds & Ht & Hwc & Hpar
        & Htree & -> & Hconf & Hres).
  apply writeCommit_inv in Hwc as [G2 Hc]. apply adds_grows in Hadds as G1.
  exists sourceSha, destSha, c. split_and!; try done.
  - simpl. f_equal. etrans; [apply G2 | apply G1].
  - simpl. etrans; [apply G1 | apply G2].
  - intros cs Hcs. rewrite Hconf in Hcs.
    destruct (MergeResult.conflicts result) as [|x l] eqn:E; [done|].
    injection Hcs as <-. split; [done|]. by apply Hres.
Qed.

Lemma merge_commit_has_both_parents_witness :
  let input := MergeBranchesInput.mk "feature" "main" None None None in
  let run := mergeBranches id firstCommonAncestor 3 exampleClient input busyRepo in
  exists res,
    run = (Ok res, run.2)
    /\ exists sourceSha destSha c,
         refs busyRepo !! normalizeRef "feature" = Some sourceSha
         /\ refs busyRepo !! normalizeRef "main" = Some destSha
         /\ readObject (MergeBranchesResult.commitSha res) run.2 = Some (CommitObject c)
         /\ Commit.parent c = [destSha; sourceSha]
         /\ Commit.tree c = MergeBranchesResult.treeSha res
         /\ refs run.2 = <[normalizeRef "main" := MergeBranchesResult.commitSha res]>
                           (refs busyRepo)
         /\ objects busyRepo `prefix_of` objects run.2
         /\ (forall cs, MergeBranchesResult.conflicts res = Some cs ->
               cs <> [] /\ MergeBranchesInput.resolutions input <> None).
Proof.
  intros input run.
  assert (exists res, run = (Ok res, run.2)) as [res Hrun]
    by (eexists; vm_compute; reflexivity).
  exists res. split; [exact Hrun|].
  exact (merge_commit_has_both_parents firstCommonAncestor 3 exampleClient input busyRepo
           res run.2 Hrun).
Defined.

(** ** The one-file operations and their wrappers *)

Lemma wrapErrors_unfold {A} op (m : M A) s :
  wrapErrors op m s =
  match m s with
  | (Ok a, s') => (Ok a, s')
  | (Err (BareGitClientError code ctx), s') => (Err (BareGitClientError code ctx), s')
  | (Err OutOfFuel, s') => (Err OutOfFuel, s')
  | (Err _, s') => (Err (operationFailed op), s')
  end.
Proof. unfold wrapErrors, try_catch. destruct (m s) as [[a|[]] s']; done. Qed.

Lemma readCommit_cases id s :
  (exists c, readCommit id s = (Ok c, s))
  \/ (exists code, readCommit id s = (Err (GitError code), s)).
Proof. unfold readCommit. destruct (readObject id s) as [[| |]|]; eauto. Qed.

Lemma upsertFileInTree_cases root parts blobSha s :
  (exists t s', upsertFileInTree root parts blobSha s = (Ok t, s'))
  \/ (exists code s', upsertFileInTree root parts blobSha s = (Err (GitError code), s')).
Proof.
  destruct (upsertFileInTree root parts blobSha s) as [[t|e] s'] eqn:E; [by eauto|].
  apply throwsOnly_upsertFileInTree in E as [code ->]. eauto.
Qed.

Lemma fmap_bind {A B C} (g : A -> B) (m : M A) (f : B -> M C) s :
  ((g <$> m) ≫= f) s = (m ≫= fun a => f (g a)) s.
Proof. rewrite !bind_unfold, fmap_unfold. by destruct (m s) as [[a|e] s']. Qed.

Lemma bind_mapAwait_single {A B C} (f : A -> M B) (x : A) (k : list B -> M C) s :
  (mapAwait f [x] ≫= k) s = (f x ≫= fun y => k [y]) s.
Proof. rewrite !bind_unfold. simpl. by destruct (f x s) as [[y|e] s1]. Qed.

(** X20: the two versions of [addFile] agree.  The [addFile] that runs
    the whole sequence itself and the [addFile] that hands one file to
    [addManyFiles] return the same result and leave the same store, on
    every input and under every interference, once the commit message is
    given: without one the first commits under [Add <path>], and behaves as
    the second does with that message.  When they fail they fail alike,
    but a failure of the library is reported by the first as a failed
    [addFile] and by the second as a failed [addManyFiles]. *)
Theorem addFile_versions_agree (concurrent : Store -> Store) (client : Client)
    (ref p content : string) (cm : option string) (au : option Author) (s : Store) :
  Standalone.addFile concurrent client (AddFileInput.mk ref p content cm au) s =
  match addFile concurrent client
          (AddFileInput.mk ref p content (Some (default ("Add " ++ p)%string cm)) au) s with
  | (Ok r, s') => (Ok r, s')
  | (Err e, s') => (Err (renameOperation "addManyFiles" "addFile" e), s')
  end.
Proof.
  unfold Standalone.addFile, addFile, addManyFiles.
  unfold AddManyFilesInputSchema, AddFileInputSchema.
  cbn [AddFileInput.ref AddFileInput.filePath AddFileInput.content
       AddFileInput.commitMessage AddFileInput.author].
  destruct (min1 ref) eqn:Href; [|reflexivity].
  destruct (min1 p) eqn:Hp; [|reflexivity].
  destruct (optionalAuthor au) eqn:Hau; [|reflexivity].
  cbn [andb parse]. rewrite !bind_mret.
  cbn [AddFileInput.ref AddFileInput.filePath AddFileInput.content
       AddFileInput.commitMessage AddFileInput.author
       AddManyFilesInput.ref AddManyFilesInput.files AddManyFilesInput.commitMessage
       AddManyFilesInput.author forallb FileInput.filePath].
  rewrite Href, Hp, Hau. rewrite bool_decide_true by done. cbn [andb parse].
  rewrite (bind_unfold (mret _ ≫= _)). rewrite bind_mret.
  cbn [AddManyFilesInput.ref AddManyFilesInput.files AddManyFilesInput.commitMessage
       AddManyFilesInput.author default from_option].
  rewrite !wrapErrors_unfold.
  rewrite !(bind_Ok _ _ _ _ _ (try_resolveRef _ s)).
  assert (exists root,
            (match refs s !! normalizeRef ref with
             | Some p0 => readCommit p0 ≫= fun c => mret (Some (Commit.tree c))
             | None => mret None
             end) s = (root, s)
            /\ match root with
               | Ok _ => True
               | Err e => exists code, e = GitError code
               end) as (root & Hr & Hroot).
  { destruct (refs s !! normalizeRef ref) as [p0|]; [|by exists (Ok None)].
    rewrite bind_unfold.
    destruct (readCommit_cases p0 s) as [[c ->] | [code ->]].
    - by exists (Ok (Some (Commit.tree c))).
    - exists (Err (GitError code)). split; [done|]. by exists code. }
  destruct root as [rootTreeSha|e].
  2:{ destruct Hroot as [code ->]. by rewrite !(bind_Err _ _ _ _ _ Hr). }
  rewrite !(bind_Ok _ _ _ _ _ Hr). rewrite bind_mapAwait_single. unfold fileProcessing.
  cbn [FileInput.content FileInput.filePath]. mnorm.
  destruct (writeObject_spec (BlobObject content) s) as (blobSha & s1 & Hwb & _).
  fold (writeBlob content) in Hwb. rewrite !(bind_Ok _ _ _ _ _ Hwb).
  case_decide as Hparts; [reflexivity|]. mnorm.
  unfold addManyFiles_loop. cbn [forEach ProcessedFile.pathParts ProcessedFile.blobSha].
  mnorm. rewrite fmap_bind. mnorm.
  destruct (upsertFileInTree_cases rootTreeSha (pathPartsOf p) blobSha s1)
    as [(t & s2 & Hup) | (code & s2 & Hup)].
  2:{ by rewrite !(bind_Err _ _ _ _ _ Hup). }
  rewrite !(bind_Ok _ _ _ _ _ Hup). mnorm.
  match goal with
  | |- context [writeCommit ?c] =>
      destruct (writeCommit_spec c s2) as (commitSha & s3 & Hwc & _)
  end.
  rewrite !(bind_Ok _ _ _ _ _ Hwc).
  rewrite !(bind_Ok _ _ _ _ _ (eq_refl : suspended concurrent s3 = (Ok tt, concurrent s3))).
  rewrite !bind_unfold, !compareAndSwap_eval. case_decide; reflexivity.
Qed.

(** X21: the two versions of [removeFile] agree.  The [removeFile] that
    runs the whole sequence itself and the [removeFile] that hands one path
    to [removeManyFiles] return the same commit and tree and leave the same
    store, on every input and under every interference, once the commit
    message is given: without one the first commits under [Remove <path>],
    and behaves as the second does with that message.  When they fail they
    fail alike, but a failure of the library is reported by the first as a
    failed [removeFile] and by the second as a failed [removeManyFiles]. *)
Theorem removeFile_versions_agree (concurrent : Store -> Store) (client : Client)
    (ref p : string) (cm : option string) (au : option Author) (s : Store) :
  Standalone.removeFile concurrent client (RemoveFileInput.mk ref p cm au) s =
  match removeFile concurrent client
          (RemoveFileInput.mk ref p (Some (default ("Remove " ++ p)%string cm)) au) s with
  | (Ok r, s') => (Ok r, s')
  | (Err e, s') => (Err (renameOperation "removeManyFiles" "removeFile" e), s')
  end.
Proof.
  unfold Standalone.removeFile, removeFile, removeManyFiles.
  unfold RemoveManyFilesInputSchema, RemoveFileInputSchema.
  cbn [RemoveFileInput.ref RemoveFileInput.filePath
       RemoveFileInput.commitMessage RemoveFileInput.author].
  destruct (min1 ref) eqn:Href; [|reflexivity].
  destruct (min1 p) eqn:Hp; [|reflexivity].
  destruct (optionalAuthor au) eqn:Hau; [|reflexivity].
  cbn [andb parse]. rewrite !bind_mret.
  cbn [RemoveFileInput.ref RemoveFileInput.filePath
       RemoveFileInput.commitMessage RemoveFileInput.author
       RemoveManyFilesInput.ref RemoveManyFilesInput.filePaths
       RemoveManyFilesInput.commitMessage RemoveManyFilesInput.author forallb].
  rewrite Href, Hp, Hau. rewrite bool_decide_true by done. cbn [andb parse].
  rewrite (bind_unfold (mret _ ≫= _)). rewrite bind_mret.
  cbn [RemoveManyFilesInput.ref RemoveManyFilesInput.filePaths
       RemoveManyFilesInput.commitMessage RemoveManyFilesInput.author
       default from_option].
  rewrite !wrapErrors_unfold.
  rewrite (decide_True (P := NoDup [p])) by apply NoDup_singleton.
  rewrite bind_mret.
  destruct (refs s !! normalizeRef ref) as [parentSha|] eqn:Hparent.
  2:{ assert (resolveRef (normalizeRef ref) s = (Err (GitError "NotFoundError"), s)) as Hr.
      { unfold resolveRef. by rewrite Hparent. }
      by rewrite !(bind_Err _ _ _ _ _ Hr). }
  rewrite !(bind_Ok _ _ _ _ _ (resolveRef_Ok _ _ _ Hparent)).
  destruct (readCommit_cases parentSha s) as [[c Hc] | [code Hc]].
  2:{ by rewrite !(bind_Err _ _ _ _ _ Hc). }
  rewrite !(bind_Ok _ _ _ _ _ Hc). cbn [arrayMap]. mnorm.
  case_decide as Hparts; [reflexivity|]. mnorm.
  cbn [forEach snd]. mnorm.
  destruct (removeFileFromTree (Some (Commit.tree c)) (pathPartsOf p) s) as [[t|e] s1] eqn:Hrm.
  2:{ rewrite !(bind_Err _ _ _ _ _ Hrm).
      apply throwsOnly_removeFileFromTree in Hrm
        as [[code ->] | (code & ctx & -> & ->%list_elem_of_singleton)]; reflexivity. }
  rewrite !(bind_Ok _ _ _ _ _ Hrm). mnorm.
  assert (exists finalTreeSha s2,
            (match t with Some t0 => mret t0 | None => writeTree [] end) s1
            = (Ok finalTreeSha, s2)) as (finalTreeSha & s2 & Hfinal).
  { destruct t as [t0|]; [by eexists _, _|].
    destruct (writeTree_spec [] s1) as (id & s2 & Hw & _). eauto. }
  rewrite !(bind_Ok _ _ _ _ _ Hfinal).
  match goal with
  | |- context [writeCommit ?c] =>
      destruct (writeCommit_spec c s2) as (commitSha & s3 & Hwc & _)
  end.
  rewrite !(bind_Ok _ _ _ _ _ Hwc).
  rewrite !(bind_Ok _ _ _ _ _ (eq_refl : suspended concurrent s3 = (Ok tt, concurrent s3))).
  rewrite !bind_unfold, !compareAndSwap_eval. case_decide; reflexivity.
Qed.
